(** * Customer stories scraper: extraction pipeline

    A shallow embedding of the Playwright test in [script.js]
    ('Extract all stories with pagination support') and of its helpers
    [downloadImage], [getImageExtension] and [generateImageFilename].

    Conventions.
    - A JavaScript string is a [string]; each [ascii] stands for one code
      unit in the Latin-1 range. Where a text may hold any UTF-16 code unit
      and the difference matters (the sanitized product name), the code
      units are a [list N].
    - A JavaScript number that [parseInt] returns is the integer it stands
      for, a [Z]; [parseInt] rounds to the nearest double.
    - [null]/[undefined] is [None]; a DOM element that [querySelector] may
      not find is an [option].
    - The browser (page renderer), the HTTP stack and the clock are
      external: they appear as parameters [render], [net] and [now]. *)

From stdpp Require Import base numbers list strings pretty gmap fin_maps sorting.
From Stdlib Require Import Ascii.

(** ** JavaScript string primitives *)

Module JsString.

Definition code (c : ascii) : N := N_of_ascii c.

Definition in_range (lo hi : N) (c : ascii) : bool :=
  ((lo <=? code c) && (code c <=? hi))%N.

Definition is_digit (c : ascii) : bool := in_range 48 57 c.
Definition is_upper (c : ascii) : bool := in_range 65 90 c.
Definition is_lower (c : ascii) : bool := in_range 97 122 c.
(** the character class [a-zA-Z0-9] *)
Definition is_alnum (c : ascii) : bool := is_lower c || is_upper c || is_digit c.

(** White space as [String.prototype.trim] and [parseInt] see it:
    TAB, LF, VT, FF, CR, SP and NBSP. *)
Definition is_white (c : ascii) : bool :=
  in_range 9 13 c || (code c =? 32)%N || (code c =? 160)%N.

(** Line terminators, which [.] in a regular expression does not match. *)
Definition is_line_terminator (c : ascii) : bool :=
  (code c =? 10)%N || (code c =? 13)%N.

(** [toLowerCase] on one code unit: A-Z, and the Latin-1 capitals
    U+00C0..U+00DE except the multiplication sign U+00D7. *)
Definition lower_char (c : ascii) : ascii :=
  if is_upper c || (in_range 192 222 c && negb (code c =? 215)%N)
  then ascii_of_N (code c + 32) else c.

Fixpoint map_chars (f : ascii → ascii) (s : string) : string :=
  match s with
  | EmptyString => EmptyString
  | String c t => String (f c) (map_chars f t)
  end.

Definition toLowerCase : string → string := map_chars lower_char.

Definition is_empty (s : string) : bool :=
  match s with EmptyString => true | _ => false end.

(** a string is truthy when it is not empty *)
Definition truthy (s : string) : bool := negb (is_empty s).

Definition startsWith (s p : string) : bool := String.prefix p s.

Fixpoint drop (n : nat) (s : string) : string :=
  match n, s with
  | S n', String _ t => drop n' t
  | _, _ => s
  end.

(** [hay.includes(needle)] *)
Fixpoint includes (hay needle : string) : bool :=
  String.prefix needle hay ||
  match hay with
  | EmptyString => false
  | String _ t => includes t needle
  end.

Fixpoint trimStart (s : string) : string :=
  match s with
  | String c t => if is_white c then trimStart t else s
  | EmptyString => EmptyString
  end.

Fixpoint trimEnd (s : string) : string :=
  match s with
  | EmptyString => EmptyString
  | String c t =>
      let t' := trimEnd t in
      if is_white c && is_empty t' then EmptyString else String c t'
  end.

Definition trim (s : string) : string := trimEnd (trimStart s).

(** [s.replace(pat, rep)] with a string pattern: the first occurrence only *)
Fixpoint replace_first (pat rep s : string) : string :=
  if String.prefix pat s then rep +:+ drop (String.length pat) s
  else match s with
       | EmptyString => EmptyString
       | String c t => String c (replace_first pat rep t)
       end.

(** [a || ''] for an attribute value that may be null *)
Definition or_empty (a : option string) : string := default "" a.

End JsString.
Import JsString.

(** ** Data model: the records the test builds *)

Record ProductRef := mkProductRef {
  name : string;
  icon : string;
  iconAlt : string;
  iconLocal : option string
}.

Record Company := mkCompany {
  logo : string;
  logoLocal : option string
}.

Record Media := mkMedia {
  headerImage : string;
  headerImageAlt : string;
  headerImageLocal : option string
}.

Record StoryRecord := mkStory {
  page : nat;
  positionOnPage : nat;
  globalId : string;
  title : string;
  industry : string;
  storyUrl : string;
  company : Company;
  media : Media;
  microsoftProducts : list ProductRef;
  extractedAt : string
}.

(** ** The rendered document, as far as the selectors of the test see it *)

(** an [img] element: [getAttribute] gives null for a missing attribute *)
Record ImgEl := mkImg {
  src : option string;
  alt : option string
}.

(** a [.related-products__product] element *)
Record ProductEl := mkProductEl {
  productLabel : option string;   (* textContent of its [.label], if any *)
  productIcon : option ImgEl      (* its first [img], if any *)
}.

(** a [.card--style-customer-story] element *)
Record Card := mkCard {
  titleElement : option string;     (* textContent of [.block-feature__title] *)
  industryElement : option string;  (* textContent of the eyebrow label *)
  anchors : list string;            (* href of every [a[href]] inside, document order *)
  logoImg : option ImgEl;           (* [.media__slot img] *)
  headerImg : option ImgEl;         (* [.card__media .ocr-img img] *)
  productElements : list ProductEl
}.

(** the [#right-arrow] control *)
Record NextButton := mkNextButton {
  nb_classList : list string;
  nb_ariaDisabled : option string
}.

Record Page := mkPage {
  cards : list Card;
  paginationContainer : option (list string);  (* classList of [data-mount=oc-pagination] *)
  showValue : option string;                   (* textContent of the shown count *)
  showTotal : option string;                   (* textContent of the total count *)
  paginationAnnouncement : option string;      (* textContent of [#pagination-announcement] *)
  rightArrow : option NextButton
}.

(** ** Record Extractor: the first [page.evaluate] of the loop *)

Module Extractor.

Definition story_path : string := "/customers/story/".

(** [card.querySelector('a[href*="/customers/story/"]')]: the first anchor
    whose href contains the path; the result is that anchor's href *)
Definition storyLink (card : Card) : option string :=
  List.find (λ href, includes href story_path) (anchors card).

Definition img_src (i : option ImgEl) : string :=
  match i with Some el => or_empty (src el) | None => "" end.

Definition img_alt (i : option ImgEl) : string :=
  match i with Some el => or_empty (alt el) | None => "" end.

Definition extract_product (el : ProductEl) : option ProductRef :=
  match productLabel el with
  | Some txt =>
      Some {| name := trim txt;
              icon := img_src (productIcon el);
              iconAlt := img_alt (productIcon el);
              iconLocal := None |}
  | None => None
  end.

Definition extract_products (els : list ProductEl) : list ProductRef :=
  omap extract_product els.

Definition make_globalId (pageNum position : nat) : string :=
  "p" +:+ pretty pageNum +:+ "_" +:+ pretty position.

(** the body of [cards.forEach((card, index) => ...)]; [None] when the
    card is skipped *)
Definition extract_card (now : string) (pageNum index : nat) (card : Card)
  : option StoryRecord :=
  match titleElement card, storyLink card with
  | Some titleText, Some href =>
      Some {| page := pageNum;
              positionOnPage := index + 1;
              globalId := make_globalId pageNum (index + 1);
              title := trim titleText;
              industry :=
                match industryElement card with
                | Some txt => trim (replace_first "Industry: " "" txt)
                | None => ""
                end;
              storyUrl := href;
              company := {| logo := img_src (logoImg card); logoLocal := None |};
              media := {| headerImage := img_src (headerImg card);
                          headerImageAlt := img_alt (headerImg card);
                          headerImageLocal := None |};
              microsoftProducts := extract_products (productElements card);
              extractedAt := now |}
  | _, _ => None
  end.

(** [forEach] from position [index] on *)
Fixpoint extract_from (now : string) (pageNum index : nat) (cs : list Card)
  : list StoryRecord :=
  match cs with
  | [] => []
  | card :: rest =>
      match extract_card now pageNum index card with
      | Some s => s :: extract_from now pageNum (S index) rest
      | None => extract_from now pageNum (S index) rest
      end
  end.

Definition extract_page (now : string) (pageNum : nat) (p : Page) : list StoryRecord :=
  extract_from now pageNum 0 (cards p).

End Extractor.

(** ** Pagination Oracle: the second [page.evaluate] and the branches after it *)

Module Oracle.

(** *** [parseInt] with no radix argument

    Leading white space is skipped, a sign is read, a [0x]/[0X] prefix
    selects radix 16, and the longest prefix of digits is read; no digit at
    all gives NaN, which is [None] here. The result is a Number: the double
    nearest to the integer read. *)

(** Infinity, as the integer just above every finite double *)
Definition infinity : N := 2 ^ 1024.

(** the Number value of a non-negative integer: itself when it has at most
    53 bits, else the nearest multiple of the power of two that leaves 53
    bits, ties to the even one, and Infinity from [2^1024] on *)
Definition to_double (n : N) : N :=
  let bits := N.size n in
  if (bits <=? 53)%N then n
  else
    let e := (bits - 53)%N in
    let q := N.shiftr n e in
    let r := N.land n (N.ones e) in
    let half := N.shiftl 1 (e - 1) in
    let q' := if (r <? half)%N then q
              else if (half <? r)%N then N.succ q
              else if N.even q then q else N.succ q in
    let v := N.shiftl q' e in
    if (infinity <=? v)%N then infinity else v.

Definition digit_of (radix : N) (c : ascii) : option N :=
  let d := if is_digit c then Some (code c - 48)%N
           else if in_range 97 102 c then Some (code c - 87)%N
           else if in_range 65 70 c then Some (code c - 55)%N
           else None in
  match d with
  | Some v => if (v <? radix)%N then Some v else None
  | None => None
  end.

Fixpoint parse_digits (radix : N) (s : string) (acc : option N) : option N :=
  match s with
  | String c t =>
      match digit_of radix c with
      | Some d => parse_digits radix t (Some (radix * default 0%N acc + d)%N)
      | None => acc
      end
  | EmptyString => acc
  end.

Definition parseInt (s : string) : option Z :=
  let s1 := trimStart s in
  let '(neg, s2) :=
    match s1 with
    | String c t =>
        if (c =? "-")%char then (true, t)
        else if (c =? "+")%char then (false, t)
        else (false, s1)
    | EmptyString => (false, s1)
    end in
  let '(radix, s3) :=
    if startsWith s2 "0x" || startsWith s2 "0X" then (16%N, drop 2 s2)
    else (10%N, s2) in
  match parse_digits radix s3 None with
  | Some n =>
      let v := Z.of_N (to_double n) in
      Some (if neg : bool then (- v)%Z else v)
  | None => None
  end.

(** *** The regular expression [/Page (\d+) of (\d+)/] *)

(** the longest prefix of decimal digits, and what follows it *)
Fixpoint span_digits (s : string) : string * string :=
  match s with
  | String c t =>
      if is_digit c then let '(d, r) := span_digits t in (String c d, r)
      else (EmptyString, s)
  | EmptyString => (EmptyString, EmptyString)
  end.

Definition strip_prefix (p s : string) : option string :=
  if String.prefix p s then Some (drop (String.length p) s) else None.

(** a match that starts at the first character; the two groups *)
Definition match_page_of_here (s : string) : option (string * string) :=
  match strip_prefix "Page " s with
  | Some r1 =>
      let '(x, r2) := span_digits r1 in
      if is_empty x then None
      else match strip_prefix " of " r2 with
           | Some r3 =>
               let '(y, _) := span_digits r3 in
               if is_empty y then None else Some (x, y)
           | None => None
           end
  | None => None
  end.

(** [text.match(re)]: the leftmost match *)
Fixpoint match_page_of (s : string) : option (string * string) :=
  match match_page_of_here s with
  | Some m => Some m
  | None =>
      match s with
      | String _ t => match_page_of t
      | EmptyString => None
      end
  end.

(** *** The object the evaluation returns

    [showingResults], a text that is only printed to the log, is left
    out. *)

Record PaginationInfo := mkInfo {
  pi_currentPage : option Z;      (* null in the fallback *)
  pi_totalPages : option Z;       (* null in the fallback *)
  pi_hasNext : bool;
  pi_singlePage : option bool;    (* may be null in the fallback *)
  pi_reason : string
}.

(** truthiness of a value that is null or a boolean *)
Definition truthy_b (v : option bool) : bool := default false v.

(** truthiness of a value that is null or a number *)
Definition truthy_n (v : option Z) : bool :=
  match v with Some z => negb (z =? 0)%Z | None => false end.

Definition classList_contains (cl : list string) (c : string) : bool :=
  bool_decide (c ∈ cl).

Definition isPaginationHidden (p : Page) : option bool :=
  (λ cl, classList_contains cl "d-none") <$> paginationContainer p.

Definition currentShowing (p : Page) : option Z :=
  match showValue p with Some t => parseInt t | None => Some 0%Z end.

Definition totalResults (p : Page) : option Z :=
  match showTotal p with Some t => parseInt t | None => Some 0%Z end.

(** [currentShowing === totalResults && totalResults > 0]; NaN compares
    false with everything *)
Definition allResultsOnOnePage (p : Page) : bool :=
  match currentShowing p, totalResults p with
  | Some a, Some b => (a =? b)%Z && (0 <? b)%Z
  | _, _ => false
  end.

Definition paginationText (p : Page) : string :=
  default "" (paginationAnnouncement p).

Definition nextButtonDisabled (p : Page) : option bool :=
  (λ b, classList_contains (nb_classList b) "disabled"
        || bool_decide (nb_ariaDisabled b = Some "true")) <$> rightArrow p.

Definition paginationInfo (p : Page) : PaginationInfo :=
  if truthy_b (isPaginationHidden p) && allResultsOnOnePage p then
    {| pi_currentPage := Some 1%Z; pi_totalPages := Some 1%Z;
       pi_hasNext := false; pi_singlePage := Some true;
       pi_reason := "pagination hidden and all results shown" |}
  else
    match match_page_of (paginationText p) with
    | Some (x, y) =>
        let cur := parseInt x in
        let tot := parseInt y in
        {| pi_currentPage := cur; pi_totalPages := tot;
           pi_hasNext :=
             match cur, tot with
             | Some a, Some b => (a <? b)%Z
             | _, _ => false
             end;
           pi_singlePage := Some (bool_decide (tot = Some 1%Z));
           pi_reason := "pagination announcement" |}
    | None =>
        {| pi_hasNext := negb (truthy_b (nextButtonDisabled p));
           pi_currentPage := None; pi_totalPages := None;
           pi_singlePage := nextButtonDisabled p;
           pi_reason := "next button state" |}
    end.

(** *** The branches of the loop that read the object

    [true] is "navigate to the next page" (the [else] branch, which
    increments the counter), [false] sets [hasNextPage = false]. *)
Definition decision (info : PaginationInfo) (currentPage : nat) : bool :=
  if truthy_b (pi_singlePage info) then false
  else if truthy_n (pi_totalPages info)
          && match pi_totalPages info with
             | Some t => (t <=? Z.of_nat currentPage)%Z
             | None => false
             end
  then false
  else if negb (pi_hasNext info) then false
  else true.

(** the oracle on a rendered page, at loop counter [currentPage] *)
Definition oracle (p : Page) (currentPage : nat) : bool :=
  decision (paginationInfo p) currentPage.

End Oracle.

(** ** Asset Fetcher: [downloadImage], [getImageExtension], [generateImageFilename] *)

Module Fetcher.

(** *** The outside world of a download *)

(** what a path of the local disk holds, when it is a regular file *)
Inductive FileState := Complete | Partial.

(** how the body of a 200 response ends once it is piped into the file:
    the write stream finishes; the write stream raises an error; the socket
    stays idle until the request's timeout fires; or the peer closes the
    connection before the body is complete, after which no 'finish', no
    'error' of the write stream and no timeout comes any more *)
Inductive Transfer := Finish | StreamError | Stall | Cut.

(** what one run of the promise's executor leads to *)
Inductive Attempt :=
| MkdirError                        (* [mkdirSync] throws: no request is made *)
| RequestError                      (* [get] throws, or 'error' on the request *)
| RequestTimeout                    (* the timeout fires before any response *)
| Response (statusCode : Z) (location : option string) (body : Transfer).

(** the error a rejected promise carries *)
Inductive Failure :=
| HttpStatus (statusCode : Z)       (* 'Failed to download image: <code>' *)
| WriteError                        (* the write stream's error *)
| DownloadTimeout                   (* 'Download timeout' *)
| NetworkError                      (* the request's error *)
| DirectoryError.                   (* the error of [mkdirSync] *)

(** the state in which the promise of [downloadImage] ends; [Resolved None]
    is [resolve(null)], [Pending] a promise that never settles *)
Inductive Promise :=
| Resolved (value : option string)
| Rejected (err : Failure)
| Pending.

(** the time limit of the request, [request.setTimeout(30000, ...)] *)
Definition REQUEST_TIMEOUT : N := 30000.

Record World := mkWorld {
  files : gmap string FileState;    (* the regular files *)
  dirs : gset string;               (* the directories *)
  requests : nat;                   (* executor runs so far: the index of the
                                       network's next answer *)
  waited : N                        (* milliseconds spent so far in waits of
                                       a fixed length *)
}.

(** the network: the answer to the [n]-th attempt of the run, by URL *)
Definition Net := nat → string → Attempt.

Definition issue (w : World) : World :=
  {| files := files w; dirs := dirs w; requests := S (requests w);
     waited := waited w |}.

Definition with_files (w : World) (fs : gmap string FileState) : World :=
  {| files := fs; dirs := dirs w; requests := requests w; waited := waited w |}.

Definition with_dirs (w : World) (ds : gset string) : World :=
  {| files := files w; dirs := ds; requests := requests w; waited := waited w |}.

(** the world after a wait of [ms] milliseconds *)
Definition wait (ms : N) (w : World) : World :=
  {| files := files w; dirs := dirs w; requests := requests w;
     waited := (waited w + ms)%N |}.

(** *** [path.dirname] and [fs.mkdirSync(dir, { recursive: true })], POSIX *)

Definition is_slash (c : ascii) : bool := (code c =? 47)%N.

(** some character is not a slash *)
Fixpoint has_name (s : string) : bool :=
  match s with
  | EmptyString => false
  | String c t => negb (is_slash c) || has_name t
  end.

(** the position of the last slash that a character other than a slash
    follows, if any *)
Fixpoint last_sep (s : string) : option nat :=
  match s with
  | EmptyString => None
  | String c t =>
      match last_sep t with
      | Some i => Some (S i)
      | None => if is_slash c && has_name t then Some 0 else None
      end
  end.

(** [path.dirname]: the path up to its last separator, trailing slashes
    set aside; the first character is never taken for that separator *)
Definition dirname (path : string) : string :=
  match path with
  | EmptyString => "."
  | String c0 rest =>
      match last_sep rest with
      | None => if is_slash c0 then "/" else "."
      | Some i =>
          if is_slash c0 && bool_decide (i = 0) then "//"
          else String.substring 0 (S i) path
      end
  end.

(** a directory and the directories above it, up to the root or the
    working directory, which exist *)
Fixpoint dir_chain_from (fuel : nat) (dir : string) : list string :=
  match fuel with
  | O => []
  | S fuel' =>
      if decide (dirname dir = dir) then []
      else dir :: dir_chain_from fuel' (dirname dir)
  end.

Definition dir_chain (dir : string) : list string :=
  dir_chain_from (S (String.length dir)) dir.

(** [fs.existsSync] *)
Definition existsSync (path : string) (w : World) : bool :=
  bool_decide (path ∈ dirs w) || bool_decide (is_Some (files w !! path)).

(** [if (!fs.existsSync(dir)) fs.mkdirSync(dir, { recursive: true })], when
    [mkdirSync] does not throw: the directory and the missing ones above
    it are created *)
Definition ensure_dir (dir : string) (w : World) : World :=
  if existsSync dir w then w
  else with_dirs w (dirs w ∪ list_to_set (dir_chain dir)).

Definition is_redirect (status : Z) : bool := (status =? 301)%Z || (status =? 302)%Z.

(** [downloadImage(imageUrl, localPath)]. The function calls itself on a
    redirect with no bound on the hops; [fuel] bounds them here and [None]
    stands for a chain longer than that. The executor first makes sure that
    the directory of the destination exists. [createWriteStream] creates
    the file, [fs.unlink] removes it. A timeout is a wait of
    [REQUEST_TIMEOUT] milliseconds. *)
Fixpoint downloadImage (net : Net) (fuel : nat) (imageUrl : option string)
    (localPath : string) (w : World) : option (Promise * World) :=
  match imageUrl with
  | None => Some (Resolved None, w)
  | Some url =>
      if is_empty url || startsWith url "data:" then Some (Resolved None, w)
      else
        match fuel with
        | O => None
        | S fuel' =>
            let w1 := ensure_dir (dirname localPath) (issue w) in
            match net (requests w) url with
            | Response status location body =>
                if (status =? 200)%Z then
                  match body with
                  | Finish =>
                      Some (Resolved (Some localPath),
                            with_files w1 (<[localPath := Complete]> (files w1)))
                  | StreamError =>
                      Some (Rejected WriteError,
                            with_files w1 (delete localPath (files w1)))
                  | Stall =>
                      Some (Rejected DownloadTimeout,
                            wait REQUEST_TIMEOUT
                              (with_files w1 (<[localPath := Partial]> (files w1))))
                  | Cut =>
                      Some (Pending,
                            with_files w1 (<[localPath := Partial]> (files w1)))
                  end
                else if is_redirect status then
                  downloadImage net fuel' location localPath w1
                else Some (Rejected (HttpStatus status), w1)
            | MkdirError => Some (Rejected DirectoryError, issue w)
            | RequestError => Some (Rejected NetworkError, w1)
            | RequestTimeout =>
                Some (Rejected DownloadTimeout, wait REQUEST_TIMEOUT w1)
            end
        end
  end.

(** *** [getImageExtension] *)

Definition known_extensions : list string :=
  ["jpg"; "jpeg"; "png"; "gif"; "webp"; "svg"].

(** case-insensitive prefix test, for the [i] flag *)
Definition prefix_ci (p s : string) : bool :=
  String.prefix (toLowerCase p) (toLowerCase (String.substring 0 (String.length p) s)).

Fixpoint no_line_terminator (s : string) : bool :=
  match s with
  | EmptyString => true
  | String c t => negb (is_line_terminator c) && no_line_terminator t
  end.

(** the tail of the expression, an optional query then the end of input:
    nothing left, or a question mark and the rest of the line *)
Definition query_then_end (s : string) : bool :=
  match s with
  | EmptyString => true
  | String c t => (code c =? 63)%N && no_line_terminator t
  end.

(** the alternation [(jpg|jpeg|png|gif|webp|svg)] right after a dot *)
Definition extension_here (s : string) : option string :=
  List.find (λ e, prefix_ci e s && query_then_end (drop (String.length e) s))
            known_extensions.

(** the leftmost match of the whole expression; the first group, as written
    in the URL *)
Fixpoint url_extension (s : string) : option string :=
  match s with
  | EmptyString => None
  | String c t =>
      if (code c =? 46)%N then
        match extension_here t with
        | Some e => Some (String.substring 0 (String.length e) t)
        | None => url_extension t
        end
      else url_extension t
  end.

Definition getImageExtension (url contentType : string) : string :=
  match url_extension url with
  | Some e => toLowerCase e
  | None =>
      if includes contentType "jpeg" || includes contentType "jpg" then "jpg"
      else if includes contentType "png" then "png"
      else if includes contentType "gif" then "gif"
      else if includes contentType "webp" then "webp"
      else if includes contentType "svg" then "svg"
      else "jpg"
  end.

(** *** [generateImageFilename]; the company name is not used *)
Definition generateImageFilename (companyName globalId type extension : string) : string :=
  globalId +:+ "_" +:+ type +:+ "." +:+ extension.

(** [name.replace(/[^a-zA-Z0-9]/g, '_').toLowerCase()] *)
Definition replace_non_alnum (s : string) : string :=
  map_chars (λ c, if is_alnum c then c else "_"%char) s.

Definition productSafeName (name : string) : string :=
  toLowerCase (replace_non_alnum name).

(** *** The same expression on a name of any UTF-16 code units

    Without the [u] flag the class [[^a-zA-Z0-9]] matches one code unit at
    a time, so each half of a surrogate pair is replaced on its own. *)

(** the code units of a string of the Latin-1 range *)
Fixpoint units (s : string) : list N :=
  match s with
  | EmptyString => []
  | String c t => code c :: units t
  end.

Definition is_alnum_unit (u : N) : bool :=
  ((97 <=? u) && (u <=? 122) || (65 <=? u) && (u <=? 90)
   || (48 <=? u) && (u <=? 57))%N.

Definition replace_non_alnum_utf16 (s : list N) : list N :=
  (λ u, if is_alnum_unit u then u else 95%N) <$> s.

(** [toLowerCase] of one code unit, for the part of Unicode that is
    tabulated here: Basic Latin and Latin-1 Supplement, U+0130 (capital I
    with dot above, which becomes i and a combining dot) and U+212A (the
    Kelvin sign, which becomes k). [None] for any other code unit. *)
Definition lower_unit (u : N) : option (list N) :=
  if (u <? 256)%N then Some [code (lower_char (ascii_of_N u))]
  else if (u =? 304)%N then Some [105%N; 775%N]
  else if (u =? 8490)%N then Some [107%N]
  else None.

(** [toLowerCase]; [None] when a code unit is not tabulated *)
Fixpoint toLowerCase_utf16 (s : list N) : option (list N) :=
  match s with
  | [] => Some []
  | u :: t =>
      match lower_unit u, toLowerCase_utf16 t with
      | Some l, Some r => Some (l ++ r)
      | _, _ => None
      end
  end.

Definition productSafeName_utf16 (name : list N) : option (list N) :=
  toLowerCase_utf16 (replace_non_alnum_utf16 name).

End Fetcher.

(** ** Run Orchestrator: the body of the test *)

Module Orchestrator.
Import Extractor Oracle Fetcher.

(** how a computation of the test ends: normally; by a thrown error that
    fails the test before anything is written; not within the bound the
    model puts on it; or not at all within the time limit that
    [test.setTimeout(120000)] gives the test, which then fails *)
Inductive Outcome (A : Type) :=
| Completed (a : A)
| Fatal
| Unbounded
| TimedOut.
Arguments Completed {A} a.
Arguments Fatal {A}.
Arguments Unbounded {A}.
Arguments TimedOut {A}.

(** the literal of [test.setTimeout(120000)] *)
Definition TEST_TIMEOUT : N := 120000.

(** the literal of [page.waitForTimeout(3000)], once for every page *)
Definition PAGE_WAIT : N := 3000.

(** the literal of the loop condition [currentPage <= 5] *)
Definition MAX_PAGES : nat := 5.

Definition pageUrl (baseUrl : string) (currentPage : nat) : string :=
  if decide (currentPage = 1) then baseUrl
  else baseUrl +:+ "&page=" +:+ pretty currentPage.

(** The variables of the loop. [renderedPages] and [extractedPages] are
    ghost: the page numbers passed to [page.goto] and those handed to the
    extracting [page.evaluate], in order. The code never reads them. *)
Record LoopState := mkLoop {
  allStories : list StoryRecord;
  currentPage : nat;
  hasNextPage : bool;
  renderedPages : list nat;
  extractedPages : list nat
}.

Definition initial : LoopState :=
  {| allStories := []; currentPage := 1; hasNextPage := true;
     renderedPages := []; extractedPages := [] |}.

Inductive Iteration :=
| Next (st : LoopState)      (* the body ran to its end *)
| Break (st : LoopState)     (* [break] on a page without cards *)
| Throw.                     (* [goto] or [waitForSelector] threw *)

Section Loop.
(** the browser: the rendered page for a URL, [None] when navigation or
    the wait for the content anchor fails *)
Variable render : string → option Page.
(** the clock reading stored in [extractedAt] *)
Variable now : string.
Variable baseUrl : string.

Definition iteration (st : LoopState) : Iteration :=
  match render (pageUrl baseUrl (currentPage st)) with
  | None => Throw
  | Some p =>
      let rendered := renderedPages st ++ [currentPage st] in
      match cards p with
      | [] =>
          Break {| allStories := allStories st;
                   currentPage := currentPage st;
                   hasNextPage := hasNextPage st;
                   renderedPages := rendered;
                   extractedPages := extractedPages st |}
      | _ :: _ =>
          let pageStories := extract_page now (currentPage st) p in
          let stories := allStories st ++ pageStories in
          let extracted := extractedPages st ++ [currentPage st] in
          if oracle p (currentPage st) then
            Next {| allStories := stories;
                    currentPage := S (currentPage st);
                    hasNextPage := hasNextPage st;
                    renderedPages := rendered;
                    extractedPages := extracted |}
          else
            Next {| allStories := stories;
                    currentPage := currentPage st;
                    hasNextPage := false;
                    renderedPages := rendered;
                    extractedPages := extracted |}
      end
  end.

(** [while (hasNextPage && currentPage <= 5) { ... }] *)
Fixpoint page_loop (fuel : nat) (st : LoopState) : Outcome LoopState :=
  if hasNextPage st && bool_decide (currentPage st ≤ MAX_PAGES) then
    match fuel with
    | O => Unbounded
    | S fuel' =>
        match iteration st with
        | Next st' => page_loop fuel' st'
        | Break st' => Completed st'
        | Throw => Fatal
        end
    end
  else Completed st.
End Loop.

(** *** The download phase *)

Definition path_join (dir file : string) : string := dir +:+ "/" +:+ file.

(** the assignment after [await downloadImage(...)], or the [catch];
    while the promise is pending nothing is assigned *)
Definition settle_local (r : Promise) (value : string) (old : option string)
  : option string :=
  match r with
  | Resolved _ => Some value
  | Rejected _ | Pending => old
  end.

(** [await downloadImage(...)]: the settled promise and the world, when
    the promise settles *)
Definition await (d : option (Promise * World)) : Outcome (Promise * World) :=
  match d with
  | Some (Pending, _) => TimedOut
  | Some (r, w) => Completed (r, w)
  | None => Unbounded
  end.

Section Downloads.
Variable net : Net.
Variable fuel : nat.
(** [path.join(process.cwd(), 'media')] *)
Variable mediaDir : string.

Definition download_logo (story : StoryRecord) (w : World)
  : Outcome (Company * World) :=
  let c := company story in
  if truthy (logo c) then
    let logoExtension := getImageExtension (logo c) "" in
    let logoFilename :=
      generateImageFilename "" (globalId story) "logo" logoExtension in
    let logoPath := path_join mediaDir logoFilename in
    match await (downloadImage net fuel (Some (logo c)) logoPath w) with
    | Completed (r, w') =>
        Completed
          ({| logo := logo c;
              logoLocal := settle_local r ("media/" +:+ logoFilename) (logoLocal c) |},
           w')
    | Fatal => Fatal
    | Unbounded => Unbounded
    | TimedOut => TimedOut
    end
  else Completed (c, w).

Definition download_header (story : StoryRecord) (w : World)
  : Outcome (Media * World) :=
  let m := media story in
  if truthy (headerImage m) then
    let headerExtension := getImageExtension (headerImage m) "" in
    let headerFilename :=
      generateImageFilename "" (globalId story) "header" headerExtension in
    let headerPath := path_join mediaDir headerFilename in
    match await (downloadImage net fuel (Some (headerImage m)) headerPath w) with
    | Completed (r, w') =>
        Completed
          ({| headerImage := headerImage m;
              headerImageAlt := headerImageAlt m;
              headerImageLocal :=
                settle_local r ("media/" +:+ headerFilename) (headerImageLocal m) |},
           w')
    | Fatal => Fatal
    | Unbounded => Unbounded
    | TimedOut => TimedOut
    end
  else Completed (m, w).

Definition iconFilename (gid : string) (product : ProductRef) : string :=
  generateImageFilename "" gid ("product_" +:+ productSafeName (name product))
                        (getImageExtension (icon product) "").

Definition download_icon (gid : string) (product : ProductRef) (w : World)
  : Outcome (ProductRef * World) :=
  if truthy (icon product) then
    let iconPath := path_join mediaDir (iconFilename gid product) in
    match await (downloadImage net fuel (Some (icon product)) iconPath w) with
    | Completed (r, w') =>
        Completed
          ({| name := name product; icon := icon product;
              iconAlt := iconAlt product;
              iconLocal :=
                settle_local r ("media/" +:+ iconFilename gid product)
                             (iconLocal product) |},
           w')
    | Fatal => Fatal
    | Unbounded => Unbounded
    | TimedOut => TimedOut
    end
  else Completed (product, w).

(** [for (let j = 0; j < story.microsoftProducts.length; j++)] *)
Fixpoint download_icons (gid : string) (ps : list ProductRef) (w : World)
  : Outcome (list ProductRef * World) :=
  match ps with
  | [] => Completed ([], w)
  | product :: rest =>
      match download_icon gid product w with
      | Completed (product', w1) =>
          match download_icons gid rest w1 with
          | Completed (rest', w2) => Completed (product' :: rest', w2)
          | Fatal => Fatal
          | Unbounded => Unbounded
          | TimedOut => TimedOut
          end
      | Fatal => Fatal
      | Unbounded => Unbounded
      | TimedOut => TimedOut
      end
  end.

Definition download_story (story : StoryRecord) (w : World)
  : Outcome (StoryRecord * World) :=
  match download_logo story w with
  | Completed (company', w1) =>
      match download_header story w1 with
      | Completed (media', w2) =>
          match download_icons (globalId story) (microsoftProducts story) w2 with
          | Completed (products', w3) =>
              Completed
                ({| page := page story;
                    positionOnPage := positionOnPage story;
                    globalId := globalId story;
                    title := title story;
                    industry := industry story;
                    storyUrl := storyUrl story;
                    company := company';
                    media := media';
                    microsoftProducts := products';
                    extractedAt := extractedAt story |},
                 w3)
          | Fatal => Fatal
          | Unbounded => Unbounded
          | TimedOut => TimedOut
          end
      | Fatal => Fatal
      | Unbounded => Unbounded
      | TimedOut => TimedOut
      end
  | Fatal => Fatal
  | Unbounded => Unbounded
  | TimedOut => TimedOut
  end.

(** [for (let i = 0; i < allStories.length; i++)] *)
Fixpoint download_all (stories : list StoryRecord) (w : World)
  : Outcome (list StoryRecord * World) :=
  match stories with
  | [] => Completed ([], w)
  | story :: rest =>
      match download_story story w with
      | Completed (story', w1) =>
          match download_all rest w1 with
          | Completed (rest', w2) => Completed (story' :: rest', w2)
          | Fatal => Fatal
          | Unbounded => Unbounded
          | TimedOut => TimedOut
          end
      | Fatal => Fatal
      | Unbounded => Unbounded
      | TimedOut => TimedOut
      end
  end.
End Downloads.

(** *** The result object *)

Record RunMetadata := mkMetadata {
  totalPages : nat;
  totalStories : nat;
  extractionDate : string;
  baseUrl : string;
  storiesPerPage : gmap string nat   (* keys are the page numbers as property names *)
}.

Record Dataset := mkDataset {
  metadata : RunMetadata;
  stories : list StoryRecord
}.

(** the [reduce] callback: [acc[story.page] = (acc[story.page] || 0) + 1] *)
Definition count_story (acc : gmap string nat) (story : StoryRecord) : gmap string nat :=
  <[pretty (page story) := default 0 (acc !! pretty (page story)) + 1]> acc.

Definition count_per_page (stories : list StoryRecord) : gmap string nat :=
  foldl count_story ∅ stories.

(** what a completed run leaves: the written dataset, the disk and the
    counters, and the final loop state with its ghost fields *)
Record RunResult := mkResult {
  dataset : Dataset;
  world : World;
  loop : LoopState
}.

Section Run.
Variable render : string → option Page.
Variable net : Net.
Variable now : string.             (* clock during extraction *)
Variable finishedAt : string.      (* clock when the result is built *)
Variable mediaDir : string.
Variable fuel : nat.               (* bound on redirect hops per download *)

(** The whole test, from the value of [process.env.BASE_URL].

    Of the time that passes only the waits of a fixed length are counted:
    [PAGE_WAIT] for every page that was loaded and [REQUEST_TIMEOUT] for
    every download that timed out. When they alone exceed [TEST_TIMEOUT],
    or a download never settles, the test is ended by its time limit
    before the results are written. Whatever else takes time is not
    counted: a run that is [Completed] here completes in the code when
    the time limit allows it. [mkdirSync] of the media directory is taken
    to succeed. *)
Definition run (envBaseUrl : option string) (w0 : World) : Outcome RunResult :=
  match envBaseUrl with
  | None => Fatal
  | Some url =>
      if is_empty url then Fatal
      else
        match page_loop render now url (S MAX_PAGES) initial with
        | Completed st =>
            match allStories st with
            | [] => Fatal             (* [expect(...).toBeGreaterThan(0)] *)
            | _ :: _ =>
                let w1 :=
                  ensure_dir mediaDir
                    (wait (PAGE_WAIT * N.of_nat (length (renderedPages st))) w0) in
                match download_all net fuel mediaDir (allStories st) w1 with
                | Completed (final, w) =>
                    if (waited w <=? TEST_TIMEOUT)%N then
                      Completed
                        {| dataset :=
                             {| metadata :=
                                  {| totalPages := currentPage st;
                                     totalStories := length final;
                                     extractionDate := finishedAt;
                                     baseUrl := url;
                                     storiesPerPage := count_per_page final |};
                                stories := final |};
                           world := w;
                           loop := st |}
                    else TimedOut
                | Fatal => Fatal
                | Unbounded => Unbounded
                | TimedOut => TimedOut
                end
            end
        | Fatal => Fatal
        | Unbounded => Unbounded
        | TimedOut => TimedOut
        end
  end.
End Run.

End Orchestrator.

Import Extractor Oracle Fetcher Orchestrator.

(** ** The browsing page: [CustomerStoriesApp] *)

Module FrontEnd.

(** A story as the page reads it from the JSON file, with the fields that
    the filter and the industry list look at. [company.name] may be
    undefined: the extraction test stores only the logo of a company. *)
Record LoadedStory := mkLoaded {
  ls_title : string;
  ls_companyName : option string;
  ls_industry : string
}.

(** what [JSON.parse] gives back for a record that the extraction test wrote *)
Definition load_story (s : StoryRecord) : LoadedStory :=
  {| ls_title := title s; ls_companyName := None; ls_industry := industry s |}.

(** [Set.prototype.add]: insertion order, no duplicates *)
Definition set_add (x : string) (l : list string) : list string :=
  if decide (x ∈ l) then l else l ++ [x].

(** the [forEach] of [loadData] that fills [this.industries] *)
Definition collect_industries (stories : list LoadedStory) : list string :=
  foldl (λ acc story,
           if truthy (ls_industry story) then set_add (ls_industry story) acc
           else acc)
        [] stories.

(** [populateIndustryFilter]: the options appended to the select element,
    [Array.from(this.industries).sort()], in the default order of strings
    (by code unit) *)
Definition populateIndustryFilter (stories : list LoadedStory) : list string :=
  merge_sort String.le (collect_industries stories).

(** [matchesSearch] of the filter callback; [None] is the TypeError of
    [undefined.toLowerCase()] *)
Definition matchesSearch (searchTerm : string) (story : LoadedStory) : option bool :=
  if is_empty searchTerm then Some true
  else if includes (toLowerCase (ls_title story)) searchTerm then Some true
  else match ls_companyName story with
       | None => None
       | Some nm =>
           Some (includes (toLowerCase nm) searchTerm
                 || includes (toLowerCase (ls_industry story)) searchTerm)
       end.

Definition matchesIndustry (selectedIndustry : string) (story : LoadedStory) : bool :=
  is_empty selectedIndustry || bool_decide (ls_industry story = selectedIndustry).

(** [this.stories.filter(story => ...)]; an exception of the callback ends
    the filter *)
Fixpoint filter_stories (searchTerm selectedIndustry : string)
    (stories : list LoadedStory) : option (list LoadedStory) :=
  match stories with
  | [] => Some []
  | story :: rest =>
      match matchesSearch searchTerm story with
      | None => None
      | Some found =>
          match filter_stories searchTerm selectedIndustry rest with
          | None => None
          | Some kept =>
              Some (if found && matchesIndustry selectedIndustry story
                    then story :: kept else kept)
          end
      end
  end.

(** [applyFilters] up to the assignment of [filteredStories], from the
    values of the search box and of the industry select: the new
    [filteredStories], or [None] when the filter throws and
    [filteredStories] stays as it was. [renderStories] and [updateStats],
    which follow, read the stories and write to the page; on stories that
    the extraction test wrote, which is what [LoadedStory] stands for, they
    do not throw. *)
Definition applyFilters (searchInput industryFilter : string)
    (stories : list LoadedStory) : option (list LoadedStory) :=
  filter_stories (toLowerCase searchInput) industryFilter stories.

End FrontEnd.

Import FrontEnd.

(** ** Vocabulary of the properties *)

(** a string of decimal digits *)
Fixpoint all_digits (s : string) : bool :=
  match s with
  | EmptyString => true
  | String c t => is_digit c && all_digits t
  end.

(** iterations still possible from a state *)
Definition remaining (st : LoopState) : nat :=
  if hasNextPage st then S MAX_PAGES - currentPage st else 0.

(** the pair that identifies a record *)
Definition key (s : StoryRecord) : nat * nat := (page s, positionOnPage s).

(** a record was extracted from the page rendered for its page number *)
Definition extracted_from_site (render : string → option Page) (now url : string)
    (s : StoryRecord) : Prop :=
  ∃ p, render (pageUrl url (page s)) = Some p ∧ s ∈ extract_page now (page s) p.

(** what holds of the accumulated records at every turn of the loop *)
Definition accumulated (render : string → option Page) (now url : string)
    (st : LoopState) : Prop :=
  NoDup (key <$> allStories st) ∧
  (∀ s, s ∈ allStories st → extracted_from_site render now url s) ∧
  (hasNextPage st = true → ∀ s, s ∈ allStories st → page s < currentPage st).

(** the fields of a record that extraction fixes *)
Definition identity (s : StoryRecord) : nat * nat * string * string * string :=
  (page s, positionOnPage s, globalId s, title s, storyUrl s).

(** the sum of the values of a [storiesPerPage] object *)
Definition sum_values (m : gmap string nat) : nat :=
  map_fold (λ _ v acc, v + acc) 0 m.

(** at the head of the loop: the pages before the counter were rendered and
    extracted, and the counter's page too once the oracle has said stop *)
Definition visited_head (st : LoopState) : Prop :=
  1 ≤ currentPage st ≤ S MAX_PAGES ∧
  extractedPages st = renderedPages st ∧
  renderedPages st
    = seq 1 (if hasNextPage st then currentPage st - 1 else currentPage st).

(** the three ways the loop ends *)
Definition stopped_by_oracle (st : LoopState) : Prop :=
  hasNextPage st = false ∧
  renderedPages st = seq 1 (currentPage st) ∧
  extractedPages st = seq 1 (currentPage st).

Definition stopped_by_empty_page (st : LoopState) : Prop :=
  hasNextPage st = true ∧ currentPage st ≤ MAX_PAGES ∧
  renderedPages st = seq 1 (currentPage st) ∧
  extractedPages st = seq 1 (currentPage st - 1).

Definition stopped_by_cap (st : LoopState) : Prop :=
  hasNextPage st = true ∧ currentPage st = S MAX_PAGES ∧
  renderedPages st = seq 1 MAX_PAGES ∧
  extractedPages st = seq 1 MAX_PAGES.

(** a URL that [downloadImage] does not skip *)
Definition fetchable (url : string) : Prop :=
  is_empty url || startsWith url "data:" = false.


(** the world in which the answer to an attempt arrives, unless
    [mkdirSync] threw: the attempt is counted and the directory of the
    destination exists *)
Definition attempted (path : string) (w : World) : World :=
  ensure_dir (dirname path) (issue w).

(** an attempt that [downloadImage] answers by calling itself *)
Definition is_redirect_attempt (a : Attempt) : bool :=
  match a with
  | Response status _ _ => is_redirect status
  | _ => false
  end.

(** the attempts on which the promise is rejected *)
Definition attempt_fails (a : Attempt) : Prop :=
  match a with
  | Response status _ body => status ≠ 200%Z ∨ body = StreamError ∨ body = Stall
  | MkdirError | RequestError | RequestTimeout => True
  end.





(** the sanitization in the order the specification words it: lowercase
    first, then replace what is not alphanumeric *)
Definition sanitize_as_specified (name : list N) : option (list N) :=
  replace_non_alnum_utf16 <$> toLowerCase_utf16 name.

(** what the sanitization of the code does to one code unit: a capital
    letter A-Z becomes the small one, a small letter a-z and a digit stay,
    anything else becomes an underscore *)
Definition sanitize_unit (u : N) : N :=
  if ((65 <=? u) && (u <=? 90))%N then (u + 32)%N
  else if ((97 <=? u) && (u <=? 122) || (48 <=? u) && (u <=? 57))%N then u
  else 95%N.


(** the number a string of decimal digits stands for *)
Fixpoint decimal_from (acc : N) (s : string) : N :=
  match s with
  | EmptyString => acc
  | String c t => decimal_from (10 * acc + (code c - 48))%N t
  end.

Definition decimal_value (s : string) : N := decimal_from 0 s.

(** what sanitization does to one character *)
Definition sanitize_char (c : ascii) : ascii :=
  if is_alnum c then lower_char c else "_"%char.

(** the first signal: the container is hidden and all results are shown *)
Definition signal1 (p : Page) : bool :=
  truthy_b (isPaginationHidden p) && allResultsOnOnePage p.

(** a product with its local path taken away *)
Definition clear_product (pr : ProductRef) : ProductRef :=
  {| name := name pr; icon := icon pr; iconAlt := iconAlt pr; iconLocal := None |}.

(** a record with its three kinds of local path taken away *)
Definition clear_locals (s : StoryRecord) : StoryRecord :=
  {| page := page s;
     positionOnPage := positionOnPage s;
     globalId := globalId s;
     title := title s;
     industry := industry s;
     storyUrl := storyUrl s;
     company := {| logo := logo (company s); logoLocal := None |};
     media := {| headerImage := headerImage (media s);
                 headerImageAlt := headerImageAlt (media s);
                 headerImageLocal := None |};
     microsoftProducts := clear_product <$> microsoftProducts s;
     extractedAt := extractedAt s |}.

(** every character of a string passes a test *)
Fixpoint all_chars (P : ascii → bool) (s : string) : bool :=
  match s with
  | EmptyString => true
  | String c t => P c && all_chars P t
  end.

(** lower-case letters, digits, the underscore and the dot *)
Definition is_name_char (c : ascii) : bool :=
  is_lower c || is_digit c || (code c =? 95)%N || (code c =? 46)%N.

(** the local paths a record may be given by the download phase *)
Definition logo_local (s : StoryRecord) : string :=
  "media/" +:+ generateImageFilename "" (globalId s) "logo"
                 (getImageExtension (logo (company s)) "").

Definition header_local (s : StoryRecord) : string :=
  "media/" +:+ generateImageFilename "" (globalId s) "header"
                 (getImageExtension (headerImage (media s)) "").

Definition icon_local (s : StoryRecord) (pr : ProductRef) : string :=
  "media/" +:+ iconFilename (globalId s) pr.

(** the file names the download phase may write for a record *)
Definition asset_names (s : StoryRecord) : list string :=
  generateImageFilename "" (globalId s) "logo" (getImageExtension (logo (company s)) "")
  :: generateImageFilename "" (globalId s) "header"
       (getImageExtension (headerImage (media s)) "")
  :: (iconFilename (globalId s) <$> microsoftProducts s).

(** a network on which no download succeeds and nothing is redirected *)
Definition all_fail (net : Net) : Prop :=
  ∀ k u, attempt_fails (net k u) ∧ is_redirect_attempt (net k u) = false.

(** a network that never answers 301 or 302 *)
Definition no_redirects (net : Net) : Prop :=
  ∀ k u, is_redirect_attempt (net k u) = false.

(** a local path is absent, or the remote URL is an inline-data URL *)
Definition absent_or_inline (local : option string) (url : string) : Prop :=
  local = None ∨ startsWith url "data:" = true.

(** the order of the records: by page, then by position on the page *)
Definition key_lt (a b : nat * nat) : Prop :=
  a.1 < b.1 ∨ (a.1 = b.1 ∧ a.2 < b.2).

(** what holds of the loop variables at every turn of the loop *)
Definition loop_shape (render : string → option Page) (now url : string)
    (st : LoopState) : Prop :=
  accumulated render now url st ∧
  visited_head st ∧
  (hasNextPage st = false → currentPage st ≤ MAX_PAGES) ∧
  StronglySorted key_lt (key <$> allStories st) ∧
  (∀ s, s ∈ allStories st → page s ∈ extractedPages st).

(** what holds of them when the loop has ended *)
Definition loop_result (st : LoopState) : Prop :=
  ∃ k, 1 ≤ k ≤ MAX_PAGES ∧
       renderedPages st = seq 1 k ∧
       k ≤ currentPage st ≤ S k ∧
       StronglySorted key_lt (key <$> allStories st) ∧
       (∀ s, s ∈ allStories st → 1 ≤ page s ≤ k ∧ 1 ≤ positionOnPage s).
(** the page announces 'Page k of n' and its pagination bar is not the
    hidden bar of a single page *)
Definition announces (p : Page) (k n : nat) : Prop :=
  signal1 p = false ∧
  paginationText p = "Page " +:+ pretty k +:+ " of " +:+ pretty n.

(** the records of the pages [first], [first + 1], ... ([count] pages) of a
    site, in order *)
Definition records_of_pages (render : string → option Page) (now url : string)
    (first count : nat) : list StoryRecord :=
  seq first count ≫= λ k,
    match render (pageUrl url k) with
    | Some p => extract_page now k p
    | None => []
    end.

(** the first character of a string is white space *)
Definition starts_white (s : string) : bool :=
  match s with
  | String c _ => is_white c
  | EmptyString => false
  end.

(** the last character of a string is white space *)
Fixpoint ends_white (s : string) : bool :=
  match s with
  | EmptyString => false
  | String c t => if is_empty t then is_white c else ends_white t
  end.

(** a text with no white space at either end, which [trim] leaves alone *)
Definition trimmed (s : string) : Prop :=
  starts_white s = false ∧ ends_white s = false ∧ trim s = s.

(** a string without a question mark *)
Definition no_question_mark (s : string) : bool :=
  all_chars (λ c, negb (code c =? 63)%N) s.

(** ** Example inputs *)

Module Demo.

Definition seed : string := "https://www.example.com/en-us/customers/search/?filters=ai".

Definition image (u : string) : ImgEl := {| src := Some u; alt := Some "image" |}.

Definition product (label iconUrl : string) : ProductEl :=
  {| productLabel := Some label; productIcon := Some (image iconUrl) |}.

(** a card with everything the extractor looks for *)
Definition story_card (titleText slug : string) : Card :=
  {| titleElement := Some titleText;
     industryElement := Some "Industry: Retail";
     anchors := ["/en-us/customers/"; "/en-us/customers/story/" +:+ slug];
     logoImg := Some (image ("https://cdn.example.com/logos/" +:+ slug +:+ ".png"));
     headerImg := Some (image ("https://cdn.example.com/headers/" +:+ slug +:+ ".JPG?w=400"));
     productElements := [product "Azure AI" "https://cdn.example.com/icons/azure.svg"] |}.

(** a listing page with a visible pagination bar and an announcement *)
Definition listing (cs : list Card) (announcement : string) : Page :=
  {| cards := cs;
     paginationContainer := Some ["pagination"];
     showValue := Some "3";
     showTotal := Some "6";
     paginationAnnouncement := Some announcement;
     rightArrow := Some {| nb_classList := ["arrow"]; nb_ariaDisabled := None |} |}.

(** two pages of three cards each *)
Definition site (u : string) : option Page :=
  if decide (u = seed) then
    Some (listing [story_card "Alpha" "alpha"; story_card "Beta" "beta";
                   story_card "Gamma" "gamma"] "Page 1 of 2")
  else if decide (u = seed +:+ "&page=2") then
    Some (listing [story_card "Delta" "delta"; story_card "Epsilon" "epsilon";
                   story_card "Zeta" "zeta"] "Page 2 of 2")
  else None.

(** one page whose only card has a title element holding white space *)
Definition blank_title_site (u : string) : option Page :=
  if decide (u = seed) then Some (listing [story_card "   " "untitled"] "Page 1 of 1")
  else None.

(** every request is answered 200 and the body arrives *)
Definition all_ok : Net := λ _ _, Response 200 None Finish.

Definition empty_disk : World :=
  {| files := ∅; dirs := ∅; requests := 0; waited := 0 |}.

Definition mediaDir : string := "/work/media".

End Demo.

Module DemoCap.

(** a site of nine pages with one card each; page k announces 'Page k of 9' *)
Definition nine_pages (u : string) : option Page :=
  (λ k, Demo.listing [Demo.story_card ("Story " +:+ pretty k) ("s" +:+ pretty k)]
                     ("Page " +:+ pretty k +:+ " of 9"))
    <$> List.find (λ k, bool_decide (u = pageUrl Demo.seed k)) (seq 1 9).

End DemoCap.

Module DemoInline.

Definition inline_logo : string := "data:image/png;base64,iVBORw0KGgo=".

(** one page, one card; the logo is an inline image, there is no header
    image and no product *)
Definition site (u : string) : option Page :=
  if decide (u = Demo.seed) then
    Some (Demo.listing
            [{| titleElement := Some "Alpha";
                industryElement := None;
                anchors := ["/en-us/customers/story/alpha"];
                logoImg := Some (Demo.image inline_logo);
                headerImg := None;
                productElements := [] |}]
            "Page 1 of 1")
  else None.

End DemoInline.

Module DemoStall.

(** every request is answered 200 and the body then stalls *)
Definition stalling : Net := λ _ _, Response 200 None Stall.

(** every request is answered 200 and the write stream fails *)
Definition failing_disk : Net := λ _ _, Response 200 None StreamError.

Definition logo_url : string := "https://cdn.example.com/logos/alpha.png".
Definition logo_path : string := "/work/media/p1_1_logo.png".

End DemoStall.

Module DemoRedirect.

(** the first request is redirected twice, the third is served *)
Definition moved_twice : Net := λ k u,
  if decide (u = "http://cdn.example.com/a.png") then
    Response 301 (Some "https://cdn.example.com/a.png") Finish
  else if decide (u = "https://cdn.example.com/a.png") then
    Response 302 (Some "https://img.example.com/a.png") Finish
  else Response 200 None Finish.


(** a 307 that names the place where the image is served *)
Definition temporary : Net := λ k u,
  if decide (u = "http://cdn.example.com/a.png") then
    Response 307 (Some "https://cdn.example.com/a.png") Finish
  else Response 200 None Finish.

(** every request is answered 200 and the peer then closes the connection
    in the middle of the body *)
Definition cut_short : Net := λ _ _, Response 200 None Cut.

End DemoRedirect.

Module DemoOracle.

Definition visible_bar (announcement : option string) (arrow : option NextButton) : Page :=
  {| cards := [Demo.story_card "Alpha" "alpha"];
     paginationContainer := Some ["pagination"];
     showValue := Some "12";
     showTotal := Some "60";
     paginationAnnouncement := announcement;
     rightArrow := arrow |}.

(** hidden container, 12 of 12 shown; the announcement would say continue *)
Definition hidden_all_shown : Page :=
  {| cards := [Demo.story_card "Alpha" "alpha"];
     paginationContainer := Some ["pagination"; "d-none"];
     showValue := Some "12";
     showTotal := Some "12";
     paginationAnnouncement := Some "Page 2 of 5";
     rightArrow := None |}.

Definition disabled_arrow : NextButton :=
  {| nb_classList := ["arrow"; "disabled"]; nb_ariaDisabled := None |}.

Definition enabled_arrow : NextButton :=
  {| nb_classList := ["arrow"]; nb_ariaDisabled := Some "false" |}.

(** every URL shows the first page of two again *)
Definition stale_site (u : string) : option Page :=
  Some (visible_bar (Some "Page 1 of 2") (Some enabled_arrow)).

End DemoOracle.

Module DemoDown.

(** every request fails before a response *)
Definition unreachable : Net := λ _ _, RequestError.

(** no request is answered before its timeout *)
Definition silent : Net := λ _ _, RequestTimeout.

End DemoDown.

Module DemoSmall.

(** one page with one card: a logo, no header image, one product with an
    icon; the next control is disabled *)
Definition site (u : string) : option Page :=
  Some {| cards :=
            [{| titleElement := Some "Alpha";
                industryElement := Some "Industry: Retail";
                anchors := ["/customers/story/alpha"];
                logoImg := Some {| src := Some "https://c.example/a.png"; alt := None |};
                headerImg := None;
                productElements :=
                  [{| productLabel := Some "Azure AI";
                      productIcon :=
                        Some {| src := Some "https://c.example/i.svg"; alt := None |} |}] |}];
          paginationContainer := None;
          showValue := None;
          showTotal := None;
          paginationAnnouncement := None;
          rightArrow := Some {| nb_classList := ["disabled"]; nb_ariaDisabled := None |} |}.

Definition seed : string := "https://s.example/?q".

Definition mediaDir : string := "/m".

End DemoSmall.

(** * Properties *)

(** ** Strings *)

Section StringFacts.

Lemma includes_empty_hay needle :
  includes "" needle = true → needle = "".
Proof. by destruct needle. Qed.

Lemma map_chars_length f s :
  String.length (map_chars f s) = String.length s.
Proof. induction s as [| c t IH]; simpl; [done | by rewrite IH]. Qed.

Lemma map_chars_get f s i :
  String.get i (map_chars f s) = f <$> String.get i s.
Proof.
  revert i. induction s as [| c t IH]; intros [| i]; simpl; auto.
Qed.

Lemma map_chars_compose f g s :
  map_chars f (map_chars g s) = map_chars (λ c, f (g c)) s.
Proof. induction s as [| c t IH]; simpl; [done | by rewrite IH]. Qed.

Lemma map_chars_ext f g s :
  (∀ c, f c = g c) → map_chars f s = map_chars g s.
Proof. intros E. induction s as [| c t IH]; simpl; [done | by rewrite E, IH]. Qed.

End StringFacts.

(** ** Record Extractor *)

Section ExtractorFacts.
Variable now : string.

Lemma storyLink_includes card href :
  storyLink card = Some href → includes href story_path = true.
Proof. unfold storyLink. intros H. by apply find_some in H as [_ H]. Qed.

Lemma storyLink_nonempty card href : storyLink card = Some href → href ≠ "".
Proof. intros H%storyLink_includes ->. discriminate. Qed.

(** a card without a title element, or without a story link, gives no record *)
Lemma extract_card_dropped pageNum index card :
  titleElement card = None ∨ storyLink card = None →
  extract_card now pageNum index card = None.
Proof.
  unfold extract_card. intros [-> | ->]; [done |]. by destruct (titleElement card).
Qed.

Lemma extract_card_fields pageNum index card s :
  extract_card now pageNum index card = Some s →
  page s = pageNum ∧ positionOnPage s = index + 1 ∧
  globalId s = make_globalId pageNum (index + 1) ∧
  (∃ t, titleElement card = Some t ∧ title s = trim t) ∧
  storyLink card = Some (storyUrl s).
Proof.
  unfold extract_card.
  destruct (titleElement card) as [t |]; [| done].
  destruct (storyLink card) as [href |]; [| done].
  intros [= <-]; simpl. eauto 10.
Qed.

(** every extracted record stems from one card of the page *)
Lemma extract_from_elem pageNum index cs s :
  s ∈ extract_from now pageNum index cs →
  ∃ j card, cs !! j = Some card ∧ extract_card now pageNum (index + j) card = Some s.
Proof.
  revert index. induction cs as [| card rest IH]; intros index; simpl.
  { by intros ?%elem_of_nil. }
  destruct (extract_card now pageNum index card) as [s0 |] eqn:E.
  - intros [-> | Hin]%elem_of_cons.
    + exists 0, card. by rewrite Nat.add_0_r.
    + destruct (IH _ Hin) as (j & c & Hj & Hc).
      exists (S j), c. split; [done |]. by rewrite Nat.add_succ_r.
  - intros Hin. destruct (IH _ Hin) as (j & c & Hj & Hc).
    exists (S j), c. split; [done |]. by rewrite Nat.add_succ_r.
Qed.

Lemma extract_from_position_gt pageNum index cs s :
  s ∈ extract_from now pageNum index cs → index < positionOnPage s.
Proof.
  intros (j & card & _ & Hc)%extract_from_elem.
  apply extract_card_fields in Hc as (_ & -> & _). lia.
Qed.

Lemma extract_from_positions_NoDup pageNum index cs :
  NoDup (positionOnPage <$> extract_from now pageNum index cs).
Proof.
  revert index. induction cs as [| card rest IH]; intros index; simpl.
  { constructor. }
  destruct (extract_card now pageNum index card) as [s0 |] eqn:E; [| apply IH].
  rewrite fmap_cons. constructor; [| apply IH].
  intros (s & Hpos & Hin)%list_elem_of_fmap.
  apply extract_from_position_gt in Hin.
  apply extract_card_fields in E as (_ & E & _). lia.
Qed.

Lemma extract_page_elem pageNum p s :
  s ∈ extract_page now pageNum p →
  page s = pageNum ∧
  globalId s = make_globalId (page s) (positionOnPage s) ∧
  ∃ card t, cards p !! (positionOnPage s - 1) = Some card ∧
            titleElement card = Some t ∧ title s = trim t ∧
            storyLink card = Some (storyUrl s).
Proof.
  intros (j & card & Hj & Hc)%extract_from_elem.
  apply extract_card_fields in Hc as (Hp & Hpos & Hid & (t & Ht & Htitle) & Hl).
  rewrite Hp, Hpos. simpl in *. split; [done |]. split; [done |].
  exists card, t. replace (j + 1 - 1) with j by lia. done.
Qed.

End ExtractorFacts.

(** ** Global identifiers *)

Section GlobalIdFacts.

Lemma app_cons c s t : String c s +:+ t = String c (s +:+ t).
Proof. reflexivity. Qed.

Lemma app_empty t : "" +:+ t = t.
Proof. reflexivity. Qed.

Lemma pretty_N_char_digit x : is_digit (pretty_N_char x) = true.
Proof. unfold pretty_N_char. by repeat case_match. Qed.

Lemma pretty_N_go_digits x s :
  all_digits s = true → all_digits (pretty_N_go x s) = true.
Proof.
  revert s. induction (N.lt_wf_0 x) as [x _ IH]; intros s Hs.
  destruct (decide (x = 0)%N) as [-> | Hx].
  - by rewrite pretty_N_go_0.
  - rewrite pretty_N_go_step by lia. apply IH.
    + apply N.div_lt; lia.
    + simpl. by rewrite pretty_N_char_digit.
Qed.

Lemma pretty_nat_digits (n : nat) : all_digits (pretty n) = true.
Proof.
  unfold pretty, pretty_nat, pretty, pretty_N.
  case_decide; [done |]. by apply pretty_N_go_digits.
Qed.

(** two digit strings followed by an underscore and anything: the strings
    split at the same place *)
Lemma digits_underscore_inj a a' b b' :
  all_digits a = true → all_digits a' = true →
  a +:+ "_" +:+ b = a' +:+ "_" +:+ b' → a = a' ∧ b = b'.
Proof.
  revert a'. induction a as [| c t IH]; intros [| c' t'] Ha Ha';
    rewrite ?app_cons, ?app_empty; intros Heq.
  - by simplify_eq.
  - by simplify_eq.
  - by simplify_eq.
  - injection Heq as -> Heq.
    simpl in Ha, Ha'. apply andb_prop in Ha as [_ Ha], Ha' as [_ Ha'].
    destruct (IH _ Ha Ha' Heq) as [-> ->]. done.
Qed.

Lemma make_globalId_inj p q i j :
  make_globalId p i = make_globalId q j → p = q ∧ i = j.
Proof.
  unfold make_globalId. rewrite !app_cons, !app_empty. intros [= Heq].
  apply digits_underscore_inj in Heq as [Hp Hi]; auto using pretty_nat_digits.
  split; by apply (inj pretty).
Qed.

End GlobalIdFacts.

(** ** The page loop *)

Section LoopFacts.
Variable render : string → option Page.
Variable now : string.
Variable url : string.

Lemma iteration_Next st st' :
  iteration render now url st = Next st' →
  ∃ p, render (pageUrl url (currentPage st)) = Some p ∧ cards p ≠ [] ∧
       allStories st' = allStories st ++ extract_page now (currentPage st) p ∧
       renderedPages st' = renderedPages st ++ [currentPage st] ∧
       extractedPages st' = extractedPages st ++ [currentPage st] ∧
       ((oracle p (currentPage st) = true ∧
         currentPage st' = S (currentPage st) ∧ hasNextPage st' = hasNextPage st)
        ∨ (oracle p (currentPage st) = false ∧
           currentPage st' = currentPage st ∧ hasNextPage st' = false)).
Proof.
  unfold iteration.
  destruct (render _) as [p |] eqn:Hr; [| done].
  destruct (cards p) as [| c cs] eqn:Hc; [done |].
  destruct (oracle p (currentPage st)) eqn:Ho; intros [= <-]; simpl;
    exists p; rewrite Hc; naive_solver.
Qed.

Lemma iteration_Break st st' :
  iteration render now url st = Break st' →
  ∃ p, render (pageUrl url (currentPage st)) = Some p ∧ cards p = [] ∧
       allStories st' = allStories st ∧
       currentPage st' = currentPage st ∧ hasNextPage st' = hasNextPage st ∧
       renderedPages st' = renderedPages st ++ [currentPage st] ∧
       extractedPages st' = extractedPages st.
Proof.
  unfold iteration.
  destruct (render _) as [p |] eqn:Hr; [| done].
  destruct (cards p) as [| c cs] eqn:Hc.
  - intros [= <-]; simpl. by exists p.
  - by destruct (oracle p (currentPage st)).
Qed.

(** the invariant rule of the [while] loop *)
Lemma page_loop_invariant (I : LoopState → Prop) :
  (∀ st st', hasNextPage st = true → currentPage st ≤ MAX_PAGES → I st →
             iteration render now url st = Next st' → I st') →
  (∀ st st', hasNextPage st = true → currentPage st ≤ MAX_PAGES → I st →
             iteration render now url st = Break st' → I st') →
  ∀ fuel st st', I st → page_loop render now url fuel st = Completed st' → I st'.
Proof.
  intros HN HB fuel. induction fuel as [| fuel IH]; intros st st' HI; simpl.
  - destruct (hasNextPage st && _); [done |]. by intros [= <-].
  - destruct (hasNextPage st && bool_decide (currentPage st ≤ MAX_PAGES)) eqn:Hc;
      [| by intros [= <-]].
    apply andb_prop in Hc as [Hh Hp%bool_decide_eq_true].
    destruct (iteration render now url st) as [st1 | st1 |] eqn:Hi; [| | done].
    + apply IH. by eapply HN.
    + intros [= <-]. by eapply HB.
Qed.

(** the loop ends within [remaining] iterations: it is never cut short *)
Lemma page_loop_bounded fuel st :
  remaining st ≤ fuel → page_loop render now url fuel st ≠ Unbounded.
Proof.
  revert st. induction fuel as [| fuel IH]; intros st Hr; simpl.
  - destruct (hasNextPage st && bool_decide (currentPage st ≤ MAX_PAGES)) eqn:Hc;
      [| done].
    apply andb_prop in Hc as [Hh Hp%bool_decide_eq_true].
    unfold remaining in Hr. rewrite Hh in Hr. lia.
  - destruct (hasNextPage st && bool_decide (currentPage st ≤ MAX_PAGES)) eqn:Hc;
      [| done].
    apply andb_prop in Hc as [Hh Hp%bool_decide_eq_true].
    destruct (iteration render now url st) as [st1 | st1 |] eqn:Hi; [| done..].
    apply IH. apply iteration_Next in Hi as (p & _ & _ & _ & _ & _ & Hd).
    unfold remaining in *. rewrite Hh in Hr.
    destruct Hd as [(_ & -> & ->) | (_ & _ & ->)]; [rewrite Hh |]; lia.
Qed.

Lemma page_loop_initial_bounded :
  page_loop render now url (S MAX_PAGES) initial ≠ Unbounded.
Proof. apply page_loop_bounded. unfold remaining, initial, MAX_PAGES; simpl. lia. Qed.

End LoopFacts.

(** ** What the loop accumulates *)

Section AccumulationFacts.
Variable render : string → option Page.
Variable now : string.
Variable url : string.

Lemma accumulated_initial : accumulated render now url initial.
Proof.
  split; [constructor |]. split; by intros ? ?%elem_of_nil || intros ? ? ?%elem_of_nil.
Qed.

Lemma extract_page_keys_NoDup n p : NoDup (key <$> extract_page now n p).
Proof.
  apply (NoDup_fmap_1 snd). rewrite <- list_fmap_compose.
  apply extract_from_positions_NoDup.
Qed.

Lemma accumulated_Next st st' :
  hasNextPage st = true → accumulated render now url st →
  iteration render now url st = Next st' → accumulated render now url st'.
Proof.
  intros Hh (Hnd & Hex & Hlt) (p & Hr & _ & Hall & _ & _ & Hd)%iteration_Next.
  specialize (Hlt Hh).
  assert (Hnew : ∀ s, s ∈ extract_page now (currentPage st) p → page s = currentPage st).
  { intros s Hs. by apply extract_page_elem in Hs as [? _]. }
  split; [| split].
  - rewrite Hall, fmap_app. apply NoDup_app. split; [done |].
    split; [| apply extract_page_keys_NoDup].
    intros k (s1 & -> & H1)%list_elem_of_fmap (s2 & Hk & H2)%list_elem_of_fmap.
    apply Hlt in H1. apply Hnew in H2. unfold key in Hk. simplify_eq. lia.
  - intros s. rewrite Hall. intros [Hs | Hs]%elem_of_app; [by apply Hex |].
    exists p. by rewrite (Hnew _ Hs).
  - intros Hh' s. rewrite Hall.
    destruct Hd as [(_ & -> & _) | (_ & _ & Hf)]; [| congruence].
    intros [Hs%Hlt | Hs%Hnew]%elem_of_app; lia.
Qed.

Lemma accumulated_Break st st' :
  accumulated render now url st → iteration render now url st = Break st' → accumulated render now url st'.
Proof.
  intros (Hnd & Hex & Hlt) (p & _ & _ & Hall & Hcp & Hh & _)%iteration_Break.
  unfold accumulated. rewrite Hall, Hcp, Hh. done.
Qed.

Lemma page_loop_accumulated fuel st :
  page_loop render now url fuel initial = Completed st → accumulated render now url st.
Proof.
  apply (page_loop_invariant render now url (accumulated render now url));
    eauto using accumulated_Next, accumulated_Break, accumulated_initial.
Qed.

End AccumulationFacts.

(** ** The download phase keeps what extraction fixed *)

Section DownloadFacts.
Variable net : Net.
Variable fuel : nat.
Variable mediaDir : string.

Lemma download_story_identity s w s' w' :
  download_story net fuel mediaDir s w = Completed (s', w') → identity s' = identity s.
Proof.
  unfold download_story.
  destruct (download_logo _ _ _ _ _) as [[c w1] | | |]; [| done..].
  destruct (download_header _ _ _ _ _) as [[m w2] | | |]; [| done..].
  destruct (download_icons _ _ _ _ _ _) as [[ps w3] | | |]; [| done..].
  by intros [= <- <-].
Qed.

Lemma download_all_identity l w l' w' :
  download_all net fuel mediaDir l w = Completed (l', w') →
  identity <$> l' = identity <$> l.
Proof.
  revert w l' w'. induction l as [| s l IH]; intros w l' w'; simpl.
  { by intros [= <- <-]. }
  destruct (download_story _ _ _ _ _) as [[s1 w1] | | |] eqn:Hs; [| done..].
  destruct (download_all _ _ _ _ _) as [[l1 w2] | | |] eqn:Hl; [| done..].
  intros [= <- <-]. rewrite !fmap_cons.
  f_equal; [by eapply download_story_identity | by eapply IH].
Qed.

Lemma download_all_length l w l' w' :
  download_all net fuel mediaDir l w = Completed (l', w') → length l' = length l.
Proof.
  intros H%download_all_identity.
  by rewrite <- (length_fmap identity l'), H, length_fmap.
Qed.

Lemma download_all_elem l w l' w' s' :
  download_all net fuel mediaDir l w = Completed (l', w') → s' ∈ l' →
  ∃ s, s ∈ l ∧ identity s' = identity s.
Proof.
  intros H%download_all_identity Hin.
  assert (Hi : identity s' ∈ identity <$> l').
  { apply list_elem_of_fmap. eauto. }
  rewrite H in Hi. apply list_elem_of_fmap in Hi as (s & ? & ?). eauto.
Qed.

End DownloadFacts.

(** ** The run, taken apart *)

Lemma run_Completed render net now finishedAt mediaDir fuel env w0 r :
  run render net now finishedAt mediaDir fuel env w0 = Completed r →
  ∃ url, env = Some url ∧ url ≠ "" ∧
    page_loop render now url (S MAX_PAGES) initial = Completed (loop r) ∧
    allStories (loop r) ≠ [] ∧
    download_all net fuel mediaDir (allStories (loop r))
      (ensure_dir mediaDir
         (wait (PAGE_WAIT * N.of_nat (length (renderedPages (loop r)))) w0))
      = Completed (stories (dataset r), world r) ∧
    metadata (dataset r) =
      {| totalPages := currentPage (loop r);
         totalStories := length (stories (dataset r));
         extractionDate := finishedAt;
         baseUrl := url;
         storiesPerPage := count_per_page (stories (dataset r)) |}.
Proof.
  unfold run. destruct env as [url |]; [| done].
  destruct (is_empty url) eqn:He; [done |].
  destruct (page_loop _ _ _ _ _) as [st | | |] eqn:Hl; [| done..].
  destruct (allStories st) as [| s0 l0] eqn:Ha; [done |].
  destruct (download_all _ _ _ _ _) as [[final w] | | |] eqn:Hd; [| done..].
  destruct (waited w <=? TEST_TIMEOUT)%N; [| done].
  intros [= <-]; simpl. exists url. rewrite Ha.
  split; [done |]. split; [by intros -> |]. done.
Qed.

(** ** C3: titles and story links of the emitted records *)

(** C3, as stated, fails: a card whose title element holds only white space
    passes the guard of the extractor and is emitted with an empty title. *)
Lemma C3_blank_title_counterexample :
  ∃ r, run Demo.blank_title_site Demo.all_ok "t0" "t1" Demo.mediaDir 4
           (Some Demo.seed) Demo.empty_disk = Completed r ∧
       ¬ (∀ s, s ∈ stories (dataset r) → title s ≠ "" ∧ storyUrl s ≠ "").
Proof.
  eexists. split; [vm_compute; reflexivity |].
  intros H. destruct (H _ (list_elem_of_here _ _)) as [Ht _]. by apply Ht.
Qed.

(** C3, amended: every record of the output dataset stems from a card of
    the page rendered for its page number, at its position, that has a title
    element and a story link; its storyUrl is that link's href, which
    contains the story path and so is not empty, and its title is the trimmed
    text of the title element. A card without a title element or without a
    story link yields no record. *)
Theorem C3_records_have_title_element_and_link
    render net now finishedAt mediaDir fuel env w0 r s :
  run render net now finishedAt mediaDir fuel env w0 = Completed r →
  s ∈ stories (dataset r) →
  storyUrl s ≠ "" ∧ includes (storyUrl s) story_path = true ∧
  (∃ url p card t,
      env = Some url ∧ render (pageUrl url (page s)) = Some p ∧
      cards p !! (positionOnPage s - 1) = Some card ∧
      titleElement card = Some t ∧ title s = trim t ∧
      storyLink card = Some (storyUrl s)) ∧
  (∀ pageNum index card,
      titleElement card = None ∨ storyLink card = None →
      extract_card now pageNum index card = None).
Proof.
  intros (url & -> & _ & Hloop & _ & Hdl & _)%run_Completed Hs.
  destruct (download_all_elem _ _ _ _ _ _ _ _ Hdl Hs) as (s0 & Hs0 & Hid).
  apply page_loop_accumulated in Hloop as (_ & Hex & _).
  destruct (Hex _ Hs0) as (p & Hr & Hp).
  apply extract_page_elem in Hp as (_ & _ & card & t & Hc & Ht & Htitle & Hl).
  unfold identity in Hid. injection Hid as Hpage Hpos _ Htt Hurl.
  rewrite Hpage, Hpos, Htt, Hurl.
  split; [by eapply storyLink_nonempty |].
  split; [by eapply storyLink_includes |].
  split; [by exists url, p, card, t |].
  apply extract_card_dropped.
Qed.

Lemma C3_records_have_title_element_and_link_witness :
  ∃ r s, run Demo.site Demo.all_ok "t0" "t1" Demo.mediaDir 4
             (Some Demo.seed) Demo.empty_disk = Completed r ∧
         s ∈ stories (dataset r) ∧
         storyUrl s ≠ "" ∧ title s = "Alpha".
Proof.
  eexists. eexists.
  split; [vm_compute; reflexivity |].
  split; [apply list_elem_of_here |].
  split; [| reflexivity].
  eapply (C3_records_have_title_element_and_link
            Demo.site Demo.all_ok "t0" "t1" Demo.mediaDir 4 (Some Demo.seed)
            Demo.empty_disk).
  - vm_compute; reflexivity.
  - apply list_elem_of_here.
Defined.

(** ** C7: global identifiers *)

(** C7: in the dataset of every completed run the globalId values are
    pairwise distinct; each is p{page}_{positionOnPage}, and no two records
    share a (page, positionOnPage) pair. *)
Theorem C7_globalIds_pairwise_distinct
    render net now finishedAt mediaDir fuel env w0 r :
  run render net now finishedAt mediaDir fuel env w0 = Completed r →
  NoDup (globalId <$> stories (dataset r)) ∧
  NoDup (key <$> stories (dataset r)) ∧
  ∀ s, s ∈ stories (dataset r) →
       globalId s = "p" +:+ pretty (page s) +:+ "_" +:+ pretty (positionOnPage s).
Proof.
  intros (url & -> & _ & Hloop & _ & Hdl & _)%run_Completed.
  apply page_loop_accumulated in Hloop as (Hnd & Hex & _).
  assert (Hgid : ∀ s, s ∈ allStories (loop r) →
                      globalId s = make_globalId (page s) (positionOnPage s)).
  { intros s (p & _ & Hp)%Hex. by apply extract_page_elem in Hp as (_ & ? & _). }
  pose proof (download_all_identity _ _ _ _ _ _ _ Hdl) as Hid.
  assert (Hkeys : key <$> stories (dataset r) = key <$> allStories (loop r)).
  { change key with ((λ t, (t.1.1.1.1, t.1.1.1.2)) ∘ identity).
    by rewrite !list_fmap_compose, Hid. }
  assert (Hgids : globalId <$> stories (dataset r) = globalId <$> allStories (loop r)).
  { change globalId with ((λ t : nat * nat * string * string * string, t.1.1.2) ∘ identity).
    by rewrite !list_fmap_compose, Hid. }
  split; [| split].
  - rewrite Hgids. apply NoDup_fmap_2_strong; [| by eapply NoDup_fmap_1].
    intros x y Hx Hy Heq. rewrite (Hgid _ Hx), (Hgid _ Hy) in Heq.
    apply make_globalId_inj in Heq as [Hp Hi].
    assert (Hk : key x = key y) by (unfold key; congruence).
    clear -Hnd Hx Hy Hk. induction (allStories (loop r)) as [| a l IH]; [by apply elem_of_nil in Hx |].
    rewrite fmap_cons in Hnd. apply NoDup_cons in Hnd as [Hna Hnd].
    apply elem_of_cons in Hx as [-> | Hx], Hy as [-> | Hy]; [done | | | by apply IH].
    + destruct Hna. apply list_elem_of_fmap. eauto.
    + destruct Hna. apply list_elem_of_fmap. eauto.
  - by rewrite Hkeys.
  - intros s Hs.
    destruct (download_all_elem _ _ _ _ _ _ _ _ Hdl Hs) as (s0 & Hs0 & Hi).
    unfold identity in Hi. injection Hi as Hpage Hpos Hg _ _.
    rewrite Hg, Hpage, Hpos. by apply Hgid.
Qed.

Lemma C7_globalIds_pairwise_distinct_witness :
  ∃ r, run Demo.site Demo.all_ok "t0" "t1" Demo.mediaDir 4
           (Some Demo.seed) Demo.empty_disk = Completed r ∧
       globalId <$> stories (dataset r) = ["p1_1"; "p1_2"; "p1_3"; "p2_1"; "p2_2"; "p2_3"] ∧
       NoDup (globalId <$> stories (dataset r)).
Proof.
  eexists. split; [vm_compute; reflexivity |]. split; [reflexivity |].
  eapply (C7_globalIds_pairwise_distinct
            Demo.site Demo.all_ok "t0" "t1" Demo.mediaDir 4 (Some Demo.seed)
            Demo.empty_disk).
  vm_compute; reflexivity.
Defined.

(** ** C8: the per-page counts of the metadata *)

Section CountFacts.

Lemma sum_values_empty : sum_values ∅ = 0.
Proof. apply map_fold_empty. Qed.

Lemma sum_values_insert_fresh (m : gmap string nat) k v :
  m !! k = None → sum_values (<[k := v]> m) = v + sum_values m.
Proof.
  intros Hk. unfold sum_values. rewrite map_fold_insert_L; [done | | done].
  intros; lia.
Qed.

Lemma sum_values_lookup (m : gmap string nat) k v :
  m !! k = Some v → sum_values m = v + sum_values (delete k m).
Proof.
  intros Hk. unfold sum_values. erewrite map_fold_delete_L; [done | | done].
  intros; lia.
Qed.

Lemma sum_values_count_story acc s :
  sum_values (count_story acc s) = S (sum_values acc).
Proof.
  unfold count_story. set (k := pretty (page s)).
  destruct (acc !! k) as [v |] eqn:Hk; simpl.
  - rewrite <- insert_delete_eq, sum_values_insert_fresh by apply lookup_delete_eq.
    rewrite (sum_values_lookup acc k v Hk). lia.
  - rewrite sum_values_insert_fresh by done. lia.
Qed.

Lemma sum_values_foldl l acc :
  sum_values (foldl count_story acc l) = sum_values acc + length l.
Proof.
  revert acc. induction l as [| s l IH]; intros acc; simpl; [lia |].
  rewrite IH, sum_values_count_story. lia.
Qed.

Lemma sum_values_count_per_page l : sum_values (count_per_page l) = length l.
Proof. unfold count_per_page. by rewrite sum_values_foldl, sum_values_empty. Qed.

(** the entry of a page is the number of records found on it *)
Lemma count_story_lookup acc s n :
  default 0 (count_story acc s !! pretty n)
  = default 0 (acc !! pretty n) + (if decide (page s = n) then 1 else 0).
Proof.
  unfold count_story. case_decide as Hn.
  - subst n. by rewrite lookup_insert_eq.
  - rewrite lookup_insert_ne; [lia |]. intros E. by apply (inj pretty) in E.
Qed.

Lemma foldl_count_lookup l acc n :
  default 0 (foldl count_story acc l !! pretty n)
  = default 0 (acc !! pretty n) + length (filter (λ s, page s = n) l).
Proof.
  revert acc. induction l as [| s l IH]; intros acc; simpl; [lia |].
  rewrite IH, count_story_lookup, filter_cons. case_decide; simpl; lia.
Qed.

Lemma count_per_page_lookup l n :
  default 0 (count_per_page l !! pretty n) = length (filter (λ s, page s = n) l).
Proof. unfold count_per_page. by rewrite foldl_count_lookup, lookup_empty. Qed.

End CountFacts.

(** C8: in the metadata of every completed run the values of storiesPerPage
    sum to totalStories, totalStories is the number of records of the
    dataset, and the entry of each page number is the number of records
    found on that page. *)
Theorem C8_storiesPerPage_sums_to_totalStories
    render net now finishedAt mediaDir fuel env w0 r :
  run render net now finishedAt mediaDir fuel env w0 = Completed r →
  let md := metadata (dataset r) in
  sum_values (storiesPerPage md) = totalStories md ∧
  totalStories md = length (stories (dataset r)) ∧
  ∀ n, default 0 (storiesPerPage md !! pretty n)
       = length (filter (λ s, page s = n) (stories (dataset r))).
Proof.
  intros (url & _ & _ & _ & _ & _ & ->)%run_Completed; simpl.
  split; [apply sum_values_count_per_page |]. split; [done |].
  apply count_per_page_lookup.
Qed.

Lemma C8_storiesPerPage_sums_to_totalStories_witness :
  ∃ r, run Demo.site Demo.all_ok "t0" "t1" Demo.mediaDir 4
           (Some Demo.seed) Demo.empty_disk = Completed r ∧
       totalStories (metadata (dataset r)) = 6 ∧
       sum_values (storiesPerPage (metadata (dataset r))) = totalStories (metadata (dataset r)).
Proof.
  eexists. split; [vm_compute; reflexivity |]. split; [reflexivity |].
  eapply (C8_storiesPerPage_sums_to_totalStories
            Demo.site Demo.all_ok "t0" "t1" Demo.mediaDir 4 (Some Demo.seed)
            Demo.empty_disk).
  vm_compute; reflexivity.
Defined.

(** ** C2: totalPages against the pages visited *)

Section VisitedFacts.
Variable render : string → option Page.
Variable now : string.
Variable url : string.

(** a rule for the loop with a postcondition of its own for [break] *)
Lemma page_loop_rule (I Q : LoopState → Prop) :
  (∀ st st', hasNextPage st = true → currentPage st ≤ MAX_PAGES → I st →
             iteration render now url st = Next st' → I st') →
  (∀ st st', hasNextPage st = true → currentPage st ≤ MAX_PAGES → I st →
             iteration render now url st = Break st' → Q st') →
  (∀ st, I st → hasNextPage st && bool_decide (currentPage st ≤ MAX_PAGES) = false → Q st) →
  ∀ fuel st st', I st → page_loop render now url fuel st = Completed st' → Q st'.
Proof.
  intros HN HB HE fuel. induction fuel as [| fuel IH]; intros st st' HI; simpl.
  - destruct (hasNextPage st && _) eqn:Hc; [done |]. intros [= <-]. by apply HE.
  - destruct (hasNextPage st && bool_decide (currentPage st ≤ MAX_PAGES)) eqn:Hc;
      [| intros [= <-]; by apply HE].
    apply andb_prop in Hc as [Hh Hp%bool_decide_eq_true].
    destruct (iteration render now url st) as [st1 | st1 |] eqn:Hi; [| | done].
    + apply IH. by eapply HN.
    + intros [= <-]. by eapply HB.
Qed.

Lemma seq_1_snoc n : 1 ≤ n → seq 1 (n - 1) ++ [n] = seq 1 n.
Proof.
  intros Hn. replace n with (S (n - 1)) at 2 3 by lia.
  rewrite seq_S. do 2 f_equal. 
Qed.

Lemma visited_head_Next st st' :
  hasNextPage st = true → currentPage st ≤ MAX_PAGES → visited_head st →
  iteration render now url st = Next st' → visited_head st'.
Proof.
  intros Hh Hle ([H1 H6] & He & Hr) (p & _ & _ & _ & Hr' & He' & Hd)%iteration_Next.
  rewrite Hh in Hr. unfold visited_head.
  rewrite Hr', He', He, Hr, seq_1_snoc by done.
  destruct Hd as [(_ & -> & ->) | (_ & -> & ->)].
  - rewrite Hh. replace (S (currentPage st) - 1) with (currentPage st) by lia.
    split; [lia | done].
  - split; [lia | done].
Qed.

Lemma visited_head_Break st st' :
  hasNextPage st = true → currentPage st ≤ MAX_PAGES → visited_head st →
  iteration render now url st = Break st' → stopped_by_empty_page st'.
Proof.
  intros Hh Hle ([H1 H6] & He & Hr)
    (p & _ & _ & _ & Hcp & Hh' & Hr' & He')%iteration_Break.
  rewrite Hh in Hr. unfold stopped_by_empty_page.
  rewrite Hh', Hcp, Hr', He', He, Hr, seq_1_snoc by done. done.
Qed.

(** how a completed loop relates its counter to the pages it visited *)
Lemma page_loop_visited fuel st :
  page_loop render now url fuel initial = Completed st →
  stopped_by_oracle st ∨ stopped_by_empty_page st ∨ stopped_by_cap st.
Proof.
  intros Hl.
  refine (page_loop_rule visited_head
            (λ s, stopped_by_oracle s ∨ stopped_by_empty_page s ∨ stopped_by_cap s)
            _ _ _ fuel initial st _ Hl).
  - apply visited_head_Next.
  - intros. right; left. by eapply visited_head_Break.
  - intros s ([H1 H6] & He & Hr) Hc.
    destruct (hasNextPage s) eqn:Hh; simpl in Hc.
    + apply bool_decide_eq_false in Hc. right; right.
      assert (currentPage s = S MAX_PAGES) as Hcp by lia.
      unfold stopped_by_cap. rewrite He, Hr, Hcp. done.
    + left. unfold stopped_by_oracle. by rewrite He, Hr.
  - unfold visited_head, initial, MAX_PAGES; simpl. split; [lia | done].
Qed.

End VisitedFacts.

(** C2, at the failing input: on a site of nine one-card pages the loop is
    ended by the cap after pages 1 to 5 were rendered and extracted, and the
    metadata gives totalPages = 6. *)
Theorem C2_totalPages_off_by_one_at_cap :
  ∃ r, run DemoCap.nine_pages Demo.all_ok "t0" "t1" Demo.mediaDir 4
           (Some Demo.seed) Demo.empty_disk = Completed r ∧
       renderedPages (loop r) = [1; 2; 3; 4; 5] ∧
       extractedPages (loop r) = [1; 2; 3; 4; 5] ∧
       totalPages (metadata (dataset r)) = 6.
Proof. eexists. split; [vm_compute; reflexivity |]. done. Qed.

(** The same for every run the cap ends: totalPages is one more than the
    number of pages rendered and extracted. *)
Lemma totalPages_when_capped render net now finishedAt mediaDir fuel env w0 r :
  run render net now finishedAt mediaDir fuel env w0 = Completed r →
  hasNextPage (loop r) = true → currentPage (loop r) > MAX_PAGES →
  totalPages (metadata (dataset r)) = S (length (extractedPages (loop r))) ∧
  totalPages (metadata (dataset r)) = S (length (renderedPages (loop r))).
Proof.
  intros (url & _ & _ & Hloop & _ & _ & ->)%run_Completed Hh Hcp; simpl.
  apply page_loop_visited in Hloop
    as [(Hf & _) | [(_ & Hle & _) | (_ & Hc & Hr & He)]]; [congruence | lia |].
  by rewrite Hr, He, Hc, length_seq.
Qed.

(** When the oracle ends the loop, totalPages is the number of pages
    rendered and extracted. *)
Lemma totalPages_when_oracle_stops render net now finishedAt mediaDir fuel env w0 r :
  run render net now finishedAt mediaDir fuel env w0 = Completed r →
  hasNextPage (loop r) = false →
  totalPages (metadata (dataset r)) = length (extractedPages (loop r)) ∧
  extractedPages (loop r) = renderedPages (loop r).
Proof.
  intros (url & _ & _ & Hloop & _ & _ & ->)%run_Completed Hh; simpl.
  apply page_loop_visited in Hloop
    as [(_ & Hr & He) | [(Ht & _) | (Ht & _)]]; [| congruence..].
  by rewrite Hr, He, length_seq.
Qed.

(** ** C1: the local path fields after the download phase *)

(** C1, at the failing input: the logo of the only card is a data URL.
    [downloadImage] resolves with null without a request and without a file,
    and the loop still stores a local path in [logoLocal]. *)
Theorem C1_inline_logo_gets_local_path :
  ∃ r s, run DemoInline.site Demo.all_ok "t0" "t1" Demo.mediaDir 4
             (Some Demo.seed) Demo.empty_disk = Completed r ∧
         stories (dataset r) = [s] ∧
         logo (company s) = DemoInline.inline_logo ∧
         logoLocal (company s) = Some "media/p1_1_logo.jpg" ∧
         requests (world r) = 0 ∧
         files (world r) !! (Demo.mediaDir +:+ "/p1_1_logo.jpg") = None.
Proof. do 2 eexists. split; [vm_compute; reflexivity |]. done. Qed.

(** The other half of C1 holds: a rejected download leaves the field as it
    was, and a download that resolves with a path has written the file. *)
Lemma rejected_fetch_keeps_field value old e :
  settle_local (Rejected e) value old = old.
Proof. reflexivity. Qed.

Lemma resolved_path_has_file net fuel url path w p w' :
  downloadImage net fuel url path w = Some (Resolved (Some p), w') →
  p = path ∧ files w' !! path = Some Complete.
Proof.
  revert url w. induction fuel as [| fuel IH]; intros [u |] w; simpl; try done.
  - by destruct (is_empty u || startsWith u "data:").
  - destruct (is_empty u || startsWith u "data:"); [done |].
    destruct (net (requests w) u) as [| | | status loc body]; [done.. |].
    destruct (status =? 200)%Z.
    + destruct body; intros [= <- <-]; simpl. by rewrite lookup_insert_eq.
    + destruct (is_redirect status); [apply IH | done].
Qed.

(** ** C5: what a failed download leaves on the disk *)

(** C5, at the failing input: the server answers 200 and the transfer
    stalls until the timeout. The promise is rejected with the timeout error
    and the file that [createWriteStream] opened stays on the disk, partly
    written; the error handler of the write stream, on the same URL, removes
    it. *)
Theorem C5_timeout_leaves_partial_file :
  (∃ w, downloadImage DemoStall.stalling 4 (Some DemoStall.logo_url)
                      DemoStall.logo_path Demo.empty_disk
        = Some (Rejected DownloadTimeout, w) ∧
        files w !! DemoStall.logo_path = Some Partial) ∧
  (∃ w, downloadImage DemoStall.failing_disk 4 (Some DemoStall.logo_url)
                      DemoStall.logo_path Demo.empty_disk
        = Some (Rejected WriteError, w) ∧
        files w !! DemoStall.logo_path = None).
Proof. split; eexists; (split; [vm_compute; reflexivity | done]). Qed.

(** ** C4: redirects, success and failure of a download *)

Section FetcherFacts.
Variable net : Net.
Variable localPath : string.

Lemma requests_ensure_dir d w : requests (ensure_dir d w) = requests w.
Proof. unfold ensure_dir. by destruct (existsSync d w). Qed.

Lemma files_ensure_dir d w : files (ensure_dir d w) = files w.
Proof. unfold ensure_dir. by destruct (existsSync d w). Qed.

Lemma waited_ensure_dir d w : waited (ensure_dir d w) = waited w.
Proof. unfold ensure_dir. by destruct (existsSync d w). Qed.

Lemma requests_attempted w : requests (attempted localPath w) = S (requests w).
Proof. unfold attempted. by rewrite requests_ensure_dir. Qed.

Lemma files_attempted w : files (attempted localPath w) = files w.
Proof. unfold attempted. by rewrite files_ensure_dir. Qed.


Lemma files_iter_attempted n w :
  files (Nat.iter n (attempted localPath) w) = files w.
Proof.
  induction n as [| n IH]; simpl; [done | by rewrite files_attempted, IH].
Qed.

Lemma redirect_not_200 status : is_redirect status = true → (status =? 200)%Z = false.
Proof.
  unfold is_redirect. intros [Hr | Hr]%orb_prop; apply Z.eqb_eq in Hr; by subst.
Qed.


End FetcherFacts.


(** what the code does on the two inputs: the 307 is answered by a
    rejection after one request, and a body that the peer cuts short leaves
    a promise that never settles and a partly written file *)
Example unfollowed_redirect_and_cut_body :
  (∃ w, downloadImage DemoRedirect.temporary 4 (Some "http://cdn.example.com/a.png")
                      "/work/media/p1_1_logo.png" Demo.empty_disk
        = Some (Rejected (HttpStatus 307), w) ∧ requests w = 1) ∧
  (∃ w, downloadImage DemoRedirect.cut_short 4 (Some "https://cdn.example.com/a.png")
                      "/work/media/p1_1_logo.png" Demo.empty_disk
        = Some (Pending, w) ∧
        files w !! "/work/media/p1_1_logo.png" = Some Partial).
Proof. split; eexists; (split; [vm_compute; reflexivity | done]). Qed.



(** A redirect that names no URL, or one that is skipped, resolves with null
    and writes no file; the directory of the destination has been made. *)
Lemma redirect_to_nothing_resolves_null (net : Net) fuel url path w status location body :
  fetchable url →
  net (requests w) url = Response status location body →
  is_redirect status = true →
  match location with
  | None => True
  | Some l => is_empty l || startsWith l "data:" = true
  end →
  downloadImage net (S fuel) (Some url) path w = Some (Resolved None, attempted path w).
Proof.
  intros Hf Hn Hr Hl. simpl. rewrite Hf, Hn, (redirect_not_200 _ Hr), Hr.
  destruct location as [l |]; destruct fuel; simpl; try done;
    by rewrite Hl.
Qed.

(** ** The sanitized product name *)

Section SanitizeFacts.

Lemma sanitize_char_code c :
  lower_char (if is_alnum c then c else "_"%char) = sanitize_char c.
Proof. unfold sanitize_char. by destruct (is_alnum c). Qed.

Lemma productSafeName_chars name :
  productSafeName name = map_chars sanitize_char name.
Proof.
  unfold productSafeName, toLowerCase, replace_non_alnum.
  rewrite map_chars_compose. apply map_chars_ext, sanitize_char_code.
Qed.

(** a code unit of the Latin-1 range is the code of a character *)
Lemma unit_is_code u : (u < 256)%N → ∃ c, u = code c.
Proof. intros Hu. exists (ascii_of_N u). unfold code. by rewrite N_ascii_embedding. Qed.

Lemma sanitize_unit_code c : sanitize_unit (code c) = code (sanitize_char c).
Proof. by destruct c as [[] [] [] [] [] [] [] []]. Qed.

Lemma sanitize_unit_high u : (256 ≤ u)%N → sanitize_unit u = 95%N.
Proof.
  intros Hu. unfold sanitize_unit.
  destruct (N.leb_spec u 90), (N.leb_spec u 122), (N.leb_spec u 57); try lia.
  all: by rewrite ?andb_false_r.
Qed.

Lemma is_alnum_unit_high u : (256 ≤ u)%N → is_alnum_unit u = false.
Proof.
  intros Hu. unfold is_alnum_unit.
  destruct (N.leb_spec u 90), (N.leb_spec u 122), (N.leb_spec u 57); try lia.
  all: by rewrite ?andb_false_r.
Qed.

(** replace, then lowercase, on one code unit *)
Lemma lower_replaced_unit u :
  lower_unit (if is_alnum_unit u then u else 95%N) = Some [sanitize_unit u].
Proof.
  destruct (N.lt_ge_cases u 256) as [Hu | Hu].
  - destruct (unit_is_code u Hu) as [c ->].
    by destruct c as [[] [] [] [] [] [] [] []].
  - by rewrite is_alnum_unit_high, sanitize_unit_high.
Qed.



Lemma productSafeName_utf16_units name :
  productSafeName_utf16 name = Some (sanitize_unit <$> name).
Proof.
  unfold productSafeName_utf16. induction name as [| u t IH]; [done |].
  simpl. rewrite lower_replaced_unit. simpl in IH. by rewrite IH.
Qed.

Lemma units_map_chars s :
  units (map_chars sanitize_char s) = sanitize_unit <$> units s.
Proof.
  induction s as [| c t IH]; [done |].
  simpl. by rewrite IH, sanitize_unit_code.
Qed.

Lemma productSafeName_utf16_latin1 s :
  productSafeName_utf16 (units s) = Some (units (productSafeName s)).
Proof.
  by rewrite productSafeName_utf16_units, productSafeName_chars, units_map_chars.
Qed.


End SanitizeFacts.

(** ** C6 and C10: the Pagination Oracle *)

Section OracleFacts.

Lemma digit_not_white c : is_digit c = true → is_white c = false.
Proof. by destruct c as [[] [] [] [] [] [] [] []]. Qed.

Lemma digit_eqb_other c c0 :
  is_digit c = true → is_digit c0 = false → (c =? c0)%char = false.
Proof. intros Hc Hc0. destruct (Ascii.eqb_spec c c0); [congruence | done]. Qed.

Lemma digit_of_decimal c : is_digit c = true → digit_of 10 c = Some (code c - 48)%N.
Proof. by destruct c as [[] [] [] [] [] [] [] []]. Qed.

Lemma parse_digits_Some radix s acc :
  ∃ n, parse_digits radix s (Some acc) = Some n.
Proof.
  revert acc. induction s as [| c t IH]; intros acc; simpl; [eauto |].
  destruct (digit_of radix c); eauto.
Qed.

Lemma prefix_cons a p b s :
  String.prefix (String a p) (String b s)
  = if ascii_dec a b then String.prefix p s else false.
Proof. reflexivity. Qed.

Lemma startsWith_digits_no_hex_prefix s c0 :
  all_digits s = true → is_digit c0 = false →
  startsWith s (String "0" (String c0 "")) = false.
Proof.
  intros Hs Hc0. unfold startsWith.
  destruct s as [| c [| c2 t]]; [done | |]; rewrite prefix_cons.
  - by destruct (ascii_dec "0" c).
  - destruct (ascii_dec "0" c); [| done]. rewrite prefix_cons.
    destruct (ascii_dec c0 c2) as [<- |]; [| done].
    simpl in Hs. rewrite Hc0 in Hs. by destruct (is_digit c).
Qed.

(** the digits that [parseInt] reads are the decimal value of the group *)
Lemma parse_digits_decimal s a :
  all_digits s = true → parse_digits 10 s (Some a) = Some (decimal_from a s).
Proof.
  revert a. induction s as [| c t IH]; intros a Hs; [done |].
  simpl in Hs. apply andb_prop in Hs as [Hc Ht].
  simpl. rewrite (digit_of_decimal c Hc). by apply IH.
Qed.

(** [parseInt] of a group matched by one or more digits: the double nearest
    to the decimal value of the group *)
Lemma parseInt_digits x :
  all_digits x = true → x ≠ "" →
  parseInt x = Some (Z.of_N (to_double (decimal_value x))).
Proof.
  intros Hx Hne. destruct x as [| c t]; [done |].
  pose proof Hx as Hx'. simpl in Hx'. apply andb_prop in Hx' as [Hc Ht].
  unfold parseInt. simpl trimStart. rewrite (digit_not_white c Hc).
  rewrite !(digit_eqb_other c) by done.
  rewrite !startsWith_digits_no_hex_prefix by done. simpl orb. cbv iota beta.
  simpl parse_digits. rewrite (digit_of_decimal c Hc).
  by rewrite (parse_digits_decimal t _ Ht).
Qed.

(** a number below [2^53] is a double *)
Lemma to_double_small n : (n < 2 ^ 53)%N → to_double n = n.
Proof.
  intros Hn. unfold to_double.
  destruct (N.leb_spec (N.size n) 53) as [| Hs]; [done |].
  pose proof (N.size_le n) as Hle.
  assert (2 ^ 54 ≤ 2 ^ N.size n)%N by (apply N.pow_le_mono_r; lia).
  change (2 ^ 54)%N with (2 * 2 ^ 53)%N in *.
  rewrite N.succ_double_spec in Hle. lia.
Qed.

(** from [2^53] on a number is rounded to a double that is [2^53] at
    least *)
Lemma to_double_large n : (2 ^ 53 ≤ n)%N → (2 ^ 53 ≤ to_double n)%N.
Proof.
  intros Hn. unfold to_double.
  destruct (N.leb_spec (N.size n) 53) as [| Hs]; [done |].
  set (e := (N.size n - 53)%N).
  assert (He : (1 ≤ e)%N) by (unfold e; lia).
  assert (Hq : (2 ^ 52 ≤ N.shiftr n e)%N).
  { rewrite N.shiftr_div_pow2.
    pose proof (N.size_le n) as Hle. rewrite N.succ_double_spec in Hle.
    replace (N.size n) with (N.succ (52 + e))%N in Hle by (unfold e; lia).
    rewrite N.pow_succ_r', N.pow_add_r in Hle.
    apply N.div_le_lower_bound; [apply N.pow_nonzero; lia | lia]. }
  set (q := N.shiftr n e) in *.
  match goal with
  | |- context [N.shiftl ?k e] => set (q' := k)
  end.
  assert (Hq' : (q ≤ q')%N).
  { unfold q'. repeat match goal with |- context [if ?b then _ else _] => destruct b end; lia. }
  assert (Hv : (2 ^ 53 ≤ N.shiftl q' e)%N).
  { rewrite N.shiftl_mul_pow2.
    assert (2 ^ 1 ≤ 2 ^ e)%N by (apply N.pow_le_mono_r; lia).
    change (2 ^ 53)%N with (2 ^ 52 * 2 ^ 1)%N.
    apply N.mul_le_mono; lia. }
  destruct (infinity <=? N.shiftl q' e)%N; [| done].
  unfold infinity. apply N.pow_le_mono_r; lia.
Qed.

Lemma span_digits_digits s : all_digits (span_digits s).1 = true.
Proof.
  induction s as [| c t IH]; simpl; [done |].
  destruct (is_digit c) eqn:Hc; [| done].
  destruct (span_digits t) as [d r]; simpl in *. by rewrite Hc.
Qed.

Lemma match_page_of_here_digits s x y :
  match_page_of_here s = Some (x, y) →
  (all_digits x = true ∧ x ≠ "") ∧ (all_digits y = true ∧ y ≠ "").
Proof.
  unfold match_page_of_here.
  destruct (strip_prefix "Page " s) as [r1 |]; [| done].
  pose proof (span_digits_digits r1) as Hx.
  destruct (span_digits r1) as [x' r2]; simpl in Hx.
  destruct (is_empty x') eqn:Hex; [done |].
  destruct (strip_prefix " of " r2) as [r3 |]; [| done].
  pose proof (span_digits_digits r3) as Hy.
  destruct (span_digits r3) as [y' r4]; simpl in Hy.
  destruct (is_empty y') eqn:Hey; [done |].
  intros [= <- <-]. split; (split; [done |]); by intros ->.
Qed.

Lemma match_page_of_digits s x y :
  match_page_of s = Some (x, y) →
  (all_digits x = true ∧ x ≠ "") ∧ (all_digits y = true ∧ y ≠ "").
Proof.
  induction s as [| c t IH]; [done |].
  change (match_page_of (String c t))
    with (match match_page_of_here (String c t) with
          | Some m => Some m
          | None => match_page_of t
          end).
  destruct (match_page_of_here (String c t)) as [m |] eqn:Hm; [| done].
  intros [= ->]. by apply match_page_of_here_digits in Hm.
Qed.

(** the first signal, on the document *)
Lemma signal1_true p :
  signal1 p = true ↔
  ∃ cl n, paginationContainer p = Some cl ∧ "d-none" ∈ cl ∧
          currentShowing p = Some n ∧ totalResults p = Some n ∧ (0 < n)%Z.
Proof.
  unfold signal1, isPaginationHidden, allResultsOnOnePage, classList_contains.
  destruct (paginationContainer p) as [cl |]; simpl.
  - destruct (currentShowing p) as [a |], (totalResults p) as [b |]; simpl.
    + rewrite !andb_true_iff, bool_decide_eq_true, Z.eqb_eq, Z.ltb_lt. split.
      * intros (Hcl & -> & Hb). by exists cl, b.
      * intros (cl' & n & [= <-] & Hcl & [= ->] & [= ->] & Hn). done.
    + rewrite andb_false_r. split; [done | by intros (? & ? & _ & _ & _ & ? & _)].
    + rewrite andb_false_r. split; [done | by intros (? & ? & _ & _ & ? & _)].
    + rewrite andb_false_r. split; [done | by intros (? & ? & _ & _ & ? & _)].
  - split; [done | by intros (? & ? & ? & _)].
Qed.

Lemma oracle_signal1 p cp : signal1 p = true → oracle p cp = false.
Proof. unfold oracle, paginationInfo, signal1. by intros ->. Qed.

Lemma oracle_announcement p cp x y X Y :
  signal1 p = false →
  match_page_of (paginationText p) = Some (x, y) →
  parseInt x = Some (Z.of_N X) → parseInt y = Some (Z.of_N Y) →
  pi_hasNext (paginationInfo p) = bool_decide (X < Y)%N ∧
  (oracle p cp = true ↔ (X < Y)%N ∧ Y ≠ 1%N ∧ (N.of_nat cp < Y)%N).
Proof.
  unfold oracle, paginationInfo, signal1. intros -> -> -> ->. simpl.
  split.
  - destruct (Z.ltb_spec (Z.of_N X) (Z.of_N Y)); symmetry;
      [apply bool_decide_eq_true | apply bool_decide_eq_false]; lia.
  - unfold decision; simpl.
    case_bool_decide as H1; simpl.
    { split; [done |]. intros (_ & Hy & _). destruct Hy. injection H1. lia. }
    destruct (Z.eqb_spec (Z.of_N Y) 0); simpl.
    { destruct (Z.ltb_spec (Z.of_N X) (Z.of_N Y)); simpl; [lia |].
      split; [done | lia]. }
    destruct (Z.leb_spec (Z.of_N Y) (Z.of_nat cp)); simpl.
    { split; [done | lia]. }
    destruct (Z.ltb_spec (Z.of_N X) (Z.of_N Y)); simpl.
    + split; [| done]. intros _. split; [lia |]. split; [| lia].
      intros ->. by destruct H1.
    + split; [done | lia].
Qed.

Lemma oracle_fallback p cp :
  signal1 p = false → match_page_of (paginationText p) = None →
  pi_hasNext (paginationInfo p) = negb (truthy_b (nextButtonDisabled p)) ∧
  oracle p cp = negb (truthy_b (nextButtonDisabled p)).
Proof.
  unfold oracle, paginationInfo, signal1. intros -> ->. simpl.
  split; [done |]. unfold decision; simpl.
  by destruct (truthy_b (nextButtonDisabled p)).
Qed.

End OracleFacts.

(** C6, as stated, fails in part (b): with the announcement 'Page 1 of 2'
    read while the loop counter is 2, X < Y holds and the decision is stop. *)
Lemma C6_announcement_rule_counterexample :
  ¬ (∀ p cp x y X Y,
       signal1 p = false →
       match_page_of (paginationText p) = Some (x, y) →
       parseInt x = Some X → parseInt y = Some Y →
       (oracle p cp = true ↔ (X < Y)%Z)).
Proof.
  intros H.
  destruct (H (DemoOracle.visible_bar (Some "Page 1 of 2")
                                      (Some DemoOracle.enabled_arrow))
              2 "1" "2" 1%Z 2%Z eq_refl eq_refl eq_refl eq_refl) as [_ Hc].
  assert (Hlt : (1 < 2)%Z) by lia.
  apply Hc in Hlt. vm_compute in Hlt. discriminate.
Qed.

(** the loop on a site that shows 'Page 1 of 2' for every URL: it stops
    after the second page *)
Example stale_announcement_run :
  ∃ st, page_loop DemoOracle.stale_site "t0" Demo.seed (S MAX_PAGES) initial
        = Completed st ∧
        renderedPages st = [1; 2] ∧ hasNextPage st = false.
Proof. eexists. split; [vm_compute; reflexivity | done]. Qed.

(** the numbers of an announcement are compared as doubles: with 'Page
    9007199254740992 of 9007199254740993' both are [2^53], hasNext is false
    and the loop stops, whatever its counter *)
Example rounded_announcement :
  let p := DemoOracle.visible_bar
             (Some "Page 9007199254740992 of 9007199254740993")
             (Some DemoOracle.enabled_arrow) in
  parseInt "9007199254740993" = Some 9007199254740992%Z ∧
  pi_hasNext (paginationInfo p) = false ∧
  oracle p 1 = false.
Proof. vm_compute. done. Qed.

(** C6, amended: the signals are read in a fixed order and the first
    conclusive one decides. (a) A hidden container with shown = total > 0
    gives stop. (b) Otherwise a parseable 'Page X of Y' sets hasNext to
    X < Y whatever the next control says, where X and Y are the Number
    values of the two numerals, that is the doubles nearest to them; and
    the loop continues exactly when X < Y, Y is not 1 and the loop's own
    page counter is below Y. (c) With neither, a disabled next control
    gives stop. *)
Theorem C6_oracle_signals_in_priority_order (p : Page) (cp : nat) :
  (∀ cl n, paginationContainer p = Some cl → "d-none" ∈ cl →
           currentShowing p = Some n → totalResults p = Some n → (0 < n)%Z →
           oracle p cp = false) ∧
  (signal1 p = false →
   ∀ x y, match_page_of (paginationText p) = Some (x, y) →
     all_digits x = true ∧ all_digits y = true ∧
     ∃ X Y : N,
       X = to_double (decimal_value x) ∧ Y = to_double (decimal_value y) ∧
       parseInt x = Some (Z.of_N X) ∧ parseInt y = Some (Z.of_N Y) ∧
       pi_hasNext (paginationInfo p) = bool_decide (X < Y)%N ∧
       (oracle p cp = true ↔ (X < Y)%N ∧ Y ≠ 1%N ∧ (N.of_nat cp < Y)%N)) ∧
  (signal1 p = false →
   match_page_of (paginationText p) = None →
   nextButtonDisabled p = Some true →
   oracle p cp = false).
Proof.
  split; [| split].
  - intros cl n Hc Hcl Hs Ht Hn. apply oracle_signal1, signal1_true. eauto 10.
  - intros H1 x y Hm.
    destruct (match_page_of_digits _ _ _ Hm) as [[Hx Hxe] [Hy Hye]].
    pose proof (parseInt_digits x Hx Hxe) as HX.
    pose proof (parseInt_digits y Hy Hye) as HY.
    split; [done |]. split; [done |].
    eexists _, _. split; [done |]. split; [done |].
    split; [done |]. split; [done |].
    by eapply oracle_announcement.
  - intros H1 Hm Hd.
    destruct (oracle_fallback p cp H1 Hm) as [_ ->]. by rewrite Hd.
Qed.

(** 'Page 2 of 5' on loop page 2, next control disabled: continue;
    'Page 5 of 5' on loop page 5: stop;
    no announcement, next control disabled: stop;
    container hidden and 12 of 12 shown, announcement 'Page 2 of 5': stop;
    'Page 9007199254740992 of 9007199254740993' on loop page 1: stop, since
    both numerals are the same double. *)
Lemma C6_oracle_signals_in_priority_order_witness :
  oracle (DemoOracle.visible_bar (Some "Page 2 of 5")
                                 (Some DemoOracle.disabled_arrow)) 2 = true ∧
  oracle (DemoOracle.visible_bar (Some "Page 5 of 5")
                                 (Some DemoOracle.enabled_arrow)) 5 = false ∧
  oracle (DemoOracle.visible_bar None (Some DemoOracle.disabled_arrow)) 1 = false ∧
  oracle DemoOracle.hidden_all_shown 1 = false ∧
  oracle (DemoOracle.visible_bar
            (Some "Page 9007199254740992 of 9007199254740993")
            (Some DemoOracle.enabled_arrow)) 1 = false.
Proof.
  split; [| split; [| split; [| split]]].
  - destruct (C6_oracle_signals_in_priority_order
                (DemoOracle.visible_bar (Some "Page 2 of 5")
                                        (Some DemoOracle.disabled_arrow)) 2)
      as (_ & Hb & _).
    destruct (Hb eq_refl "2" "5" eq_refl) as (_ & _ & X & Y & -> & -> & _ & _ & _ & Hiff).
    apply Hiff. vm_compute. done.
  - destruct (C6_oracle_signals_in_priority_order
                (DemoOracle.visible_bar (Some "Page 5 of 5")
                                        (Some DemoOracle.enabled_arrow)) 5)
      as (_ & Hb & _).
    destruct (Hb eq_refl "5" "5" eq_refl) as (_ & _ & X & Y & -> & -> & _ & _ & _ & Hiff).
    destruct (oracle _ 5); [| reflexivity].
    destruct Hiff as [[Hiff _] _]; [reflexivity |]. vm_compute in Hiff. done.
  - by apply (C6_oracle_signals_in_priority_order
                (DemoOracle.visible_bar None (Some DemoOracle.disabled_arrow)) 1).
  - apply (C6_oracle_signals_in_priority_order DemoOracle.hidden_all_shown 1)
      with (cl := ["pagination"; "d-none"]) (n := 12%Z);
      [reflexivity | set_solver | reflexivity | reflexivity | lia].
  - destruct (C6_oracle_signals_in_priority_order
                (DemoOracle.visible_bar
                   (Some "Page 9007199254740992 of 9007199254740993")
                   (Some DemoOracle.enabled_arrow)) 1)
      as (_ & Hb & _).
    destruct (Hb eq_refl "9007199254740992" "9007199254740993" eq_refl)
      as (_ & _ & X & Y & -> & -> & _ & _ & _ & Hiff).
    destruct (oracle _ 1); [| reflexivity].
    destruct Hiff as [[Hiff _] _]; [reflexivity |]. vm_compute in Hiff. done.
Defined.

(** C10: when the first signal is not conclusive, no announcement parses and
    the next control is absent from the page, the fallback gives
    hasNext = true and the loop navigates on: the counter goes up by one and
    hasNextPage stays as it is. *)
Theorem C10_absent_next_control_continues
    (p : Page) (render : string → option Page) (now url : string) (st : LoopState) :
  signal1 p = false →
  match_page_of (paginationText p) = None →
  rightArrow p = None →
  render (pageUrl url (currentPage st)) = Some p →
  cards p ≠ [] →
  pi_hasNext (paginationInfo p) = true ∧
  pi_reason (paginationInfo p) = "next button state" ∧
  (∀ cp, oracle p cp = true) ∧
  ∃ st', iteration render now url st = Next st' ∧
         currentPage st' = S (currentPage st) ∧
         hasNextPage st' = hasNextPage st.
Proof.
  intros H1 Hm Ha Hr Hc.
  assert (Hd : nextButtonDisabled p = None).
  { unfold nextButtonDisabled. by rewrite Ha. }
  assert (Ho : ∀ cp, oracle p cp = true).
  { intros cp. destruct (oracle_fallback p cp H1 Hm) as [_ ->]. by rewrite Hd. }
  split; [destruct (oracle_fallback p 0 H1 Hm) as [-> _]; by rewrite Hd |].
  split; [unfold paginationInfo; fold (signal1 p); by rewrite H1, Hm |].
  split; [done |].
  unfold iteration. rewrite Hr. destruct (cards p) as [| c cs]; [done |].
  rewrite Ho. eexists. split; [done |]. done.
Qed.

Lemma C10_absent_next_control_continues_witness :
  ∃ st', iteration (λ _, Some (DemoOracle.visible_bar None None)) "t0" Demo.seed initial
         = Next st' ∧
         currentPage st' = 2 ∧ hasNextPage st' = true.
Proof.
  apply (C10_absent_next_control_continues
           (DemoOracle.visible_bar None None)
           (λ _, Some (DemoOracle.visible_bar None None)) "t0" Demo.seed initial);
    [reflexivity | reflexivity | reflexivity | reflexivity | discriminate].
Defined.

(** * Further properties of the code *)

(** ** [getImageExtension] *)

Section ExtensionFacts.

Lemma prefix_short_eq p s :
  String.prefix p s = true → String.length s ≤ String.length p → s = p.
Proof.
  revert s. induction p as [| a p IH]; intros [| b s]; simpl; try done.
  - lia.
  - destruct (ascii_dec a b) as [-> |]; [| done].
    intros Hp Hl. f_equal. apply IH; [done | lia].
Qed.

Lemma substring_0_length n s : String.length (String.substring 0 n s) ≤ n.
Proof.
  revert s. induction n as [| n IH]; intros [| c s]; simpl; try lia.
  specialize (IH s). lia.
Qed.

Lemma known_extension_lower e : e ∈ known_extensions → toLowerCase e = e.
Proof.
  unfold known_extensions. rewrite !elem_of_cons, elem_of_nil.
  intros [-> | [-> | [-> | [-> | [-> | [-> | []]]]]]]; reflexivity.
Qed.

Lemma extension_here_known t e :
  extension_here t = Some e →
  e ∈ known_extensions ∧ toLowerCase (String.substring 0 (String.length e) t) = e.
Proof.
  unfold extension_here. intros [Hin Hc]%find_some.
  apply list_elem_of_In in Hin. split; [done |].
  apply andb_prop in Hc as [Hp _]. unfold prefix_ci in Hp.
  rewrite (known_extension_lower _ Hin) in Hp.
  apply prefix_short_eq; [done |].
  unfold toLowerCase. rewrite map_chars_length. apply substring_0_length.
Qed.

Lemma url_extension_known url e :
  url_extension url = Some e → toLowerCase e ∈ known_extensions.
Proof.
  induction url as [| c t IH]; simpl; [done |].
  destruct (code c =? 46)%N; [| exact IH].
  destruct (extension_here t) as [e0 |] eqn:He; [| exact IH].
  intros [= <-]. apply extension_here_known in He as [Hin ->]. done.
Qed.

End ExtensionFacts.

Lemma getImageExtension_in_known url contentType :
  getImageExtension url contentType ∈ known_extensions.
Proof.
  unfold getImageExtension.
  destruct (url_extension url) as [e |] eqn:He; [by eapply url_extension_known |].
  unfold known_extensions.
  repeat match goal with
         | |- context [if ?b then _ else _] => destruct b
         end; set_solver.
Qed.

(** X1: whatever the URL and the content type, [getImageExtension] returns
    one of jpg, jpeg, png, gif, webp and svg, in lower case. *)
Theorem getImageExtension_is_known url contentType :
  getImageExtension url contentType ∈ ["jpg"; "jpeg"; "png"; "gif"; "webp"; "svg"].
Proof. apply getImageExtension_in_known. Qed.

(** ** [downloadImage] and the disk *)

Section FetchFrame.
Variable net : Net.

Lemma dirs_ensure_dir d w :
  dirs w ⊆ dirs (ensure_dir d w) ∧
  ∀ x, x ∈ dirs (ensure_dir d w) → x ∈ dirs w ∨ x ∈ dir_chain d.
Proof.
  unfold ensure_dir. destruct (existsSync d w); simpl; [by auto |].
  split; [apply union_subseteq_l |].
  intros x [Hx | Hx%elem_of_list_to_set]%elem_of_union; auto.
Qed.

Lemma dirs_attempted path w :
  dirs w ⊆ dirs (attempted path w) ∧
  ∀ x, x ∈ dirs (attempted path w) → x ∈ dirs w ∨ x ∈ dir_chain (dirname path).
Proof. unfold attempted. apply (dirs_ensure_dir (dirname path) (issue w)). Qed.

Lemma downloadImage_frame fuel url path w res w' :
  downloadImage net fuel url path w = Some (res, w') →
  (∀ q, q ≠ path → files w' !! q = files w !! q) ∧
  requests w ≤ requests w' ∧
  (res = Resolved None → files w' = files w).
Proof.
  revert url w. induction fuel as [| fuel IH]; intros [u |] w; simpl.
  - destruct (is_empty u || startsWith u "data:"); [| done].
    intros [= <- <-]. split; [done |]. split; [lia | done].
  - intros [= <- <-]. split; [done |]. split; [lia | done].
  - destruct (is_empty u || startsWith u "data:").
    { intros [= <- <-]. split; [done |]. split; [lia | done]. }
    fold (attempted path w).
    pose proof (requests_attempted path w) as Hra.
    pose proof (files_attempted path w) as Hfa.
    destruct (net (requests w) u) as [| | | status loc body].
    + intros [= <- <-]; simpl. split; [done |]. split; [lia | done].
    + intros [= <- <-]; simpl. rewrite Hra, Hfa. split; [done |]. split; [lia | done].
    + intros [= <- <-]; simpl. rewrite Hra, Hfa. split; [done |]. split; [lia | done].
    + destruct (status =? 200)%Z.
      * destruct body; intros [= <- <-]; simpl; rewrite Hra, Hfa;
          (split; [| split; [lia | done]]);
          intros q Hq; by rewrite ?lookup_insert_ne, ?lookup_delete_ne.
      * destruct (is_redirect status).
        -- intros H. apply IH in H as (Hf & Hr & Hn). rewrite Hra in Hr.
           rewrite Hfa in Hf, Hn. split; [done |]. split; [lia | done].
        -- intros [= <- <-]; simpl. rewrite Hra, Hfa.
           split; [done |]. split; [lia | done].
  - intros [= <- <-]. split; [done |]. split; [lia | done].
Qed.

(** a call that made no attempt changed nothing *)
Lemma downloadImage_attempts fuel url path w res w' :
  downloadImage net fuel url path w = Some (res, w') →
  (w' = w ∧ res = Resolved None) ∨ requests w < requests w'.
Proof.
  destruct fuel as [| fuel]; destruct url as [u |]; simpl.
  - destruct (is_empty u || startsWith u "data:"); [| done].
    intros [= <- <-]. by left.
  - intros [= <- <-]. by left.
  - destruct (is_empty u || startsWith u "data:").
    { intros [= <- <-]. by left. }
    fold (attempted path w).
    pose proof (requests_attempted path w) as Hra.
    destruct (net (requests w) u) as [| | | status loc body].
    + intros [= <- <-]; simpl. right. lia.
    + intros [= <- <-]; simpl. right. lia.
    + intros [= <- <-]; simpl. right. lia.
    + destruct (status =? 200)%Z.
      * destruct body; intros [= <- <-]; simpl; right; lia.
      * destruct (is_redirect status).
        -- intros (_ & Hr & _)%downloadImage_frame. right. lia.
        -- intros [= <- <-]; simpl. right. lia.
  - intros [= <- <-]. by left.
Qed.

(** the directories a call makes *)
Lemma downloadImage_dirs fuel url path w res w' :
  downloadImage net fuel url path w = Some (res, w') →
  dirs w ⊆ dirs w' ∧
  ∀ d, d ∈ dirs w' → d ∈ dirs w ∨ d ∈ dir_chain (dirname path).
Proof.
  revert url w. induction fuel as [| fuel IH]; intros [u |] w; simpl.
  - destruct (is_empty u || startsWith u "data:"); [| done].
    intros [= <- <-]. auto.
  - intros [= <- <-]. auto.
  - destruct (is_empty u || startsWith u "data:").
    { intros [= <- <-]. auto. }
    fold (attempted path w).
    pose proof (dirs_attempted path w) as [Hsub Hnew].
    destruct (net (requests w) u) as [| | | status loc body].
    + intros [= <- <-]; simpl. auto.
    + by intros [= <- <-].
    + by intros [= <- <-].
    + destruct (status =? 200)%Z.
      * by destruct body; intros [= <- <-].
      * destruct (is_redirect status); [| by intros [= <- <-]].
        intros [Hs Hn]%IH. split; [by etrans |].
        intros d [Hd | Hd]%Hn; [by apply Hnew | by right].
  - intros [= <- <-]. auto.
Qed.

(** only a body that is cut short leaves the promise pending; the file is
    then partly written *)
Lemma pending_leaves_partial_file fuel url path w w' :
  downloadImage net fuel url path w = Some (Pending, w') →
  files w' !! path = Some Partial.
Proof.
  revert url w. induction fuel as [| fuel IH]; intros [u |] w; simpl; try done.
  - by destruct (is_empty u || startsWith u "data:").
  - destruct (is_empty u || startsWith u "data:"); [done |].
    destruct (net (requests w) u) as [| | | status loc body]; [done.. |].
    destruct (status =? 200)%Z.
    + destruct body; intros [= <-]; simpl. by rewrite lookup_insert_eq.
    + destruct (is_redirect status); [apply IH | done].
Qed.

(** without redirects one unit of fuel is enough *)
Lemma downloadImage_no_redirect_settles fuel u path w :
  no_redirects net →
  ∃ res w', downloadImage net (S fuel) (Some u) path w = Some (res, w').
Proof.
  intros Hn. simpl. destruct (is_empty u || startsWith u "data:"); [eauto |].
  specialize (Hn (requests w) u).
  destruct (net (requests w) u) as [| | | status loc body]; [eauto.. |].
  simpl in Hn. rewrite Hn.
  destruct (status =? 200)%Z; [destruct body |]; eauto.
Qed.

(** on a network where everything fails, a download is rejected unless the
    URL is skipped *)
Lemma downloadImage_all_fail fuel u path w res w' :
  all_fail net → u ≠ "" →
  downloadImage net fuel (Some u) path w = Some (res, w') →
  (∃ e, res = Rejected e) ∨ (res = Resolved None ∧ startsWith u "data:" = true).
Proof.
  intros Hn Hu.
  assert (He : is_empty u = false) by (by destruct u).
  destruct fuel as [| fuel]; simpl; rewrite He; simpl.
  - destruct (startsWith u "data:") eqn:Hs; [| done]. intros [= <- <-]. by right.
  - destruct (startsWith u "data:") eqn:Hs. { intros [= <- <-]. by right. }
    destruct (Hn (requests w) u) as [Hf Hr].
    destruct (net (requests w) u) as [| | | status loc body].
    + intros [= <- <-]. left; eauto.
    + intros [= <- <-]. left; eauto.
    + intros [= <- <-]. left; eauto.
    + simpl in Hf, Hr. rewrite Hr. destruct (status =? 200)%Z eqn:H2.
      * apply Z.eqb_eq in H2.
        destruct body; intros [= <- <-]; by eauto || by destruct Hf as [? | [? | ?]].
      * intros [= <- <-]. left; eauto.
Qed.

End FetchFrame.

(** X2: a call of [downloadImage] whose promise settles or stays pending
    changed no regular file but its destination; the only directories it
    made are the directory of the destination and the ones above it; when
    it made no attempt it changed nothing at all. When it resolved with
    null no file changed; when it resolved with a path, that path is the
    destination and holds a complete file; a pending promise leaves a
    partly written file there. *)
Theorem downloadImage_touches_only_destination net fuel url path w res w' :
  downloadImage net fuel url path w = Some (res, w') →
  (∀ q, q ≠ path → files w' !! q = files w !! q) ∧
  (dirs w ⊆ dirs w' ∧
   ∀ d, d ∈ dirs w' → d ∈ dirs w ∨ d ∈ dir_chain (dirname path)) ∧
  (requests w' = requests w → w' = w) ∧
  (res = Resolved None → files w' = files w) ∧
  (∀ p, res = Resolved (Some p) → p = path ∧ files w' !! path = Some Complete) ∧
  (res = Pending → files w' !! path = Some Partial).
Proof.
  intros H. destruct (downloadImage_frame _ _ _ _ _ _ _ H) as (Hf & Hr & Hn).
  split; [done |]. split; [by eapply downloadImage_dirs |].
  split. { destruct (downloadImage_attempts _ _ _ _ _ _ _ H) as [[? _] | ?]; [done | lia]. }
  split; [done |].
  split; [intros p ->; by eapply resolved_path_has_file |].
  intros ->. by eapply pending_leaves_partial_file.
Qed.

Lemma downloadImage_touches_only_destination_witness :
  ∃ w', downloadImage DemoRedirect.moved_twice 5 (Some "http://cdn.example.com/a.png")
                      "/work/media/p1_1_logo.png" Demo.empty_disk
        = Some (Resolved (Some "/work/media/p1_1_logo.png"), w') ∧
        files w' !! "/work/media/p1_1_header.png" = None ∧
        dirs w' = {["/work/media"; "/work"]} ∧
        (∀ d, d ∈ dirs w' → d ∈ ["/work/media"; "/work"]).
Proof.
  eassert (Hd : downloadImage DemoRedirect.moved_twice 5
                   (Some "http://cdn.example.com/a.png")
                   "/work/media/p1_1_logo.png" Demo.empty_disk = Some (_, _))
    by (vm_compute; reflexivity).
  eexists. split; [exact Hd |].
  destruct (downloadImage_touches_only_destination _ _ _ _ _ _ _ Hd)
    as (Hf & [_ Hdirs] & _).
  split; [by rewrite Hf |]. split; [by vm_compute |].
  intros d [Hd' | Hd']%Hdirs; [by apply elem_of_empty in Hd' | exact Hd'].
Defined.

(** ** The download phase, step by step *)

Section DownloadSteps.
Variable net : Net.
Variable fuel : nat.
Variable mediaDir : string.

Lemma settle_local_cases r value old :
  settle_local r value old = old ∨ settle_local r value old = Some value.
Proof. destruct r; simpl; auto. Qed.

(** what one of the three fetch blocks did: nothing, for an empty URL, or
    one [downloadImage] whose outcome went into the field *)
Lemma download_logo_cases s w c w' :
  download_logo net fuel mediaDir s w = Completed (c, w') →
  logo c = logo (company s) ∧
  ((logo (company s) = "" ∧ c = company s ∧ w' = w) ∨
   (logo (company s) ≠ "" ∧
    ∃ r, downloadImage net fuel (Some (logo (company s)))
           (path_join mediaDir
              (generateImageFilename "" (globalId s) "logo"
                 (getImageExtension (logo (company s)) ""))) w = Some (r, w') ∧
         logoLocal c = settle_local r (logo_local s) (logoLocal (company s)))).
Proof.
  unfold download_logo. destruct (logo (company s)) as [| a u] eqn:Hl; simpl.
  - intros [= <- <-]. split; [done |]. by left.
  - destruct (downloadImage _ _ _ _ _) as [[[v | e |] w1] |] eqn:Hd; simpl;
      try done; intros [= <- <-]; simpl; (split; [done |]); right;
      (split; [done |]); eexists; (split; [done |]);
      unfold logo_local; by rewrite Hl.
Qed.

Lemma download_header_cases s w m w' :
  download_header net fuel mediaDir s w = Completed (m, w') →
  headerImage m = headerImage (media s) ∧
  headerImageAlt m = headerImageAlt (media s) ∧
  ((headerImage (media s) = "" ∧ m = media s ∧ w' = w) ∨
   (headerImage (media s) ≠ "" ∧
    ∃ r, downloadImage net fuel (Some (headerImage (media s)))
           (path_join mediaDir
              (generateImageFilename "" (globalId s) "header"
                 (getImageExtension (headerImage (media s)) ""))) w = Some (r, w') ∧
         headerImageLocal m
         = settle_local r (header_local s) (headerImageLocal (media s)))).
Proof.
  unfold download_header. destruct (headerImage (media s)) as [| a u] eqn:Hl; simpl.
  - intros [= <- <-]. split; [done |]. split; [done |]. by left.
  - destruct (downloadImage _ _ _ _ _) as [[[v | e |] w1] |] eqn:Hd; simpl;
      try done; intros [= <- <-]; simpl; (split; [done |]); (split; [done |]);
      right; (split; [done |]); eexists; (split; [done |]);
      unfold header_local; by rewrite Hl.
Qed.

Lemma download_icon_cases gid pr w pr' w' :
  download_icon net fuel mediaDir gid pr w = Completed (pr', w') →
  name pr' = name pr ∧ icon pr' = icon pr ∧ iconAlt pr' = iconAlt pr ∧
  ((icon pr = "" ∧ pr' = pr ∧ w' = w) ∨
   (icon pr ≠ "" ∧
    ∃ r, downloadImage net fuel (Some (icon pr))
           (path_join mediaDir (iconFilename gid pr)) w = Some (r, w') ∧
         iconLocal pr'
         = settle_local r ("media/" +:+ iconFilename gid pr) (iconLocal pr))).
Proof.
  unfold download_icon. destruct (icon pr) as [| a u] eqn:Hl; simpl.
  - intros [= <- <-]. do 3 (split; [done |]). by left.
  - destruct (downloadImage _ _ _ _ _) as [[[v | e |] w1] |] eqn:Hd; simpl;
      try done; intros [= <- <-]; simpl; do 3 (split; [done |]); right;
      (split; [done |]); eexists; split; done.
Qed.

(** the worlds the icon loop goes through, product by product *)
Lemma download_icons_Forall2 gid ps w ps' w' :
  download_icons net fuel mediaDir gid ps w = Completed (ps', w') →
  Forall2 (λ pr pr', ∃ w1 w2, download_icon net fuel mediaDir gid pr w1
                               = Completed (pr', w2)) ps ps'.
Proof.
  revert w ps' w'. induction ps as [| pr ps IH]; intros w ps' w'; simpl.
  { intros [= <- <-]. constructor. }
  destruct (download_icon _ _ _ _ _ _) as [[pr1 w1] | | |] eqn:Hi; [| done..].
  destruct (download_icons _ _ _ _ _ _) as [[ps1 w2] | | |] eqn:Hr; [| done..].
  intros [= <- <-]. constructor; [eauto | by eapply IH].
Qed.

Lemma download_story_parts s w s' w' :
  download_story net fuel mediaDir s w = Completed (s', w') →
  ∃ w1 w2,
    download_logo net fuel mediaDir s w = Completed (company s', w1) ∧
    download_header net fuel mediaDir s w1 = Completed (media s', w2) ∧
    download_icons net fuel mediaDir (globalId s) (microsoftProducts s) w2
      = Completed (microsoftProducts s', w') ∧
    identity s' = identity s ∧ industry s' = industry s ∧
    extractedAt s' = extractedAt s.
Proof.
  unfold download_story.
  destruct (download_logo net fuel mediaDir s w) as [[c w1] | | |] eqn:Hl; [| done..].
  destruct (download_header net fuel mediaDir s w1) as [[m w2] | | |] eqn:Hh; [| done..].
  destruct (download_icons _ _ _ _ _ _) as [[ps w3] | | |] eqn:Hi; [| done..].
  intros [= <- <-]; simpl. by exists w1, w2.
Qed.

Lemma download_all_Forall2 l w l' w' :
  download_all net fuel mediaDir l w = Completed (l', w') →
  Forall2 (λ s s', ∃ w1 w2, download_story net fuel mediaDir s w1 = Completed (s', w2)) l l'.
Proof.
  revert w l' w'. induction l as [| s l IH]; intros w l' w'; simpl.
  { intros [= <- <-]. constructor. }
  destruct (download_story _ _ _ _ _) as [[s1 w1] | | |] eqn:Hs; [| done..].
  destruct (download_all _ _ _ _ _) as [[l1 w2] | | |] eqn:Hl; [| done..].
  intros [= <- <-]. constructor; [eauto | by eapply IH].
Qed.

Lemma download_icon_clear gid pr w pr' w' :
  download_icon net fuel mediaDir gid pr w = Completed (pr', w') →
  clear_product pr' = clear_product pr.
Proof.
  intros (Hn & Hi & Ha & _)%download_icon_cases.
  unfold clear_product. by rewrite Hn, Hi, Ha.
Qed.

Lemma download_story_clear s w s' w' :
  download_story net fuel mediaDir s w = Completed (s', w') →
  clear_locals s' = clear_locals s.
Proof.
  intros (w1 & w2 & Hl & Hh & Hi & Hid & Hin & He)%download_story_parts.
  apply download_logo_cases in Hl as [Hl _].
  apply download_header_cases in Hh as (Hh & Hha & _).
  apply download_icons_Forall2 in Hi.
  unfold identity in Hid. injection Hid as H1 H2 H3 H4 H5.
  unfold clear_locals. rewrite H1, H2, H3, H4, H5, Hin, He, Hl, Hh, Hha.
  f_equal. induction Hi as [| pr pr' ps ps' (wa & wb & Hp) _ IH]; [done |].
  rewrite !fmap_cons, IH. f_equal. by eapply download_icon_clear.
Qed.

End DownloadSteps.

(** X3: the download phase changes nothing of a record but its local path
    fields: with these fields taken away, the records of the dataset are the
    records the page loop accumulated, in the same order. *)
Theorem download_phase_changes_only_local_paths
    render net now finishedAt mediaDir fuel env w0 r :
  run render net now finishedAt mediaDir fuel env w0 = Completed r →
  clear_locals <$> stories (dataset r) = clear_locals <$> allStories (loop r).
Proof.
  intros (url & _ & _ & _ & _ & Hdl & _)%run_Completed.
  apply download_all_Forall2 in Hdl.
  induction Hdl as [| s s' l l' (w1 & w2 & Hs) _ IH]; [done |].
  rewrite !fmap_cons, IH. f_equal. by eapply download_story_clear.
Qed.

Lemma download_phase_changes_only_local_paths_witness :
  ∃ r, run DemoSmall.site Demo.all_ok "t0" "t1" DemoSmall.mediaDir 4
           (Some DemoSmall.seed) Demo.empty_disk = Completed r ∧
       clear_locals <$> stories (dataset r) = clear_locals <$> allStories (loop r).
Proof.
  eexists. split; [vm_compute; reflexivity |].
  eapply (download_phase_changes_only_local_paths
            DemoSmall.site Demo.all_ok "t0" "t1" DemoSmall.mediaDir 4
            (Some DemoSmall.seed) Demo.empty_disk).
  vm_compute; reflexivity.
Defined.

(** ** The local paths a run stores *)

Section LocalPathFacts.

Lemma Forall2_elem_r {A B} (P : A → B → Prop) l k y :
  Forall2 P l k → y ∈ k → ∃ x, x ∈ l ∧ P x y.
Proof.
  intros HF (i & Hi)%list_elem_of_lookup_1.
  destruct (Forall2_lookup_r _ _ _ _ _ HF Hi) as (x & Hx & HP).
  exists x. split; [by eapply list_elem_of_lookup_2 | done].
Qed.

(** extraction leaves every local path absent *)
Lemma extract_card_locals now pageNum index card s :
  extract_card now pageNum index card = Some s →
  logoLocal (company s) = None ∧ headerImageLocal (media s) = None ∧
  ∀ pr, pr ∈ microsoftProducts s → iconLocal pr = None.
Proof.
  unfold extract_card.
  destruct (titleElement card) as [t |]; [| done].
  destruct (storyLink card) as [href |]; [| done].
  intros [= <-]; simpl. split; [done |]. split; [done |].
  intros pr (el & _ & Hel)%list_elem_of_omap. unfold extract_product in Hel.
  destruct (productLabel el); [| done]. by injection Hel as <-.
Qed.

Lemma extract_page_locals now pageNum p s :
  s ∈ extract_page now pageNum p →
  logoLocal (company s) = None ∧ headerImageLocal (media s) = None ∧
  ∀ pr, pr ∈ microsoftProducts s → iconLocal pr = None.
Proof.
  intros (j & card & _ & Hc)%extract_from_elem. by eapply extract_card_locals.
Qed.

(** every record of the dataset, with the record it was before the download
    phase and the step that made it *)
Lemma run_story_source render net now finishedAt mediaDir fuel env w0 r s' :
  run render net now finishedAt mediaDir fuel env w0 = Completed r →
  s' ∈ stories (dataset r) →
  ∃ s w1 w2,
    s ∈ allStories (loop r) ∧
    download_story net fuel mediaDir s w1 = Completed (s', w2) ∧
    globalId s = make_globalId (page s) (positionOnPage s) ∧
    logoLocal (company s) = None ∧ headerImageLocal (media s) = None ∧
    ∀ pr, pr ∈ microsoftProducts s → iconLocal pr = None.
Proof.
  intros (url & _ & _ & Hloop & _ & Hdl & _)%run_Completed Hs.
  apply download_all_Forall2 in Hdl.
  destruct (Forall2_elem_r _ _ _ _ Hdl Hs) as (s & Hin & w1 & w2 & Hd).
  apply page_loop_accumulated in Hloop as (_ & Hex & _).
  destruct (Hex _ Hin) as (p & _ & Hp).
  pose proof (extract_page_locals _ _ _ _ Hp) as (Hl & Hh & Hi).
  apply extract_page_elem in Hp as (_ & Hg & _).
  exists s, w1, w2. done.
Qed.

Lemma settle_local_None r value v :
  settle_local r value None = Some v → v = value ∧ ∃ x, r = Resolved x.
Proof. destruct r; simpl; [| done..]. intros [= <-]. eauto. Qed.

End LocalPathFacts.

(** the local paths of a record of the dataset *)
Lemma run_local_paths
    render net now finishedAt mediaDir fuel env w0 r s :
  run render net now finishedAt mediaDir fuel env w0 = Completed r →
  s ∈ stories (dataset r) →
  (∀ v, logoLocal (company s) = Some v →
        logo (company s) ≠ "" ∧
        v = "media/" +:+ globalId s +:+ "_logo." +:+ getImageExtension (logo (company s)) "") ∧
  (∀ v, headerImageLocal (media s) = Some v →
        headerImage (media s) ≠ "" ∧
        v = "media/" +:+ globalId s +:+ "_header."
              +:+ getImageExtension (headerImage (media s)) "") ∧
  (∀ pr v, pr ∈ microsoftProducts s → iconLocal pr = Some v →
        icon pr ≠ "" ∧
        v = "media/" +:+ globalId s +:+ "_product_" +:+ productSafeName (name pr)
              +:+ "." +:+ getImageExtension (icon pr) "").
Proof.
  intros Hrun Hs.
  destruct (run_story_source _ _ _ _ _ _ _ _ _ _ Hrun Hs)
    as (s0 & w1 & w2 & _ & Hd & _ & Hl0 & Hh0 & Hi0).
  apply download_story_parts in Hd as (wa & wb & Hl & Hh & Hi & Hid & _).
  unfold identity in Hid. injection Hid as _ _ Hg _ _.
  apply download_logo_cases in Hl as (Hlu & Hl).
  apply download_header_cases in Hh as (Hhu & _ & Hh).
  apply download_icons_Forall2 in Hi.
  rewrite Hg, Hlu, Hhu. split; [| split].
  - intros v Hv. destruct Hl as [(_ & Hc & _) | (Hne & rr & _ & Hf)].
    { rewrite Hc in Hv. congruence. }
    rewrite Hf, Hl0 in Hv. apply settle_local_None in Hv as [-> _]. done.
  - intros v Hv. destruct Hh as [(_ & Hc & _) | (Hne & rr & _ & Hf)].
    { rewrite Hc in Hv. congruence. }
    rewrite Hf, Hh0 in Hv. apply settle_local_None in Hv as [-> _]. done.
  - intros pr v Hpr Hv.
    destruct (Forall2_elem_r _ _ _ _ Hi Hpr) as (pr0 & Hin & wc & wd & Hc).
    apply download_icon_cases in Hc
      as (Hn & Hu & _ & [(_ & Hc & _) | (Hne & rr & _ & Hf)]).
    + rewrite Hc, (Hi0 _ Hin) in Hv. done.
    + rewrite Hf, (Hi0 _ Hin) in Hv. apply settle_local_None in Hv as [-> _].
      rewrite Hn, Hu. done.
Qed.

(** X4: in the dataset of a completed run a local path is stored only for a
    non-empty remote URL, and it is media/{globalId}_{role}.{ext} for the
    record's own globalId, with role logo, header or product_{sanitized name}
    and the extension derived from the remote URL. *)
Theorem local_paths_have_the_derived_form
    render net now finishedAt mediaDir fuel env w0 r s :
  run render net now finishedAt mediaDir fuel env w0 = Completed r →
  s ∈ stories (dataset r) →
  (∀ v, logoLocal (company s) = Some v →
        logo (company s) ≠ "" ∧
        v = "media/" +:+ globalId s +:+ "_logo." +:+ getImageExtension (logo (company s)) "") ∧
  (∀ v, headerImageLocal (media s) = Some v →
        headerImage (media s) ≠ "" ∧
        v = "media/" +:+ globalId s +:+ "_header."
              +:+ getImageExtension (headerImage (media s)) "") ∧
  (∀ pr v, pr ∈ microsoftProducts s → iconLocal pr = Some v →
        icon pr ≠ "" ∧
        v = "media/" +:+ globalId s +:+ "_product_" +:+ productSafeName (name pr)
              +:+ "." +:+ getImageExtension (icon pr) "").
Proof. apply run_local_paths. Qed.

Lemma local_paths_have_the_derived_form_witness :
  ∃ r s, run DemoSmall.site Demo.all_ok "t0" "t1" DemoSmall.mediaDir 4
             (Some DemoSmall.seed) Demo.empty_disk = Completed r ∧
         s ∈ stories (dataset r) ∧
         logoLocal (company s) = Some "media/p1_1_logo.png" ∧
         logo (company s) ≠ "".
Proof.
  eexists. eexists.
  split; [vm_compute; reflexivity |].
  split; [apply list_elem_of_here |].
  split; [reflexivity |].
  eapply (local_paths_have_the_derived_form
            DemoSmall.site Demo.all_ok "t0" "t1" DemoSmall.mediaDir 4
            (Some DemoSmall.seed) Demo.empty_disk).
  - vm_compute; reflexivity.
  - apply list_elem_of_here.
  - reflexivity.
Defined.

(** ** C9: file names of the assets *)


(** the two names on which the orders differ: the Kelvin sign, and capital
    I with dot above, whose lower case is an i and a combining dot *)
Example sanitized_kelvin_and_dotted_I :
  productSafeName_utf16 [8490%N] = Some (units "_") ∧
  sanitize_as_specified [8490%N] = Some (units "k") ∧
  productSafeName_utf16 [304%N] = Some (units "_") ∧
  sanitize_as_specified [304%N] = Some (units "i_").
Proof. vm_compute. done. Qed.



(** ** Where the download phase writes *)

Section DiskFacts.
Variable net : Net.
Variable fuel : nat.
Variable mediaDir : string.

Lemma download_icons_frame gid ps w ps' w' q :
  download_icons net fuel mediaDir gid ps w = Completed (ps', w') →
  (∀ pr, pr ∈ ps → q ≠ path_join mediaDir (iconFilename gid pr)) →
  files w' !! q = files w !! q.
Proof.
  revert w ps' w'. induction ps as [| pr ps IH]; intros w ps' w'; simpl.
  { by intros [= <- <-]. }
  destruct (download_icon _ _ _ _ _ _) as [[pr1 wa] | | |] eqn:Hp; [| done..].
  destruct (download_icons _ _ _ _ _ _) as [[ps1 wb] | | |] eqn:Hr; [| done..].
  intros [= <- <-] Hq.
  rewrite (IH _ _ _ Hr) by (intros; apply Hq; by apply list_elem_of_further).
  apply download_icon_cases in Hp as (_ & _ & _ & [(_ & _ & ->) | (_ & r & Hd & _)]);
    [done |].
  apply downloadImage_frame in Hd as [Hf _]. apply Hf, Hq, list_elem_of_here.
Qed.

Lemma download_story_frame s w s' w' q :
  download_story net fuel mediaDir s w = Completed (s', w') →
  (∀ f, f ∈ asset_names s → q ≠ path_join mediaDir f) →
  files w' !! q = files w !! q.
Proof.
  intros (w1 & w2 & Hl & Hh & Hi & _)%download_story_parts Hq.
  assert (H1 : files w1 !! q = files w !! q).
  { apply download_logo_cases in Hl as (_ & [(_ & _ & ->) | (_ & r & Hd & _)]); [done |].
    apply downloadImage_frame in Hd as [Hf _]. apply Hf, Hq, list_elem_of_here. }
  assert (H2 : files w2 !! q = files w1 !! q).
  { apply download_header_cases in Hh
      as (_ & _ & [(_ & _ & ->) | (_ & r & Hd & _)]); [done |].
    apply downloadImage_frame in Hd as [Hf _]. apply Hf, Hq.
    apply list_elem_of_further, list_elem_of_here. }
  rewrite <- H1, <- H2. eapply download_icons_frame; [done |].
  intros pr Hpr. apply Hq. do 2 apply list_elem_of_further.
  by apply list_elem_of_fmap_2.
Qed.

Lemma download_all_frame l w l' w' q :
  download_all net fuel mediaDir l w = Completed (l', w') →
  (∀ s f, s ∈ l → f ∈ asset_names s → q ≠ path_join mediaDir f) →
  files w' !! q = files w !! q.
Proof.
  revert w l' w'. induction l as [| s l IH]; intros w l' w'; simpl.
  { by intros [= <- <-]. }
  destruct (download_story _ _ _ _ _) as [[s1 w1] | | |] eqn:Hs; [| done..].
  destruct (download_all _ _ _ _ _) as [[l1 w2] | | |] eqn:Hl; [| done..].
  intros [= <- <-] Hq.
  rewrite (IH _ _ _ Hl) by (intros; eapply Hq; [by apply list_elem_of_further | done]).
  eapply download_story_frame; [done |]. intros f Hf. eapply Hq; [apply list_elem_of_here | done].
Qed.

(** the asset names do not depend on the local path fields *)
Lemma asset_names_clear s : asset_names (clear_locals s) = asset_names s.
Proof.
  unfold asset_names; simpl. do 2 f_equal.
  rewrite <- list_fmap_compose. by apply list_fmap_ext.
Qed.

Lemma download_story_asset_names s w s' w' :
  download_story net fuel mediaDir s w = Completed (s', w') →
  asset_names s' = asset_names s.
Proof.
  intros H%download_story_clear.
  by rewrite <- (asset_names_clear s'), H, asset_names_clear.
Qed.

End DiskFacts.

Section NameFacts.

Lemma all_chars_app P s t :
  all_chars P (s +:+ t) = all_chars P s && all_chars P t.
Proof.
  induction s as [| c s IH]; [done |].
  rewrite app_cons. simpl. by rewrite IH, andb_assoc.
Qed.

Lemma digit_is_name_char c : is_digit c = true → is_name_char c = true.
Proof. unfold is_name_char. intros ->. by rewrite orb_true_r. Qed.

Lemma all_digits_name_chars s : all_digits s = true → all_chars is_name_char s = true.
Proof.
  induction s as [| c s IH]; simpl; [done |].
  intros [Hc Hs]%andb_prop. by rewrite (digit_is_name_char c Hc), IH.
Qed.

Lemma make_globalId_name_chars a b : all_chars is_name_char (make_globalId a b) = true.
Proof.
  unfold make_globalId. rewrite !all_chars_app.
  rewrite (all_digits_name_chars (pretty a)) by apply pretty_nat_digits.
  by rewrite (all_digits_name_chars (pretty b)) by apply pretty_nat_digits.
Qed.

Lemma sanitize_char_name_char c : is_name_char (sanitize_char c) = true.
Proof. by destruct c as [[] [] [] [] [] [] [] []]. Qed.

Lemma productSafeName_name_chars nm : all_chars is_name_char (productSafeName nm) = true.
Proof.
  rewrite productSafeName_chars. induction nm as [| c s IH]; simpl; [done |].
  by rewrite sanitize_char_name_char, IH.
Qed.

Lemma known_extension_name_chars e :
  e ∈ known_extensions → all_chars is_name_char e = true.
Proof.
  unfold known_extensions. rewrite !elem_of_cons, elem_of_nil.
  intros [-> | [-> | [-> | [-> | [-> | [-> | []]]]]]]; reflexivity.
Qed.

Lemma generateImageFilename_name_chars c gid type ext :
  all_chars is_name_char gid = true → all_chars is_name_char type = true →
  ext ∈ known_extensions →
  all_chars is_name_char (generateImageFilename c gid type ext) = true.
Proof.
  intros Hg Ht He. unfold generateImageFilename. rewrite !all_chars_app.
  by rewrite Hg, Ht, (known_extension_name_chars _ He).
Qed.

Lemma asset_names_name_chars s f :
  all_chars is_name_char (globalId s) = true →
  f ∈ asset_names s → all_chars is_name_char f = true.
Proof.
  intros Hg. unfold asset_names. rewrite !elem_of_cons.
  intros [-> | [-> | (pr & -> & _)%list_elem_of_fmap]].
  - apply generateImageFilename_name_chars;
      [done | done | apply getImageExtension_in_known].
  - apply generateImageFilename_name_chars;
      [done | done | apply getImageExtension_in_known].
  - unfold iconFilename. apply generateImageFilename_name_chars;
      [done | | apply getImageExtension_in_known].
    rewrite all_chars_app. by rewrite productSafeName_name_chars.
Qed.

End NameFacts.

(** X5: the download phase of a run leaves every path of the disk as it
    was, except paths {mediaDir}/{name} where name is the logo, header or
    icon file name of a record of the dataset; and each such name is made of
    lower-case letters, digits, underscores and dots only. *)
Theorem download_phase_writes_only_asset_files
    render net now finishedAt mediaDir fuel env w0 r :
  run render net now finishedAt mediaDir fuel env w0 = Completed r →
  (∀ q, (∀ s f, s ∈ stories (dataset r) → f ∈ asset_names s →
                q ≠ mediaDir +:+ "/" +:+ f) →
        files (world r) !! q = files w0 !! q) ∧
  (∀ s f, s ∈ stories (dataset r) → f ∈ asset_names s →
          all_chars is_name_char f = true).
Proof.
  intros Hrun. pose proof Hrun as (url & _ & _ & _ & _ & Hdl & _)%run_Completed.
  split.
  - intros q Hq.
    rewrite (download_all_frame _ _ _ _ _ _ _ q Hdl); [by rewrite files_ensure_dir |].
    intros s f Hs Hf.
    pose proof (download_all_Forall2 _ _ _ _ _ _ _ Hdl) as HF.
    apply list_elem_of_lookup_1 in Hs as (i & Hi).
    destruct (Forall2_lookup_l _ _ _ _ _ HF Hi) as (s' & Hi' & w1 & w2 & Hd).
    apply (Hq s' f); [by eapply list_elem_of_lookup_2 |].
    by rewrite (download_story_asset_names _ _ _ _ _ _ _ Hd).
  - intros s f Hs Hf.
    destruct (run_story_source _ _ _ _ _ _ _ _ _ _ Hrun Hs)
      as (s0 & w1 & w2 & _ & Hd & Hg & _).
    rewrite (download_story_asset_names _ _ _ _ _ _ _ Hd) in Hf.
    eapply asset_names_name_chars; [| done].
    rewrite Hg. apply make_globalId_name_chars.
Qed.

Lemma download_phase_writes_only_asset_files_witness :
  ∃ r, run DemoSmall.site Demo.all_ok "t0" "t1" DemoSmall.mediaDir 4
           (Some DemoSmall.seed) Demo.empty_disk = Completed r ∧
       ∀ s f, s ∈ stories (dataset r) → f ∈ asset_names s →
              all_chars is_name_char f = true.
Proof.
  eexists. split; [vm_compute; reflexivity |].
  eapply (download_phase_writes_only_asset_files
            DemoSmall.site Demo.all_ok "t0" "t1" DemoSmall.mediaDir 4
            (Some DemoSmall.seed) Demo.empty_disk).
  vm_compute; reflexivity.
Defined.

(** ** Failing downloads do not stop the run *)

Lemma all_fail_no_redirects net : all_fail net → no_redirects net.
Proof. intros H k u. by destruct (H k u). Qed.

Section IsolationFacts.
Variable net : Net.
Variable fuel : nat.
Variable mediaDir : string.
Hypothesis Hnet : all_fail net.

(** a download of a URL the loop does not skip settles *)
Lemma await_all_fail u path w :
  truthy u = true →
  ∃ r w', await (downloadImage net (S fuel) (Some u) path w) = Completed (r, w').
Proof.
  intros Hu. assert (Hne : u ≠ "") by (by intros ->).
  destruct (downloadImage_no_redirect_settles net fuel u path w
              (all_fail_no_redirects _ Hnet)) as (res & w' & Hd).
  rewrite Hd.
  destruct (downloadImage_all_fail net _ _ _ _ _ _ Hnet Hne Hd) as [[e ->] | [-> _]];
    simpl; eauto.
Qed.

Lemma download_logo_total s w :
  ∃ c w', download_logo net (S fuel) mediaDir s w = Completed (c, w').
Proof.
  unfold download_logo. destruct (truthy (logo (company s))) eqn:Hu; [| eauto].
  edestruct (await_all_fail (logo (company s))) as (r & w' & ->); eauto.
Qed.

Lemma download_header_total s w :
  ∃ m w', download_header net (S fuel) mediaDir s w = Completed (m, w').
Proof.
  unfold download_header. destruct (truthy (headerImage (media s))) eqn:Hu; [| eauto].
  edestruct (await_all_fail (headerImage (media s))) as (r & w' & ->); eauto.
Qed.

Lemma download_icons_total gid ps w :
  ∃ ps' w', download_icons net (S fuel) mediaDir gid ps w = Completed (ps', w').
Proof.
  revert w. induction ps as [| pr ps IH]; intros w; [simpl; eauto |].
  cbn [download_icons].
  assert (∃ pr' w1, download_icon net (S fuel) mediaDir gid pr w = Completed (pr', w1))
    as (pr' & w1 & ->).
  { unfold download_icon. destruct (truthy (icon pr)) eqn:Hu; [| eauto].
    edestruct (await_all_fail (icon pr)) as (r & w' & ->); eauto. }
  destruct (IH w1) as (ps' & w2 & ->). eauto.
Qed.

Lemma download_all_total l w :
  ∃ l' w', download_all net (S fuel) mediaDir l w = Completed (l', w').
Proof.
  revert w. induction l as [| s l IH]; intros w; [simpl; eauto |].
  cbn [download_all]. unfold download_story.
  destruct (download_logo_total s w) as (c & w1 & ->).
  destruct (download_header_total s w1) as (m & w2 & ->).
  destruct (download_icons_total (globalId s) (microsoftProducts s) w2)
    as (ps & w3 & ->).
  destruct (IH w3) as (l' & w4 & ->). eauto.
Qed.

End IsolationFacts.

Lemma run_when_downloads_fail render net now finishedAt mediaDir fuel url w0 st :
  all_fail net → url ≠ "" →
  page_loop render now url (S MAX_PAGES) initial = Completed st →
  allStories st ≠ [] →
  run render net now finishedAt mediaDir (S fuel) (Some url) w0 = TimedOut ∨
  ∃ r, run render net now finishedAt mediaDir (S fuel) (Some url) w0 = Completed r ∧
       loop r = st.
Proof.
  intros Hn Hu Hl Hs. unfold run.
  destruct url as [| c u]; [done |]. simpl is_empty. cbv iota.
  rewrite Hl. destruct (allStories st) as [| s0 l0] eqn:Ha; [done |].
  cbv zeta.
  match goal with
  | |- context [download_all _ _ _ _ ?w] =>
      destruct (download_all_total net fuel mediaDir Hn (s0 :: l0) w) as (l' & w' & ->)
  end.
  destruct (waited w' <=? TEST_TIMEOUT)%N; eauto.
Qed.

(** the run on the two-page site when every download times out: eighteen
    waits of thirty seconds, and the time limit ends the test *)
Example timeouts_end_the_run :
  run Demo.site DemoDown.silent "t0" "t1" Demo.mediaDir 4
      (Some Demo.seed) Demo.empty_disk = TimedOut.
Proof. vm_compute. reflexivity. Qed.

(** the run on the one-card site when the body of the logo is cut short: the
    download never settles, and the time limit ends the test *)
Example cut_body_ends_the_run :
  run DemoSmall.site DemoRedirect.cut_short "t0" "t1" DemoSmall.mediaDir 4
      (Some DemoSmall.seed) Demo.empty_disk = TimedOut.
Proof. vm_compute. reflexivity. Qed.

(** X6: when no download succeeds (every attempt fails or is answered by
    a status that is neither 200 nor a redirect), no error of a download
    ends the test: a run whose page loop collected records is completed,
    unless the time limit of the test ends it first. In the completed run
    totalStories is the number of records collected, and a local path is
    stored only where the remote URL is an inline-data URL. *)
Theorem failed_downloads_do_not_stop_the_run
    render net now finishedAt mediaDir fuel url w0 st :
  all_fail net → url ≠ "" →
  page_loop render now url (S MAX_PAGES) initial = Completed st →
  allStories st ≠ [] →
  run render net now finishedAt mediaDir (S fuel) (Some url) w0 = TimedOut ∨
  ∃ r, run render net now finishedAt mediaDir (S fuel) (Some url) w0 = Completed r ∧
       loop r = st ∧
       totalStories (metadata (dataset r)) = length (allStories st) ∧
       ∀ s, s ∈ stories (dataset r) →
         absent_or_inline (logoLocal (company s)) (logo (company s)) ∧
         absent_or_inline (headerImageLocal (media s)) (headerImage (media s)) ∧
         ∀ pr, pr ∈ microsoftProducts s → absent_or_inline (iconLocal pr) (icon pr).
Proof.
  intros Hn Hu Hl Hs.
  destruct (run_when_downloads_fail render net now finishedAt mediaDir fuel url w0 st
              Hn Hu Hl Hs) as [Ht | (r & Hrun & Hloop)]; [by left | right].
  exists r. split; [done |]. split; [done |]. split.
  { pose proof Hrun as (u & _ & _ & _ & _ & Hdl & ->)%run_Completed; simpl.
    rewrite <- Hloop. by eapply download_all_length. }
  intros s Hin.
  destruct (run_story_source _ _ _ _ _ _ _ _ _ _ Hrun Hin)
    as (s0 & w1 & w2 & _ & Hd & _ & Hl0 & Hh0 & Hi0).
  apply download_story_parts in Hd as (wa & wb & Hlg & Hhd & Hic & _).
  apply download_logo_cases in Hlg as (Hlu & Hlg).
  apply download_header_cases in Hhd as (Hhu & _ & Hhd).
  apply download_icons_Forall2 in Hic.
  unfold absent_or_inline. rewrite Hlu, Hhu. split; [| split].
  - destruct Hlg as [(_ & -> & _) | (Hne & rr & Hdi & ->)]; [by left |].
    destruct (downloadImage_all_fail net _ _ _ _ _ _ Hn Hne Hdi) as [[e ->] | [-> Hdata]].
    + left. by rewrite Hl0.
    + by right.
  - destruct Hhd as [(_ & -> & _) | (Hne & rr & Hdi & ->)]; [by left |].
    destruct (downloadImage_all_fail net _ _ _ _ _ _ Hn Hne Hdi) as [[e ->] | [-> Hdata]].
    + left. by rewrite Hh0.
    + by right.
  - intros pr Hpr.
    destruct (Forall2_elem_r _ _ _ _ Hic Hpr) as (pr0 & Hin0 & wc & wd & Hc).
    apply download_icon_cases in Hc
      as (_ & Hu' & _ & [(_ & -> & _) | (Hne & rr & Hdi & ->)]).
    + left. by apply Hi0.
    + rewrite Hu'.
      destruct (downloadImage_all_fail net _ _ _ _ _ _ Hn Hne Hdi) as [[e ->] | [-> Hdata]].
      * left. simpl. by apply Hi0.
      * by right.
Qed.

Lemma failed_downloads_do_not_stop_the_run_witness :
  ∃ r, run DemoSmall.site DemoDown.unreachable "t0" "t1" DemoSmall.mediaDir 1
           (Some DemoSmall.seed) Demo.empty_disk = Completed r ∧
       totalStories (metadata (dataset r)) = 1.
Proof.
  eassert (Hl : page_loop DemoSmall.site "t0" DemoSmall.seed (S MAX_PAGES) initial
                = Completed _) by (vm_compute; reflexivity).
  destruct (failed_downloads_do_not_stop_the_run
              DemoSmall.site DemoDown.unreachable "t0" "t1" DemoSmall.mediaDir 0
              DemoSmall.seed Demo.empty_disk _
              (λ k u, conj I eq_refl) ltac:(discriminate) Hl ltac:(discriminate))
    as [Ht | (r & Hrun & _ & Hn & _)].
  - vm_compute in Ht. discriminate Ht.
  - exists r. split; [exact Hrun | exact Hn].
Defined.

(** ** Order of the records and bound on the pages *)

Section ShapeFacts.
Variable render : string → option Page.
Variable now : string.
Variable url : string.

Lemma extract_from_keys_sorted pageNum index cs :
  StronglySorted key_lt (key <$> extract_from now pageNum index cs).
Proof.
  revert index. induction cs as [| card rest IH]; intros index; simpl.
  { constructor. }
  destruct (extract_card now pageNum index card) as [s0 |] eqn:E; [| apply IH].
  rewrite fmap_cons. apply StronglySorted_cons. split; [| apply IH].
  apply Forall_fmap, Forall_forall. intros s Hs. 
  pose proof (extract_from_position_gt _ _ _ _ _ Hs) as Hgt.
  apply extract_from_elem in Hs as (j & c & _ & Hc).
  apply extract_card_fields in Hc as (Hp & _).
  apply extract_card_fields in E as (Hp0 & Hpos0 & _).
  right. unfold key; simpl. split; [congruence | lia].
Qed.

Lemma extract_from_position_pos pageNum index cs s :
  s ∈ extract_from now pageNum index cs → 1 ≤ positionOnPage s.
Proof. intros H%extract_from_position_gt. lia. Qed.

Lemma loop_shape_initial : loop_shape render now url initial.
Proof.
  split; [apply accumulated_initial |].
  split; [unfold visited_head, initial, MAX_PAGES; simpl; split; [lia | done] |].
  split; [done |]. split; [constructor |]. by intros s ?%elem_of_nil.
Qed.

Lemma loop_shape_Next st st' :
  hasNextPage st = true → currentPage st ≤ MAX_PAGES → loop_shape render now url st →
  iteration render now url st = Next st' → loop_shape render now url st'.
Proof.
  intros Hh Hle (Hacc & Hv & Hf & Hs & He) Hi.
  pose proof (accumulated_Next _ _ _ _ _ Hh Hacc Hi) as Hacc'.
  pose proof (visited_head_Next _ _ _ _ _ Hh Hle Hv Hi) as Hv'.
  destruct Hacc as (_ & _ & Hlt). specialize (Hlt Hh).
  apply iteration_Next in Hi as (p & _ & _ & Hall & _ & He' & Hd).
  split; [done |]. split; [done |]. split; [| split].
  - destruct Hd as [(_ & _ & ->) | (_ & -> & _)]; [congruence | done].
  - rewrite Hall, fmap_app. apply StronglySorted_app_2; [| done |].
    + intros k1 k2 (s1 & -> & H1)%list_elem_of_fmap (s2 & -> & H2)%list_elem_of_fmap.
      apply Hlt in H1. apply extract_page_elem in H2 as [H2 _].
      left. unfold key; simpl. lia.
    + apply extract_from_keys_sorted.
  - intros s. rewrite Hall, He'. intros [Hin | Hin]%elem_of_app.
    + apply elem_of_app. left. by apply He.
    + apply extract_page_elem in Hin as [-> _]. apply elem_of_app. right.
      apply list_elem_of_here.
Qed.

Lemma accumulated_positions st s :
  accumulated render now url st → s ∈ allStories st → 1 ≤ positionOnPage s.
Proof.
  intros (_ & Hex & _) Hs. destruct (Hex _ Hs) as (p & _ & Hp).
  by eapply extract_from_position_pos.
Qed.

Lemma loop_shape_result_at_exit st :
  loop_shape render now url st →
  hasNextPage st && bool_decide (currentPage st ≤ MAX_PAGES) = false →
  loop_result st.
Proof.
  intros (Hacc & ([H1 H6] & Hee & Hr) & Hf & Hs & He) Hc.
  destruct (hasNextPage st) eqn:Hh; simpl in Hc.
  - apply bool_decide_eq_false in Hc.
    assert (currentPage st = S MAX_PAGES) as Hcp by lia.
    exists MAX_PAGES. rewrite Hcp in Hr.
    change (S MAX_PAGES - 1) with MAX_PAGES in Hr.
    split; [unfold MAX_PAGES; lia |]. split; [done |]. split; [lia |]. split; [done |].
    intros s Hin. split; [| by eapply accumulated_positions].
    specialize (He _ Hin). rewrite Hee, Hr in He.
    apply elem_of_seq in He. lia.
  - specialize (Hf eq_refl). exists (currentPage st).
    split; [lia |]. split; [done |]. split; [lia |]. split; [done |].
    intros s Hin. split; [| by eapply accumulated_positions].
    specialize (He _ Hin). rewrite Hee, Hr in He.
    apply elem_of_seq in He. lia.
Qed.

Lemma loop_shape_result_at_break st st' :
  hasNextPage st = true → currentPage st ≤ MAX_PAGES → loop_shape render now url st →
  iteration render now url st = Break st' → loop_result st'.
Proof.
  intros Hh Hle (Hacc & ([H1 H6] & Hee & Hr) & Hf & Hs & He) Hi.
  pose proof (accumulated_Break _ _ _ _ _ Hacc Hi) as Hacc'.
  apply iteration_Break in Hi as (p & _ & _ & Hall & Hcp & Hh' & Hr' & He').
  rewrite Hh in Hr. exists (currentPage st).
  rewrite Hr', Hr, Hcp, Hall, seq_1_snoc by done.
  split; [lia |]. split; [done |]. split; [lia |]. split; [done |].
  intros s Hin. split.
  - specialize (He _ Hin). rewrite Hee, Hr in He. apply elem_of_seq in He. lia.
  - eapply accumulated_positions; [exact Hacc' | by rewrite Hall].
Qed.

Lemma page_loop_result fuel st :
  page_loop render now url fuel initial = Completed st → loop_result st.
Proof.
  intros Hl.
  refine (page_loop_rule render now url (loop_shape render now url) loop_result
            _ _ _ fuel initial st _ Hl).
  - apply loop_shape_Next.
  - apply loop_shape_result_at_break.
  - apply loop_shape_result_at_exit.
  - apply loop_shape_initial.
Qed.

End ShapeFacts.

Lemma run_keys_preserved render net now finishedAt mediaDir fuel env w0 r :
  run render net now finishedAt mediaDir fuel env w0 = Completed r →
  key <$> stories (dataset r) = key <$> allStories (loop r).
Proof.
  intros (url & _ & _ & _ & _ & Hdl & _)%run_Completed.
  pose proof (download_all_identity _ _ _ _ _ _ _ Hdl) as Hid.
  change key with ((λ t, (t.1.1.1.1, t.1.1.1.2)) ∘ identity).
  by rewrite !list_fmap_compose, Hid.
Qed.

(** X7: the records of the dataset are in the order of extraction: strictly
    increasing by page number and, within a page, by position. *)
Theorem records_are_ordered_by_page_and_position
    render net now finishedAt mediaDir fuel env w0 r :
  run render net now finishedAt mediaDir fuel env w0 = Completed r →
  StronglySorted
    (λ a b, a.1 < b.1 ∨ (a.1 = b.1 ∧ a.2 < b.2))
    ((λ s, (page s, positionOnPage s)) <$> stories (dataset r)).
Proof.
  intros Hrun. change (StronglySorted key_lt (key <$> stories (dataset r))).
  rewrite (run_keys_preserved _ _ _ _ _ _ _ _ _ Hrun).
  apply run_Completed in Hrun as (url & _ & _ & Hloop & _).
  by apply page_loop_result in Hloop as (k & _ & _ & _ & Hs & _).
Qed.

Lemma records_are_ordered_by_page_and_position_witness :
  ∃ r, run Demo.site DemoDown.unreachable "t0" "t1" Demo.mediaDir 1
           (Some Demo.seed) Demo.empty_disk = Completed r ∧
       (λ s, (page s, positionOnPage s)) <$> stories (dataset r)
       = [(1, 1); (1, 2); (1, 3); (2, 1); (2, 2); (2, 3)] ∧
       StronglySorted
         (λ a b, a.1 < b.1 ∨ (a.1 = b.1 ∧ a.2 < b.2))
         ((λ s, (page s, positionOnPage s)) <$> stories (dataset r)).
Proof.
  eassert (Hrun : run Demo.site DemoDown.unreachable "t0" "t1" Demo.mediaDir 1
                      (Some Demo.seed) Demo.empty_disk = Completed _)
    by (vm_compute; reflexivity).
  eexists. split; [exact Hrun |]. split; [reflexivity |].
  exact (records_are_ordered_by_page_and_position _ _ _ _ _ _ _ _ _ Hrun).
Defined.

Lemma run_page_bounds render net now finishedAt mediaDir fuel env w0 r :
  run render net now finishedAt mediaDir fuel env w0 = Completed r →
  ∃ k, 1 ≤ k ≤ 5 ∧
       renderedPages (loop r) = seq 1 k ∧
       k ≤ totalPages (metadata (dataset r)) ≤ S k ∧
       ∀ s, s ∈ stories (dataset r) → 1 ≤ page s ≤ k ∧ 1 ≤ positionOnPage s.
Proof.
  intros Hrun. pose proof (run_keys_preserved _ _ _ _ _ _ _ _ _ Hrun) as Hk.
  apply run_Completed in Hrun as (url & _ & _ & Hloop & _ & _ & ->); simpl.
  apply page_loop_result in Hloop as (k & Hk5 & Hr & Hcp & _ & Hp).
  exists k. split; [done |]. split; [done |]. split; [done |].
  intros s Hs.
  assert (Hin : key s ∈ key <$> allStories (loop r)).
  { rewrite <- Hk. by apply list_elem_of_fmap_2. }
  apply list_elem_of_fmap in Hin as (s0 & Heq & Hs0).
  unfold key in Heq. injection Heq as -> ->. by apply Hp.
Qed.

(** X8: a completed run rendered the pages 1 to k in this order for some k
    between 1 and 5, never a sixth; totalPages is k or k + 1; every record
    has a page number between 1 and k and a position of at least 1. *)
Theorem at_most_five_pages_are_visited
    render net now finishedAt mediaDir fuel env w0 r :
  run render net now finishedAt mediaDir fuel env w0 = Completed r →
  ∃ k, 1 ≤ k ≤ 5 ∧
       renderedPages (loop r) = seq 1 k ∧
       k ≤ totalPages (metadata (dataset r)) ≤ S k ∧
       ∀ s, s ∈ stories (dataset r) → 1 ≤ page s ≤ k ∧ 1 ≤ positionOnPage s.
Proof. apply run_page_bounds. Qed.

Lemma at_most_five_pages_are_visited_witness :
  ∃ r k, run DemoCap.nine_pages DemoDown.unreachable "t0" "t1" DemoSmall.mediaDir 1
             (Some Demo.seed) Demo.empty_disk = Completed r ∧
         1 ≤ k ≤ 5 ∧ renderedPages (loop r) = seq 1 k.
Proof.
  eassert (Hrun : run DemoCap.nine_pages DemoDown.unreachable "t0" "t1"
                      DemoSmall.mediaDir 1 (Some Demo.seed) Demo.empty_disk
                  = Completed _) by (vm_compute; reflexivity).
  destruct (at_most_five_pages_are_visited _ _ _ _ _ _ _ _ _ Hrun)
    as (k & Hk & Hr & _).
  eexists _, k. split; [exact Hrun |]. split; [exact Hk | exact Hr].
Defined.

(** ** Page URLs and a first page that fails *)

Section UrlFacts.

Lemma app_self_empty s t : s = s +:+ t → t = "".
Proof.
  induction s as [| c s IH]; [done |].
  rewrite app_cons. intros [= H]. by apply IH.
Qed.

Lemma pageUrl_inj base n m : pageUrl base n = pageUrl base m → n = m.
Proof.
  unfold pageUrl. do 2 case_decide; subst; try done.
  - intros He%app_self_empty. done.
  - intros He. symmetry in He. apply app_self_empty in He. done.
  - intros He. apply (inj (String.app base)) in He.
    apply (inj (String.app "&page=")) in He. by apply (inj pretty).
Qed.

End UrlFacts.

(** X9: the URLs of two different page numbers differ, whatever the seed
    URL: page 1 is the seed itself and page n is the seed followed by
    &page=n. *)
Theorem page_urls_are_distinct base n m :
  n ≠ m → pageUrl base n ≠ pageUrl base m.
Proof. intros Hne H. by apply pageUrl_inj in H. Qed.

Lemma page_urls_are_distinct_witness :
  pageUrl DemoSmall.seed 1 ≠ pageUrl DemoSmall.seed 2.
Proof. apply (page_urls_are_distinct DemoSmall.seed 1 2). lia. Defined.

(** X10: no dataset is produced when BASE_URL is missing or empty, when the
    first page does not render, or when it renders without any card. *)
Theorem run_fails_without_a_first_page
    render net now finishedAt mediaDir fuel env w0 :
  env = None ∨ env = Some "" ∨
  (∃ url, env = Some url ∧
          (render url = None ∨ ∃ p, render url = Some p ∧ cards p = [])) →
  run render net now finishedAt mediaDir fuel env w0 = Fatal.
Proof.
  intros [-> | [-> | (url & -> & H)]]; [done | done |].
  unfold run. destruct (is_empty url); [done |].
  cbn [page_loop initial hasNextPage currentPage]. 
  rewrite bool_decide_eq_true_2 by (unfold MAX_PAGES; lia). cbn [andb].
  unfold iteration. change (pageUrl url (currentPage initial)) with url.
  destruct H as [-> | (p & -> & ->)]; done.
Qed.

Lemma run_fails_without_a_first_page_witness :
  run (λ _, None) Demo.all_ok "t0" "t1" DemoSmall.mediaDir 1
      (Some DemoSmall.seed) Demo.empty_disk = Fatal.
Proof.
  apply run_fails_without_a_first_page.
  right; right. exists DemoSmall.seed. split; [reflexivity | by left].
Defined.

(** ** The keys of [storiesPerPage] *)

Section KeyFacts.

Lemma foldl_count_keys l acc k v :
  foldl count_story acc l !! k = Some v →
  is_Some (acc !! k) ∨ ∃ s, s ∈ l ∧ k = pretty (page s).
Proof.
  revert acc. induction l as [| s l IH]; intros acc; simpl; [eauto |].
  intros [Hs | (s' & Hin & ->)]%IH.
  - unfold count_story in Hs.
    destruct (decide (k = pretty (page s))) as [-> | Hne].
    + right. exists s. split; [apply list_elem_of_here | done].
    + rewrite lookup_insert_ne in Hs by done. by left.
  - right. exists s'. split; [by apply list_elem_of_further | done].
Qed.

Lemma count_per_page_entry l k v :
  count_per_page l !! k = Some v →
  ∃ n, k = pretty n ∧ (∃ s, s ∈ l ∧ page s = n) ∧
       v = length (filter (λ s, page s = n) l).
Proof.
  intros Hk. pose proof Hk as [Hs | (s & Hin & ->)]%foldl_count_keys.
  { rewrite lookup_empty in Hs. by destruct Hs. }
  exists (page s). split; [done |]. split; [eauto |].
  pose proof (count_per_page_lookup l (page s)) as Hc. by rewrite Hk in Hc.
Qed.

End KeyFacts.

(** X11: storiesPerPage has an entry only for a page number between 1 and 5
    on which at least one record was found; the entry is the number of these
    records and is at least 1. *)
Theorem storiesPerPage_has_no_empty_entry
    render net now finishedAt mediaDir fuel env w0 r k v :
  run render net now finishedAt mediaDir fuel env w0 = Completed r →
  storiesPerPage (metadata (dataset r)) !! k = Some v →
  ∃ n, k = pretty n ∧ 1 ≤ n ≤ 5 ∧ 1 ≤ v ∧
       v = length (filter (λ s, page s = n) (stories (dataset r))).
Proof.
  intros Hrun Hk.
  destruct (run_page_bounds _ _ _ _ _ _ _ _ _ Hrun) as (j & Hj & _ & _ & Hp).
  apply run_Completed in Hrun as (url & _ & _ & _ & _ & _ & Hm).
  rewrite Hm in Hk. simpl in Hk.
  apply count_per_page_entry in Hk as (n & -> & (s & Hin & <-) & ->).
  exists (page s). split; [done |]. destruct (Hp _ Hin) as [Hps _].
  split; [lia |]. split; [| done].
  assert (Hf : s ∈ filter (λ s0, page s0 = page s) (stories (dataset r))).
  { by apply list_elem_of_filter. }
  destruct (filter _ _); [by apply elem_of_nil in Hf | simpl; lia].
Qed.

Lemma storiesPerPage_has_no_empty_entry_witness :
  ∃ r n, run DemoSmall.site Demo.all_ok "t0" "t1" DemoSmall.mediaDir 4
             (Some DemoSmall.seed) Demo.empty_disk = Completed r ∧
         "1" = pretty n ∧ 1 ≤ n ≤ 5.
Proof.
  eassert (Hrun : run DemoSmall.site Demo.all_ok "t0" "t1" DemoSmall.mediaDir 4
                      (Some DemoSmall.seed) Demo.empty_disk = Completed _)
    by (vm_compute; reflexivity).
  destruct (storiesPerPage_has_no_empty_entry _ _ _ _ _ _ _ _ _ "1" 1 Hrun)
    as (n & Hn & Hb & _).
  { vm_compute; reflexivity. }
  eexists _, n. split; [exact Hrun |]. split; [exact Hn | exact Hb].
Defined.

(** ** The oracle on announcements that are accurate *)

Section AnnouncementFacts.

Lemma digit_of_pretty_char d :
  (d < 10)%N → digit_of 10 (pretty_N_char d) = Some d.
Proof.
  intros Hd.
  assert (d = 0 ∨ d = 1 ∨ d = 2 ∨ d = 3 ∨ d = 4 ∨ d = 5 ∨ d = 6 ∨ d = 7
          ∨ d = 8 ∨ d = 9)%N as Hc by lia.
  destruct Hc as [-> | [-> | [-> | [-> | [-> | [-> | [-> | [-> | [-> | ->]]]]]]]]];
    reflexivity.
Qed.

(** reading back the digits that [pretty] wrote in front of a string *)
Lemma parse_digits_pretty_go x s a :
  ∃ k, parse_digits 10 (pretty_N_go x s) (Some a)
       = parse_digits 10 s (Some (a * 10 ^ k + x)%N).
Proof.
  revert s. induction (N.lt_wf_0 x) as [x _ IH]; intros s.
  destruct (decide (x = 0)%N) as [-> | Hx].
  - exists 0%N. rewrite pretty_N_go_0. do 2 f_equal. lia.
  - rewrite pretty_N_go_step by lia.
    destruct (IH (x `div` 10)%N) with (s := String (pretty_N_char (x `mod` 10)) s)
      as [k Hk]; [apply N.div_lt; lia |].
    exists (k + 1)%N. rewrite Hk. simpl parse_digits.
    rewrite digit_of_pretty_char by (apply N.mod_lt; lia). simpl default.
    do 2 f_equal. rewrite N.pow_add_r, N.pow_1_r.
    pose proof (N.div_mod x 10). lia.
Qed.

Lemma pretty_N_go_nonempty x s : s ≠ "" ∨ (0 < x)%N → pretty_N_go x s ≠ "".
Proof.
  revert s. induction (N.lt_wf_0 x) as [x _ IH]; intros s Hs.
  destruct (decide (x = 0)%N) as [-> | Hx].
  - rewrite pretty_N_go_0. destruct Hs; [done | lia].
  - rewrite pretty_N_go_step by lia. apply IH; [apply N.div_lt; lia | by left].
Qed.

Lemma pretty_N_digits (n : N) : all_digits (pretty n) = true ∧ pretty n ≠ "".
Proof.
  unfold pretty, pretty_N. case_decide; [done |].
  split; [by apply pretty_N_go_digits | apply pretty_N_go_nonempty; right; lia].
Qed.

Lemma parse_digits_from_None s :
  all_digits s = true → s ≠ "" →
  parse_digits 10 s None = parse_digits 10 s (Some 0%N).
Proof.
  destruct s as [| c t]; [done |]. simpl. intros [Hc _]%andb_prop _.
  by rewrite (digit_of_decimal c Hc).
Qed.

Lemma parse_digits_pretty (n : N) : parse_digits 10 (pretty n) None = Some n.
Proof.
  destruct (pretty_N_digits n) as [Hd Hne].
  rewrite parse_digits_from_None by done.
  unfold pretty, pretty_N. case_decide as Hn; [by subst |].
  destruct (parse_digits_pretty_go n "" 0) as [k ->]. simpl. f_equal; lia.
Qed.

(** [parseInt] of digits is the number [parse_digits] reads *)
Lemma parseInt_of_digits x n :
  all_digits x = true → x ≠ "" →
  parse_digits 10 x None = Some n → parseInt x = Some (Z.of_N (to_double n)).
Proof.
  intros Hx Hne Hp. destruct x as [| c t]; [done |].
  pose proof Hx as Hx'. simpl in Hx'. apply andb_prop in Hx' as [Hc Ht].
  unfold parseInt. simpl trimStart. rewrite (digit_not_white c Hc).
  rewrite !(digit_eqb_other c) by done.
  rewrite !startsWith_digits_no_hex_prefix by done. simpl orb. cbv iota beta.
  by rewrite Hp.
Qed.

(** number to text and back: the double nearest to the number *)
Lemma parseInt_pretty (n : nat) :
  parseInt (pretty n) = Some (Z.of_N (to_double (N.of_nat n))).
Proof.
  unfold pretty, pretty_nat. destruct (pretty_N_digits (N.of_nat n)) as [Hd Hne].
  by rewrite (parseInt_of_digits _ (N.of_nat n)); [| done | done | apply parse_digits_pretty].
Qed.

Lemma span_digits_app d r :
  all_digits d = true →
  match r with String c _ => is_digit c = false | EmptyString => True end →
  span_digits (d +:+ r) = (d, r).
Proof.
  intros Hd Hr. induction d as [| c d IH].
  - rewrite app_empty. destruct r as [| c r]; [done |]. simpl. by rewrite Hr.
  - rewrite app_cons. simpl in Hd |- *. apply andb_prop in Hd as [Hc Hd].
    by rewrite Hc, (IH Hd).
Qed.

Lemma prefix_app p r : String.prefix p (p +:+ r) = true.
Proof.
  induction p as [| c p IH]; [by destruct r |].
  rewrite app_cons, prefix_cons. by destruct (ascii_dec c c).
Qed.

Lemma drop_app p r : drop (String.length p) (p +:+ r) = r.
Proof. induction p as [| c p IH]; [by destruct r | by rewrite app_cons]. Qed.

Lemma strip_prefix_app p r : strip_prefix p (p +:+ r) = Some r.
Proof. unfold strip_prefix. by rewrite prefix_app, drop_app. Qed.

Lemma span_digits_all d : all_digits d = true → span_digits d = (d, "").
Proof.
  induction d as [| c d IH]; simpl; [done |].
  intros [Hc Hd]%andb_prop. by rewrite Hc, (IH Hd).
Qed.

Lemma is_empty_false s : s ≠ "" → is_empty s = false.
Proof. by destruct s. Qed.

Lemma pretty_nat_nonempty (n : nat) : pretty n ≠ "".
Proof. apply (pretty_N_digits (N.of_nat n)). Qed.

Lemma match_page_of_accurate (k n : nat) :
  match_page_of ("Page " +:+ pretty k +:+ " of " +:+ pretty n)
  = Some (pretty k, pretty n).
Proof.
  assert (Hh : match_page_of_here ("Page " +:+ pretty k +:+ " of " +:+ pretty n)
               = Some (pretty k, pretty n)).
  { unfold match_page_of_here.
    rewrite strip_prefix_app.
    rewrite span_digits_app by (apply pretty_nat_digits || done).
    rewrite (is_empty_false (pretty k)) by apply pretty_nat_nonempty.
    rewrite strip_prefix_app.
    rewrite span_digits_all by apply pretty_nat_digits.
    by rewrite (is_empty_false (pretty n)) by apply pretty_nat_nonempty. }
  rewrite app_cons in Hh |- *.
  change (match_page_of (String "P" ?t))
    with (match match_page_of_here (String "P" t) with
          | Some m => Some m
          | None => match_page_of t
          end).
  by rewrite Hh.
Qed.

Lemma oracle_accurate p cp n :
  1 ≤ cp → (N.of_nat cp < 2 ^ 53)%N → announces p cp n →
  (oracle p cp = true ↔ cp < n).
Proof.
  intros Hcp Hb [H1 Ht].
  destruct (oracle_announcement p cp (pretty cp) (pretty n)
              (to_double (N.of_nat cp)) (to_double (N.of_nat n)))
    as [_ Hiff]; [done | | | |].
  - rewrite Ht. apply match_page_of_accurate.
  - apply parseInt_pretty.
  - apply parseInt_pretty.
  - rewrite Hiff, (to_double_small _ Hb).
    destruct (N.lt_ge_cases (N.of_nat n) (2 ^ 53)) as [Hn | Hn].
    + rewrite (to_double_small _ Hn). lia.
    + pose proof (to_double_large _ Hn). lia.
Qed.

(** the same for any counter: what is compared are the doubles *)
Lemma oracle_accurate_doubles p cp n :
  1 ≤ cp → announces p cp n →
  (oracle p cp = true ↔
   (to_double (N.of_nat cp) < to_double (N.of_nat n))%N ∧
   (N.of_nat cp < to_double (N.of_nat n))%N).
Proof.
  intros Hcp [H1 Ht].
  destruct (oracle_announcement p cp (pretty cp) (pretty n)
              (to_double (N.of_nat cp)) (to_double (N.of_nat n)))
    as [_ Hiff]; [done | | | |].
  - rewrite Ht. apply match_page_of_accurate.
  - apply parseInt_pretty.
  - apply parseInt_pretty.
  - rewrite Hiff. split; [by intros (? & _ & ?) |].
    intros [? ?]. split; [done |]. split; [lia | done].
Qed.

(** the counters of the loop are far below [2^53] *)
Lemma counter_is_a_double k : k ≤ S MAX_PAGES → (N.of_nat k < 2 ^ 53)%N.
Proof.
  intros Hk. apply N.lt_le_trans with 7%N; [unfold MAX_PAGES in Hk; lia | done].
Qed.

Lemma oracle_fallback_iff p cp :
  signal1 p = false → match_page_of (paginationText p) = None →
  (oracle p cp = true ↔
   rightArrow p = None ∨
   ∃ b, rightArrow p = Some b ∧ ("disabled" ∉ nb_classList b) ∧
        nb_ariaDisabled b ≠ Some "true").
Proof.
  intros H1 Hm. destruct (oracle_fallback p cp H1 Hm) as [_ ->].
  unfold nextButtonDisabled, classList_contains.
  destruct (rightArrow p) as [b |]; simpl; [| split; [by left | done]].
  rewrite negb_true_iff, orb_false_iff, !bool_decide_eq_false. split.
  - intros [Hc Ha]. right. by exists b.
  - intros [? | (b' & [= <-] & Hc & Ha)]; done.
Qed.

End AnnouncementFacts.

(** X12: when the first signal is not conclusive and the page announces
    'Page k of n' for the page number k the loop is on (k at least 1), the
    loop goes on to the next page exactly when k < n, for every k below
    2^53 (the counter of the loop never exceeds 6) and every n, those
    included that [parseInt] rounds. For any k it goes on exactly when the
    double nearest to k is below the double nearest to n, and k is. *)
Theorem accurate_announcement_continues_until_last_page p cp n :
  1 ≤ cp →
  signal1 p = false →
  paginationText p = "Page " +:+ pretty cp +:+ " of " +:+ pretty n →
  ((N.of_nat cp < 2 ^ 53)%N → (oracle p cp = true ↔ cp < n)) ∧
  (oracle p cp = true ↔
   (to_double (N.of_nat cp) < to_double (N.of_nat n))%N ∧
   (N.of_nat cp < to_double (N.of_nat n))%N).
Proof.
  intros Hcp H1 Ht. split.
  - intros Hb. by apply oracle_accurate.
  - by apply oracle_accurate_doubles.
Qed.

Lemma accurate_announcement_continues_until_last_page_witness :
  oracle (DemoOracle.visible_bar (Some "Page 3 of 4") None) 3 = true.
Proof.
  destruct (accurate_announcement_continues_until_last_page
              (DemoOracle.visible_bar (Some "Page 3 of 4") None) 3 4)
    as [Hsmall _]; [lia | reflexivity | reflexivity |].
  apply Hsmall; [reflexivity | lia].
Defined.

(** X13: when neither the first signal nor an announcement decides, the
    loop goes on exactly when the next control is absent, or present without
    the class disabled and without aria-disabled = true. *)
Theorem fallback_continues_unless_next_is_disabled p cp :
  signal1 p = false →
  match_page_of (paginationText p) = None →
  (oracle p cp = true ↔
   rightArrow p = None ∨
   ∃ b, rightArrow p = Some b ∧ ("disabled" ∉ nb_classList b) ∧
        nb_ariaDisabled b ≠ Some "true").
Proof. apply oracle_fallback_iff. Qed.

Lemma fallback_continues_unless_next_is_disabled_witness :
  oracle (DemoOracle.visible_bar None (Some DemoOracle.enabled_arrow)) 1 = true.
Proof.
  apply (fallback_continues_unless_next_is_disabled
           (DemoOracle.visible_bar None (Some DemoOracle.enabled_arrow)) 1);
    [reflexivity | reflexivity |].
  right. exists DemoOracle.enabled_arrow.
  split; [reflexivity |]. split; [| discriminate].
  intros [? | ?%elem_of_nil]%elem_of_cons; done.
Defined.

(** ** The loop on a site whose announcements are accurate *)

Section AccurateSite.
Variable render : string → option Page.
Variable now : string.
Variable url : string.
Variable n : nat.
Hypothesis Hsite :
  ∀ k, 1 ≤ k → k ≤ n → k ≤ MAX_PAGES →
       ∃ p, render (pageUrl url k) = Some p ∧ cards p ≠ [] ∧ announces p k n.

Lemma page_loop_done fuel st :
  hasNextPage st && bool_decide (currentPage st ≤ MAX_PAGES) = false →
  page_loop render now url fuel st = Completed st.
Proof. intros Hc. destruct fuel; simpl; by rewrite Hc. Qed.

Lemma records_of_pages_cons first count :
  records_of_pages render now url first (S count)
  = match render (pageUrl url first) with
    | Some p => extract_page now first p
    | None => []
    end ++ records_of_pages render now url (S first) count.
Proof. reflexivity. Qed.

Lemma records_of_pages_1_app first count :
  records_of_pages render now url first 1
    ++ records_of_pages render now url (S first) count
  = records_of_pages render now url first (S count).
Proof.
  rewrite !records_of_pages_cons.
  change (records_of_pages render now url (S first) 0) with (@nil StoryRecord).
  by rewrite app_nil_r.
Qed.

Lemma iteration_accurate st :
  1 ≤ currentPage st → currentPage st ≤ n → currentPage st ≤ MAX_PAGES →
  iteration render now url st
  = Next {| allStories :=
              allStories st ++ records_of_pages render now url (currentPage st) 1;
            currentPage :=
              if bool_decide (currentPage st < n) then S (currentPage st)
              else currentPage st;
            hasNextPage :=
              if bool_decide (currentPage st < n) then hasNextPage st else false;
            renderedPages := renderedPages st ++ [currentPage st];
            extractedPages := extractedPages st ++ [currentPage st] |}.
Proof.
  intros H1 Hn H5. destruct (Hsite _ H1 Hn H5) as (p & Hr & Hc & Ha).
  unfold iteration. rewrite records_of_pages_cons, Hr.
  destruct (cards p) as [| c cs] eqn:Hcs; [done |].
  change (records_of_pages render now url (S (currentPage st)) 0) with (@nil StoryRecord).
  rewrite app_nil_r.
  assert (Hb : (N.of_nat (currentPage st) < 2 ^ 53)%N)
    by (apply counter_is_a_double; lia).
  pose proof (oracle_accurate p (currentPage st) n H1 Hb Ha) as Ho.
  case_bool_decide as Hlt.
  - by rewrite (proj2 Ho Hlt).
  - destruct (oracle p (currentPage st)); [| done]. destruct Hlt. by apply Ho.
Qed.

Lemma page_loop_accurate_from j :
  ∀ fuel st,
    hasNextPage st = true → 1 ≤ currentPage st →
    currentPage st + j = n `min` MAX_PAGES → j < fuel →
    page_loop render now url fuel st
    = Completed
        {| allStories :=
             allStories st ++ records_of_pages render now url (currentPage st) (S j);
           currentPage := if bool_decide (n ≤ MAX_PAGES) then n else S MAX_PAGES;
           hasNextPage := bool_decide (MAX_PAGES < n);
           renderedPages := renderedPages st ++ seq (currentPage st) (S j);
           extractedPages := extractedPages st ++ seq (currentPage st) (S j) |}.
Proof.
  induction j as [| j IH]; intros fuel st Hh H1 Hm Hf;
    (destruct fuel as [| fuel]; [lia |]); simpl page_loop;
    rewrite Hh, bool_decide_eq_true_2 by lia; simpl andb; cbv iota;
    rewrite iteration_accurate by lia.
  - rewrite page_loop_done.
    + f_equal. case_bool_decide as Hlt; simpl.
      * rewrite bool_decide_eq_false_2, bool_decide_eq_true_2 by lia.
        rewrite Hh. do 2 f_equal; lia.
      * rewrite bool_decide_eq_true_2, bool_decide_eq_false_2 by lia.
        do 2 f_equal; lia.
    + simpl. case_bool_decide as Hlt; simpl; [| done].
      rewrite Hh. simpl. apply bool_decide_eq_false_2. lia.
  - rewrite bool_decide_eq_true_2 by lia.
    rewrite IH by (simpl; lia || done). simpl.
    rewrite <- !app_assoc, records_of_pages_1_app. reflexivity.
Qed.

Lemma page_loop_accurate :
  1 ≤ n →
  page_loop render now url (S MAX_PAGES) initial
  = Completed
      {| allStories := records_of_pages render now url 1 (n `min` MAX_PAGES);
         currentPage := if bool_decide (n ≤ MAX_PAGES) then n else S MAX_PAGES;
         hasNextPage := bool_decide (MAX_PAGES < n);
         renderedPages := seq 1 (n `min` MAX_PAGES);
         extractedPages := seq 1 (n `min` MAX_PAGES) |}.
Proof.
  intros Hn.
  assert (Hm : S (n `min` MAX_PAGES - 1) = n `min` MAX_PAGES)
    by (unfold MAX_PAGES; lia).
  rewrite (page_loop_accurate_from (n `min` MAX_PAGES - 1) (S MAX_PAGES) initial);
    [| reflexivity | cbn; lia | cbn; unfold MAX_PAGES; lia | unfold MAX_PAGES; lia].
  rewrite Hm. reflexivity.
Qed.

End AccurateSite.

(** X14: on a site of n pages (n at least 1) whose pages 1 to min(n, 5)
    render with at least one card, a pagination bar that is not hidden and
    the accurate announcement 'Page k of n', the loop visits exactly the
    pages 1 to min(n, 5) in order and accumulates their records page by page;
    it leaves the counter at n when n is at most 5 and at 6 otherwise. *)
Theorem loop_on_a_site_with_accurate_announcements
    (render : string → option Page) (now url : string) (n : nat) :
  1 ≤ n →
  (∀ k, 1 ≤ k → k ≤ n → k ≤ 5 →
        ∃ p, render (pageUrl url k) = Some p ∧ cards p ≠ [] ∧
             signal1 p = false ∧
             paginationText p = "Page " +:+ pretty k +:+ " of " +:+ pretty n) →
  ∃ st, page_loop render now url 6 initial = Completed st ∧
        renderedPages st = seq 1 (n `min` 5) ∧
        extractedPages st = seq 1 (n `min` 5) ∧
        allStories st = records_of_pages render now url 1 (n `min` 5) ∧
        currentPage st = (if bool_decide (n ≤ 5) then n else 6).
Proof.
  intros Hn Hsite. eexists. split; [by apply page_loop_accurate |]. done.
Qed.

Lemma loop_on_a_site_with_accurate_announcements_witness :
  ∃ st, page_loop DemoCap.nine_pages "t0" Demo.seed 6 initial = Completed st ∧
        renderedPages st = [1; 2; 3; 4; 5] ∧ currentPage st = 6.
Proof.
  destruct (loop_on_a_site_with_accurate_announcements
              DemoCap.nine_pages "t0" Demo.seed 9) as (st & Hl & Hr & _ & _ & Hc).
  - lia.
  - intros k H1 _ H5.
    assert (k = 1 ∨ k = 2 ∨ k = 3 ∨ k = 4 ∨ k = 5) as Hk by lia.
    destruct Hk as [-> | [-> | [-> | [-> | ->]]]];
      (eexists; split; [reflexivity |]; split; [discriminate |];
       split; reflexivity).
  - exists st. split; [exact Hl |]. split; [exact Hr | exact Hc].
Defined.

(** ** Texts of the records *)

Section TrimFacts.

Lemma trimStart_starts s : starts_white (trimStart s) = false.
Proof.
  induction s as [| c t IH]; simpl; [done |].
  destruct (is_white c) eqn:Hc; [done | simpl; by rewrite Hc].
Qed.

Lemma trimEnd_ends s : ends_white (trimEnd s) = false.
Proof.
  induction s as [| c t IH]; simpl; [done |].
  destruct (is_white c) eqn:Hc, (is_empty (trimEnd t)) eqn:He; simpl;
    rewrite ?He, ?Hc, ?IH; try done.
Qed.

Lemma trimEnd_starts s : starts_white s = false → starts_white (trimEnd s) = false.
Proof.
  destruct s as [| c t]; simpl; [done |]. intros Hc. rewrite Hc. simpl. exact Hc.
Qed.

Lemma trimStart_id s : starts_white s = false → trimStart s = s.
Proof. destruct s as [| c t]; simpl; [done |]. by intros ->. Qed.

Lemma trimEnd_id s : ends_white s = false → trimEnd s = s.
Proof.
  induction s as [| c t IH]; simpl; [done |].
  destruct t as [| c' t']; simpl in *.
  - by intros ->.
  - intros H. rewrite (IH H). destruct (is_white c); simpl; [| done].
    specialize (IH H). destruct (is_white c' && is_empty (trimEnd t')); done.
Qed.

Lemma trim_trimmed s : trimmed (trim s).
Proof.
  assert (Hs : starts_white (trim s) = false)
    by (apply trimEnd_starts, trimStart_starts).
  assert (He : ends_white (trim s) = false) by apply trimEnd_ends.
  split; [done |]. split; [done |].
  unfold trim at 1. by rewrite (trimStart_id _ Hs), (trimEnd_id _ He).
Qed.

Lemma empty_trimmed : trimmed "".
Proof. done. Qed.

Lemma extract_card_texts now pageNum index card s :
  extract_card now pageNum index card = Some s →
  trimmed (title s) ∧ trimmed (industry s) ∧
  ∀ pr, pr ∈ microsoftProducts s → trimmed (name pr).
Proof.
  unfold extract_card.
  destruct (titleElement card) as [t |]; [| done].
  destruct (storyLink card) as [href |]; [| done].
  intros [= <-]; simpl. split; [apply trim_trimmed |]. split.
  - destruct (industryElement card); [apply trim_trimmed | apply empty_trimmed].
  - intros pr (el & _ & Hel)%list_elem_of_omap. unfold extract_product in Hel.
    destruct (productLabel el); [| done]. injection Hel as <-. apply trim_trimmed.
Qed.

Lemma replace_first_unfold pat rep s :
  replace_first pat rep s
  = if String.prefix pat s then rep +:+ drop (String.length pat) s
    else match s with
         | EmptyString => EmptyString
         | String c t => String c (replace_first pat rep t)
         end.
Proof. by destruct s. Qed.

Lemma replace_first_prefix pat rep x :
  replace_first pat rep (pat +:+ x) = rep +:+ x.
Proof. by rewrite replace_first_unfold, prefix_app, drop_app. Qed.

Lemma replace_first_absent pat rep s :
  includes s pat = false → replace_first pat rep s = s.
Proof.
  induction s as [| c t IH]; rewrite replace_first_unfold;
    cbn [includes]; intros [Hp Hi]%orb_false_elim; rewrite Hp; [done |].
  by rewrite (IH Hi).
Qed.

End TrimFacts.

(** X15: in the dataset of a completed run the title and the industry of
    every record and the name of every product neither begin nor end with
    white space (trimming them again changes nothing). *)
Theorem texts_of_records_are_trimmed
    render net now finishedAt mediaDir fuel env w0 r s :
  run render net now finishedAt mediaDir fuel env w0 = Completed r →
  s ∈ stories (dataset r) →
  trimmed (title s) ∧ trimmed (industry s) ∧
  ∀ pr, pr ∈ microsoftProducts s → trimmed (name pr).
Proof.
  intros Hrun Hs.
  destruct (run_story_source _ _ _ _ _ _ _ _ _ _ Hrun Hs)
    as (s0 & w1 & w2 & Hin & Hd & _).
  apply run_Completed in Hrun as (url & _ & _ & Hloop & _).
  apply page_loop_accumulated in Hloop as (_ & Hex & _).
  destruct (Hex _ Hin) as (p & _ & (j & card & _ & Hc)%extract_from_elem).
  apply extract_card_texts in Hc as (Ht & Hi & Hp).
  apply download_story_parts in Hd as (wa & wb & _ & _ & Hic & Hid & Hind & _).
  unfold identity in Hid. injection Hid as _ _ _ Htt _.
  rewrite Htt, Hind. split; [done |]. split; [done |].
  intros pr Hpr. apply download_icons_Forall2 in Hic.
  destruct (Forall2_elem_r _ _ _ _ Hic Hpr) as (pr0 & Hin0 & wc & wd & Hd0).
  apply download_icon_cases in Hd0 as (-> & _). by apply Hp.
Qed.

Lemma texts_of_records_are_trimmed_witness :
  ∃ r s, run DemoSmall.site Demo.all_ok "t0" "t1" DemoSmall.mediaDir 4
             (Some DemoSmall.seed) Demo.empty_disk = Completed r ∧
         s ∈ stories (dataset r) ∧ industry s = "Retail" ∧ trimmed (industry s).
Proof.
  eexists. eexists.
  split; [vm_compute; reflexivity |].
  split; [apply list_elem_of_here |].
  split; [reflexivity |].
  eapply (texts_of_records_are_trimmed
            DemoSmall.site Demo.all_ok "t0" "t1" DemoSmall.mediaDir 4
            (Some DemoSmall.seed) Demo.empty_disk).
  - vm_compute; reflexivity.
  - apply list_elem_of_here.
Defined.

(** X16: the industry of a record is empty when the card has no industry
    label; it is the trimmed rest of the label when the label begins with
    'Industry: ', and the trimmed label when the label does not contain
    'Industry: ' at all. *)
Theorem industry_label_prefix_is_removed now pageNum index card s :
  extract_card now pageNum index card = Some s →
  (industryElement card = None → industry s = "") ∧
  (∀ x, industryElement card = Some ("Industry: " +:+ x) → industry s = trim x) ∧
  (∀ t, industryElement card = Some t → includes t "Industry: " = false →
        industry s = trim t).
Proof.
  unfold extract_card.
  destruct (titleElement card) as [t0 |]; [| done].
  destruct (storyLink card) as [href |]; [| done].
  intros [= <-]; simpl. split; [by intros -> |]. split.
  - intros x ->. by rewrite replace_first_prefix.
  - intros t -> Hi. by rewrite replace_first_absent.
Qed.

Lemma industry_label_prefix_is_removed_witness :
  ∃ s, extract_card "t0" 1 0 (Demo.story_card "Alpha" "alpha") = Some s ∧
       industry s = "Retail".
Proof.
  eexists. split; [reflexivity |].
  destruct (industry_label_prefix_is_removed
              "t0" 1 0 (Demo.story_card "Alpha" "alpha") _ eq_refl)
    as (_ & Hp & _).
  exact (Hp "Retail" eq_refl).
Defined.

(** ** The extension of a URL that ends in a known one *)

Section SuffixFacts.

Lemma prefix_ci_cons a p b s :
  prefix_ci (String a p) (String b s)
  = if ascii_dec (lower_char a) (lower_char b) then prefix_ci p s else false.
Proof. reflexivity. Qed.

Lemma prefix_ci_empty_l s : prefix_ci "" s = true.
Proof. by destruct s. Qed.

Lemma prefix_ci_empty_r a p : prefix_ci (String a p) "" = false.
Proof. reflexivity. Qed.

Lemma toLowerCase_cons a s :
  toLowerCase (String a s) = String (lower_char a) (toLowerCase s).
Proof. reflexivity. Qed.

Lemma substring_0_0 s : String.substring 0 0 s = "".
Proof. by destruct s. Qed.

Lemma lower_letter_not_dot a : is_lower a = true → lower_char a ≠ lower_char ".".
Proof. by destruct a as [[] [] [] [] [] [] [] []]. Qed.

(** a match of an extension that starts before the dot cannot be followed
    by the end of the URL or by a question mark *)
Lemma no_match_before_dot e0 p u :
  all_chars is_lower e0 = true → no_question_mark p = true →
  prefix_ci e0 (p +:+ "." +:+ u) = true →
  query_then_end (drop (String.length e0) (p +:+ "." +:+ u)) = false.
Proof.
  revert p. induction e0 as [| a e0 IH]; intros p He Hp Hpre.
  - destruct p as [| c p]; [done |].
    rewrite app_cons. simpl in Hp |- *. apply andb_prop in Hp as [Hc _].
    apply negb_true_iff in Hc. by rewrite Hc.
  - simpl in He. apply andb_prop in He as [Ha He].
    destruct p as [| c p].
    + rewrite app_empty, app_cons, prefix_ci_cons in Hpre.
      destruct (ascii_dec _ _) as [Heq |]; [| done].
      by apply lower_letter_not_dot in Heq.
    + rewrite app_cons, prefix_ci_cons in Hpre.
      destruct (ascii_dec _ _); [| done].
      simpl in Hp. apply andb_prop in Hp as [_ Hp].
      rewrite app_cons. simpl drop. by apply IH.
Qed.

Lemma known_extension_letters e : e ∈ known_extensions → all_chars is_lower e = true.
Proof.
  unfold known_extensions. rewrite !elem_of_cons, elem_of_nil.
  intros [-> | [-> | [-> | [-> | [-> | [-> | []]]]]]]; reflexivity.
Qed.

Lemma extension_here_before_dot p u :
  no_question_mark p = true → extension_here (p +:+ "." +:+ u) = None.
Proof.
  intros Hp. destruct (extension_here _) as [e0 |] eqn:He; [| done].
  unfold extension_here in He. apply find_some in He as [Hin Hc].
  apply list_elem_of_In in Hin. apply andb_prop in Hc as [Hpre Hq].
  rewrite (no_match_before_dot e0 p u) in Hq;
    [done | by apply known_extension_letters | done | done].
Qed.

Ltac decide_chars :=
  repeat match goal with
         | |- context [ascii_dec ?a ?b] =>
             let Hd := fresh in
             destruct (ascii_dec a b) as [Hd | Hd];
             [try (by vm_compute in Hd)
             | try (by exfalso; apply Hd; vm_compute)];
             clear Hd
         end.

(** at the dot in front of the extension the match succeeds *)
Lemma extension_here_at_suffix e rest :
  toLowerCase e ∈ known_extensions → query_then_end rest = true →
  ∃ e1, extension_here (e +:+ rest) = Some (toLowerCase e) ∧
        String.substring 0 (String.length (toLowerCase e)) (e +:+ rest) = e1 ∧
        toLowerCase e1 = toLowerCase e.
Proof.
  unfold known_extensions. rewrite !elem_of_cons, elem_of_nil. intros HL Hq.
  destruct HL as [HL | [HL | [HL | [HL | [HL | [HL | []]]]]]];
    rewrite HL;
    destruct e as [| c1 [| c2 [| c3 [| c4 [| c5 e]]]]]; try discriminate HL;
    rewrite ?toLowerCase_cons in HL; simplify_eq;
    rewrite !app_cons, app_empty;
    (eexists; split;
       [| split; [reflexivity
                 | simpl; rewrite substring_0_0, !toLowerCase_cons;
                   change (toLowerCase "") with ""; congruence]]);
    unfold extension_here, known_extensions; cbn [find];
    rewrite ?prefix_ci_cons, ?prefix_ci_empty_l;
    repeat match goal with
           | H : lower_char ?c = _ |- context [lower_char ?c] => rewrite H
           end;
    decide_chars; simpl; rewrite ?Hq; try done.
Qed.

Lemma url_extension_of_suffix pre e rest :
  toLowerCase e ∈ known_extensions → no_question_mark pre = true →
  query_then_end rest = true →
  ∃ e1, url_extension (pre +:+ "." +:+ e +:+ rest) = Some e1 ∧
        toLowerCase e1 = toLowerCase e.
Proof.
  intros HL Hp Hq. induction pre as [| c pre IH].
  - rewrite app_empty, app_cons, app_empty. simpl url_extension.
    destruct (extension_here_at_suffix e rest HL Hq) as (e1 & -> & Hs & Hl).
    exists e1. by rewrite Hs.
  - simpl in Hp. apply andb_prop in Hp as [_ Hp].
    rewrite app_cons. simpl url_extension.
    destruct (code c =? 46)%N; [| by apply IH].
    rewrite (extension_here_before_dot pre (e +:+ rest) Hp). by apply IH.
Qed.

End SuffixFacts.

(** X17: for a URL that ends in a dot and one of the six known extensions
    in any letter case, with no question mark before that dot, optionally
    followed by a query (a question mark and anything but a line break),
    [getImageExtension] returns that extension in lower case, whatever the
    content type says. *)
Theorem getImageExtension_of_url_suffix pre e rest contentType :
  toLowerCase e ∈ known_extensions →
  no_question_mark pre = true →
  (rest = "" ∨ ∃ q, rest = "?" +:+ q ∧ no_line_terminator q = true) →
  getImageExtension (pre +:+ "." +:+ e +:+ rest) contentType = toLowerCase e.
Proof.
  intros HL Hp Hr.
  assert (Hq : query_then_end rest = true).
  { destruct Hr as [-> | (q & -> & Hq)]; [done | by rewrite app_cons]. }
  destruct (url_extension_of_suffix pre e rest HL Hp Hq) as (e1 & Hu & Hl).
  unfold getImageExtension. by rewrite Hu.
Qed.

Lemma getImageExtension_of_url_suffix_witness :
  getImageExtension "https://cdn.example.com/headers/alpha.JPG?w=400" "image/png"
  = "jpg".
Proof.
  apply (getImageExtension_of_url_suffix
           "https://cdn.example.com/headers/alpha" "JPG" "?w=400" "image/png").
  - vm_compute. set_solver.
  - reflexivity.
  - right. exists "w=400". split; reflexivity.
Defined.

(** ** The browsing page *)

Section FrontEndFacts.

Lemma filter_stories_no_search sel l :
  filter_stories "" sel l = Some (filter (λ s, matchesIndustry sel s = true) l).
Proof.
  induction l as [| s l IH]; [done |].
  cbn [filter_stories]. rewrite IH. simpl matchesSearch. cbv iota. simpl andb.
  rewrite filter_cons. by destruct (matchesIndustry sel s).
Qed.

Lemma matchesSearch_unnamed term s :
  term ≠ "" → ls_companyName s = None →
  matchesSearch term s
  = if includes (toLowerCase (ls_title s)) term then Some true else None.
Proof.
  intros Ht Hn. unfold matchesSearch. rewrite (is_empty_false _ Ht), Hn.
  by destruct (includes _ _).
Qed.

Lemma filter_stories_unnamed term sel l :
  term ≠ "" → (∀ s, s ∈ l → ls_companyName s = None) →
  filter_stories term sel l
  = if forallb (λ s, includes (toLowerCase (ls_title s)) term) l
    then Some (filter (λ s, matchesIndustry sel s = true) l)
    else None.
Proof.
  intros Ht. induction l as [| s l IH]; intros Hn; [done |].
  cbn [filter_stories forallb].
  rewrite matchesSearch_unnamed by (done || apply Hn, list_elem_of_here).
  rewrite IH by (intros; by apply Hn, list_elem_of_further).
  destruct (includes (toLowerCase (ls_title s)) term) eqn:Hs; [| done].
  simpl andb. destruct (forallb _ l); [| done].
  rewrite filter_cons. by destruct (matchesIndustry sel s).
Qed.

Lemma toLowerCase_empty v : toLowerCase v = "" → v = "".
Proof. by destruct v. Qed.

Lemma set_add_elem x y l : y ∈ set_add x l ↔ y = x ∨ y ∈ l.
Proof.
  unfold set_add. case_decide as Hx.
  - split; [by right | intros [-> | ?]; done].
  - rewrite elem_of_app, list_elem_of_singleton. tauto.
Qed.

Lemma set_add_NoDup x l : NoDup l → NoDup (set_add x l).
Proof.
  intros Hl. unfold set_add. case_decide as Hx; [done |].
  apply NoDup_app. split; [done |]. split; [| apply NoDup_singleton].
  intros y Hy ->%list_elem_of_singleton. done.
Qed.

Lemma collect_industries_spec l :
  NoDup (collect_industries l) ∧
  ∀ x, x ∈ collect_industries l ↔ x ≠ "" ∧ ∃ s, s ∈ l ∧ ls_industry s = x.
Proof.
  unfold collect_industries.
  induction l as [| s l IH] using rev_ind.
  { split; [constructor |]. intros x. split.
    - by intros ?%elem_of_nil.
    - by intros (_ & s & ?%elem_of_nil & _). }
  rewrite foldl_snoc. destruct IH as [Hnd Hin].
  destruct (ls_industry s) as [| c t] eqn:Hs; simpl.
  - split; [done |]. intros x. rewrite Hin. split.
    + intros (Hx & s' & Hs' & He). split; [done |]. exists s'.
      split; [apply elem_of_app; by left | done].
    + intros (Hx & s' & [Hs' | ->%list_elem_of_singleton]%elem_of_app & He).
      * split; [done |]. by exists s'.
      * congruence.
  - split; [by apply set_add_NoDup |]. intros x. rewrite set_add_elem, Hin. split.
    + intros [-> | (Hx & s' & Hs' & He)].
      * split; [done |]. exists s. split; [| done].
        apply elem_of_app. right. apply list_elem_of_here.
      * split; [done |]. exists s'. split; [apply elem_of_app; by left | done].
    + intros (Hx & s' & [Hs' | ->%list_elem_of_singleton]%elem_of_app & He).
      * right. split; [done |]. by exists s'.
      * left. congruence.
Qed.

End FrontEndFacts.

(** X18: on the stories of a file that the extraction test wrote, with an
    empty search box the filter does not throw: it keeps the stories of the
    selected industry, in their original order, and all stories when no
    industry is selected. *)
Theorem filter_by_industry_alone sel (records : list StoryRecord) :
  applyFilters "" sel (load_story <$> records)
  = Some (load_story <$>
            (if is_empty sel then records
             else filter (λ s, industry s = sel) records)).
Proof.
  unfold applyFilters. simpl toLowerCase.
  rewrite filter_stories_no_search. f_equal.
  unfold matchesIndustry. destruct sel as [| c t]; simpl.
  - induction records as [| s l IH]; [done |].
    rewrite fmap_cons, filter_cons. destruct (decide _); [by rewrite IH | done].
  - induction records as [| s l IH]; [done |].
    rewrite fmap_cons, !filter_cons, IH. simpl.
    destruct (decide (bool_decide (industry s = String c t) = true)) as [Hb | Hb];
      destruct (decide (industry s = String c t)) as [He | He]; try done.
    + by apply bool_decide_eq_true in Hb.
    + destruct Hb. by apply bool_decide_eq_true.
Qed.

(** X19: on the stories of a file written by the extraction test, which
    hold no company name, a non-empty search throws a TypeError when some
    title does not contain the term in lower case; when every title contains
    it, the result is the stories of the selected industry. *)
Theorem search_on_extracted_stories searchInput sel (records : list StoryRecord) :
  searchInput ≠ "" →
  ((∃ s, s ∈ records ∧
         includes (toLowerCase (title s)) (toLowerCase searchInput) = false) →
   applyFilters searchInput sel (load_story <$> records) = None) ∧
  ((∀ s, s ∈ records →
         includes (toLowerCase (title s)) (toLowerCase searchInput) = true) →
   applyFilters searchInput sel (load_story <$> records)
   = Some (filter (λ s, matchesIndustry sel s = true) (load_story <$> records))).
Proof.
  intros Hv. unfold applyFilters.
  rewrite filter_stories_unnamed;
    [| by intros ?%toLowerCase_empty
     | by intros ls (s & -> & Hs)%list_elem_of_fmap].
  split.
  - intros (s & Hs & Hf).
    destruct (forallb _ _) eqn:Hall; [| done].
    rewrite forallb_forall in Hall.
    specialize (Hall (load_story s)). simpl in Hall.
    rewrite Hall in Hf; [done |].
    apply list_elem_of_In. by apply list_elem_of_fmap_2.
  - intros Hall.
    destruct (forallb _ _) eqn:Hf; [done |].
    assert (forallb (λ s, includes (toLowerCase (ls_title s)) (toLowerCase searchInput))
                    (load_story <$> records) = true) as Ht; [| congruence].
    apply forallb_forall. intros ls Hls. apply list_elem_of_In in Hls.
    apply list_elem_of_fmap in Hls as (s & -> & Hs). by apply Hall.
Qed.

Lemma search_on_extracted_stories_witness :
  ∃ s, extract_card "t0" 1 0 (Demo.story_card "Alpha" "alpha") = Some s ∧
       applyFilters "retail" "" (load_story <$> [s]) = None.
Proof.
  eexists. split; [reflexivity |].
  apply (search_on_extracted_stories "retail" "" _ ltac:(discriminate)).
  eexists. split; [apply list_elem_of_here | reflexivity].
Defined.

(** X20: the options that [populateIndustryFilter] adds are exactly the
    non-empty industries of the loaded stories, each once, in increasing
    order of strings. *)
Theorem industry_options_are_sorted_and_unique (stories : list LoadedStory) :
  Sorted String.le (populateIndustryFilter stories) ∧
  NoDup (populateIndustryFilter stories) ∧
  ∀ x, x ∈ populateIndustryFilter stories ↔
       x ≠ "" ∧ ∃ s, s ∈ stories ∧ ls_industry s = x.
Proof.
  unfold populateIndustryFilter.
  destruct (collect_industries_spec stories) as [Hnd Hin].
  split; [apply Sorted_merge_sort; apply _ |].
  split; [by rewrite merge_sort_Permutation |].
  intros x. by rewrite merge_sort_Permutation.
Qed.
